(** * Lazy-propagation segment tree (range update, range query)

    A shallow embedding of
    [Section-3-Data-Structures/3.3.2 Segment Tree (Range Update).cpp]
    and the proofs of its specification.

    Modelling choices.
    - The class keeps three [std::vector]s of length [4*len] and an [int]
      length.  They are lists here; [operator[]] is bounds-checked in the
      model: an index outside the vector makes the operation end in
      [Fault] (the C++ behaviour is undefined there).
    - [int] is [Z].  On a call with in-range arguments every integer
      the code computes for a structure of [len] elements is an index
      below [4*len], a span bound below [len] or a target bound that is
      only compared, so the model is exact whenever [4*len] fits in an
      [int].  The constructors compute [4*len] itself.  Where it does
      not fit, from [len = 2^29] on, the multiplication overflows, which
      C++ leaves undefined (compiled with g++ for x86-64 the product
      wraps around: at [2^29] it is negative and [resize] throws, at
      [2^30] it is 0 and [build] writes outside the empty vectors).
      The model ends in [Fault] there ([allocate]), as for a negative
      size, so no structure of [2^29] or more elements exists in it
      ([segment_tree_range_fits]).  A range handed to the second
      constructor is taken to have at most [INT_MAX] elements, the
      lengths that [len = hi - lo] can hold.  Division is the
      truncating [Z.quot] of C++.  The element type of the two
      instantiations is [Z] as well: the default operators do no
      arithmetic on elements, and sums are taken not to overflow.
    - The member functions mutate the object; they are written in a small
      state-and-error monad over the record of the three vectors.
    - The recursive member functions take a recursion budget.  The public
      entry points supply a budget larger than the vectors, which is never
      exhausted: every recursive call moves to a strictly larger node
      index and indexes the vectors before it recurses
      ([query_never_exhausts], [update_never_exhausts]).
    - [join_values], [join_value_with_delta] and [join_deltas] are the
      three static member functions that the comment at the top of the
      source file tells the user to redefine; they are the fields of the
      class [Ops].
    - The two recursive calls inside [join_values(query(..), query(..))]
      are unsequenced in C++; the model runs the left one first.  They
      work on disjoint sets of vector slots ([under_children_disjoint]),
      and whenever one order returns, the other returns the same value
      and leaves the same object ([query_rec_order]).

    The same source file holds the class [binary_search_tree] (3.4.1),
    embedded in the module [bst].  Modelling choices there.
    - A [node_t *] is the null pointer or a node the pointer owns: no
      node is reachable along two paths, so the linked structure is the
      inductive type [bst.node_t].  [new] builds a node; storage is not
      modelled, so [delete] and the destructor's [clean_up] have no
      counterpart.
    - A [node_t *&] parameter is a pointer the callee may overwrite: the
      static [insert] and [erase] return what it points to afterwards
      besides their [bool].
    - [key_t] comes with [operator<] and [operator==], the fields of the
      class [bst.Key].  The theorems assume that [<] is a strict total
      order and that [==] is equality ([bst.key_laws]), as for [int].
    - [walk] is handed a function object; the model lists the values
      it is called on, in call order.
    - [find] returns a pointer to the value it found: [bst.find] is what
      the pointer points to, [None] for the null pointer, and
      [bst.find_assign] is a store through it, as in [*T.find(4) = 'd'].
    - [num_nodes] is an [int], [Z] here.

    The file [unnamed/part_000] holds the class [disjoint_set_forest],
    embedded in the module [dsf]; its other function, the hill-climbing
    [find_min], computes with [double]s and is left out.  Modelling
    choices there.
    - A [std::map<K, V>] is the list of its entries in increasing key
      order, the order its iterators run through.  [find] and
      [operator[]] are [dsf.map_find] and [dsf.map_set], which compare
      keys with [<] only; [operator[]] on a missing key enters it with
      the value [int()], that is 0.
    - The vectors [root] and [rank] are lists with bounds-checked
      access, as above.
    - [find_root] takes a recursion budget, and the public member
      functions supply the largest rank plus two.  On the objects a
      program can build it is never exhausted: every step to a parent
      strictly increases the rank ([find_root_rec_spec]).
    - The two operands of [==] in [is_united] are unsequenced; the
      model evaluates the left one first.  Evaluating the right one
      first is the model of [is_united(y, x)], and the statements about
      [is_united] are symmetric in [x] and [y].
    - [T] comes with [operator<], the class [dsf.Less]; the theorems
      assume that it is a strict total order ([dsf.less_laws]). *)

From Stdlib Require Import ZArith Lia List Bool Ascii.
From stdpp Require Import base tactics option list numbers sorting.

Local Open Scope Z_scope.

(** ** Results and the state monad *)

Inductive res (A : Type) : Type :=
| Ok (a : A)
| Fault
| OutOfFuel.
Arguments Ok {A} a.
Arguments Fault {A}.
Arguments OutOfFuel {A}.

Definition M (S A : Type) : Type := S -> res (A * S).

Definition ret {S A} (a : A) : M S A := fun s => Ok (a, s).

Definition bind {S A B} (m : M S A) (f : A -> M S B) : M S B :=
  fun s =>
    match m s with
    | Ok (a, s') => f a s'
    | Fault => Fault
    | OutOfFuel => OutOfFuel
    end.

Definition out_of_fuel {S A} : M S A := fun _ => OutOfFuel.

Declare Scope segm_scope.
Delimit Scope segm_scope with segm.
Notation "x <- m ;; f" := (bind m (fun x => f))
  (at level 100, m at next level, f at level 200, right associativity)
  : segm_scope.
Notation "m ;; f" := (bind m (fun _ => f))
  (at level 100, f at level 200, right associativity) : segm_scope.

(** ** Vectors indexed by [int] *)

Section Vec.
Context {A : Type}.

(** [v[i]] as an rvalue. *)
Definition vget (l : list A) (i : Z) : option A :=
  if decide (0 <= i) then l !! Z.to_nat i else None.

(** [v[i] = x]. *)
Definition vset (l : list A) (i : Z) (x : A) : option (list A) :=
  if decide (0 <= i < Z.of_nat (length l))
  then Some (<[Z.to_nat i := x]> l) else None.
End Vec.

(** ** The operators the class is parameterised by *)

Class Ops (T : Type) : Type := {
  join_values : T -> T -> T;
  join_value_with_delta : T -> T -> Z -> T;
  join_deltas : T -> T -> T;
  (** [T()], what [resize] fills the vectors with. *)
  T_init : T
}.

(** The code as shipped: "min" queries, "set" updates, on [int]. *)
Definition min_set : Ops Z := {|
  join_values a b := Z.min a b;
  join_value_with_delta v d len := d;
  join_deltas d1 d2 := d2;
  T_init := 0
|}.

(** The variant the header comment describes: "sum" queries, "increment"
    updates. *)
Definition sum_increment : Ops Z := {|
  join_values a b := a + b;
  join_value_with_delta v d len := v + d * len;
  join_deltas d1 d2 := d1 + d2;
  T_init := 0
|}.

(** Contract 2 as worded speaks of equal values only, which is less than
    the algorithm relies on.  These sum/increment-like operators apply a
    delta to an aggregate only when the aggregate is a multiple of the
    span length: they satisfy the three documented contracts, and yet
    after [update(0, 1, 1)] on [[1; 2]] the query over [[0, 1]] returns 3
    while the queries over [[0, 0]] and [[1, 1]] return 2 and 3. *)
Definition lumpy : Ops Z := {|
  join_values a b := a + b;
  join_value_with_delta v d len := if v mod len =? 0 then v + d * len else v;
  join_deltas d1 d2 := d1 + d2;
  T_init := 0
|}.

(** ** The class *)

Record segment_tree (T : Type) : Type := SegmentTree {
  len : Z;
  value : list T;
  delta : list T;
  pending : list bool
}.
Arguments SegmentTree {T} len value delta pending.
Arguments len {T} s.
Arguments value {T} s.
Arguments delta {T} s.
Arguments pending {T} s.

Section Code.
Context {T : Type} {ops : Ops T}.

Local Open Scope segm_scope.
Abbreviation st := (segment_tree T).

Definition get_value (i : Z) : M st T := fun s =>
  match vget (value s) i with Some v => Ok (v, s) | None => Fault end.
Definition get_delta (i : Z) : M st T := fun s =>
  match vget (delta s) i with Some d => Ok (d, s) | None => Fault end.
Definition get_pending (i : Z) : M st bool := fun s =>
  match vget (pending s) i with Some p => Ok (p, s) | None => Fault end.

Definition set_value (i : Z) (v : T) : M st unit := fun s =>
  match vset (value s) i v with
  | Some l => Ok (tt, SegmentTree (len s) l (delta s) (pending s))
  | None => Fault
  end.
Definition set_delta (i : Z) (d : T) : M st unit := fun s =>
  match vset (delta s) i d with
  | Some l => Ok (tt, SegmentTree (len s) (value s) l (pending s))
  | None => Fault
  end.
Definition set_pending (i : Z) (p : bool) : M st unit := fun s =>
  match vset (pending s) i p with
  | Some l => Ok (tt, SegmentTree (len s) (value s) (delta s) l)
  | None => Fault
  end.

(** [void build(int i, int lo, int hi, const T &v)] *)
Fixpoint build (fuel : nat) (i lo hi : Z) (v : T) : M st unit :=
  match fuel with
  | O => out_of_fuel
  | S fuel =>
      if lo =? hi then set_value i v
      else
        build fuel (i*2 + 1) lo ((lo + hi) ÷ 2) v ;;
        build fuel (i*2 + 2) ((lo + hi) ÷ 2 + 1) hi v ;;
        a <- get_value (i*2 + 1) ;;
        b <- get_value (i*2 + 2) ;;
        set_value i (join_values a b)
  end.

(** [*(arr + k)] for the range handed to the second constructor. *)
Definition deref (arr : list T) (k : Z) : M st T := fun s =>
  match vget arr k with Some x => Ok (x, s) | None => Fault end.

(** [template<class It> void build(int i, int lo, int hi, It arr)] *)
Fixpoint build_it (fuel : nat) (i lo hi : Z) (arr : list T) : M st unit :=
  match fuel with
  | O => out_of_fuel
  | S fuel =>
      if lo =? hi then (x <- deref arr lo ;; set_value i x)
      else
        build_it fuel (i*2 + 1) lo ((lo + hi) ÷ 2) arr ;;
        build_it fuel (i*2 + 2) ((lo + hi) ÷ 2 + 1) hi arr ;;
        a <- get_value (i*2 + 1) ;;
        b <- get_value (i*2 + 2) ;;
        set_value i (join_values a b)
  end.

(** [void update_delta(int i, const T &d, int lo, int hi)].  At the two
    call sites that pass [delta[i]] the reference [d] aliases a slot of
    [delta]; the body writes [delta] only at the children [2i+1] and
    [2i+2], so reading [d] once on entry is the same. *)
Definition update_delta (i : Z) (d : T) (lo hi : Z) : M st unit :=
  p <- get_pending i ;;
  (if p then
     v <- get_value i ;;
     set_value i (join_value_with_delta v d (hi - lo + 1)) ;;
     if negb (lo =? hi) then
       let l := 2*i + 1 in
       let r := 2*i + 2 in
       pl <- get_pending l ;;
       dl <- (if pl then (x <- get_delta l ;; ret (join_deltas x d))
              else ret d) ;;
       set_delta l dl ;;
       pr <- get_pending r ;;
       dr <- (if pr then (x <- get_delta r ;; ret (join_deltas x d))
              else ret d) ;;
       set_delta r dr ;;
       set_pending r true ;;
       set_pending l true
     else ret tt
   else ret tt) ;;
  set_pending i false.

(** [T query(int i, int lo, int hi, int tgt_lo, int tgt_hi)] *)
Fixpoint query_rec (fuel : nat) (i lo hi tgt_lo tgt_hi : Z) : M st T :=
  match fuel with
  | O => out_of_fuel
  | S fuel =>
      d <- get_delta i ;;
      update_delta i d lo hi ;;
      if (lo =? tgt_lo) && (hi =? tgt_hi) then get_value i
      else
        let mid := (lo + hi) ÷ 2 in
        if (tgt_lo <=? mid) && (mid <? tgt_hi) then
          a <- query_rec fuel (i*2 + 1) lo mid tgt_lo (Z.min tgt_hi mid) ;;
          b <- query_rec fuel (i*2 + 2) (mid + 1) hi
                 (Z.max tgt_lo (mid + 1)) tgt_hi ;;
          ret (join_values a b)
        else if tgt_lo <=? mid then
          query_rec fuel (i*2 + 1) lo mid tgt_lo (Z.min tgt_hi mid)
        else
          query_rec fuel (i*2 + 2) (mid + 1) hi
            (Z.max tgt_lo (mid + 1)) tgt_hi
  end.

(** [void update(int i, int lo, int hi, int tgt_lo, int tgt_hi,
    const T &d)] *)
Fixpoint update_rec (fuel : nat) (i lo hi tgt_lo tgt_hi : Z) (d : T)
  : M st unit :=
  match fuel with
  | O => out_of_fuel
  | S fuel =>
      d0 <- get_delta i ;;
      update_delta i d0 lo hi ;;
      if (hi <? tgt_lo) || (lo >? tgt_hi) then ret tt
      else if (tgt_lo <=? lo) && (hi <=? tgt_hi) then
        set_pending i true ;;
        update_delta i d lo hi
      else
        update_rec fuel (2*i + 1) lo ((lo + hi) ÷ 2) tgt_lo tgt_hi d ;;
        update_rec fuel (2*i + 2) ((lo + hi) ÷ 2 + 1) hi tgt_lo tgt_hi d ;;
        a <- get_value (2*i + 1) ;;
        b <- get_value (2*i + 2) ;;
        set_value i (join_values a b)
  end.

(** The recursion budget the public member functions start with. *)
Definition budget (s : st) : nat := S (S (length (delta s))).

(** The largest [int]. *)
Definition INT_MAX : Z := 2^31 - 1.

(** The part of both constructors before [build]: [len = n] and the
    three [resize(4*len)].  A negative size makes [resize] throw.  The
    product [4*len] is an [int]: from [len = 2^29] on it does not fit,
    the multiplication overflows and nothing is promised of the
    program, so the constructor ends in [Fault]. *)
Definition allocate (n : Z) : res st :=
  if n <? 0 then Fault
  else if INT_MAX <? 4*n then Fault
  else Ok (SegmentTree n
             (replicate (Z.to_nat (4*n)) T_init)
             (replicate (Z.to_nat (4*n)) T_init)
             (replicate (Z.to_nat (4*n)) false)).

Definition run_ctor (n : Z) (body : st -> M st unit) : res st :=
  match allocate n with
  | Ok s0 =>
      match body s0 s0 with
      | Ok (_, s) => Ok s
      | Fault => Fault
      | OutOfFuel => OutOfFuel
      end
  | Fault => Fault
  | OutOfFuel => OutOfFuel
  end.

(** [segment_tree(int n, const T &v = T())] *)
Definition segment_tree_fill (n : Z) (v : T) : res st :=
  run_ctor n (fun s0 => build (budget s0) 0 0 (len s0 - 1) v).

(** [template<class It> segment_tree(It lo, It hi)], the range given as
    the list of its elements. *)
Definition segment_tree_range (arr : list T) : res st :=
  run_ctor (Z.of_nat (length arr))
    (fun s0 => build_it (budget s0) 0 0 (len s0 - 1) arr).

(** [int size() const] *)
Definition size (s : st) : Z := len s.

(** [T query(int lo, int hi)] *)
Definition query (lo hi : Z) : M st T := fun s =>
  query_rec (budget s) 0 0 (len s - 1) lo hi s.

(** [T at(int i)] *)
Definition at_ (i : Z) : M st T := query i i.

(** [void update(int lo, int hi, const T &d)] *)
Definition update (lo hi : Z) (d : T) : M st unit := fun s =>
  update_rec (budget s) 0 0 (len s - 1) lo hi d s.

(** [void update(int i, const T &d)] *)
Definition update_at (i : Z) (d : T) : M st unit := fun s =>
  update_rec (budget s) 0 0 (len s - 1) i i d s.
End Code.

(** ** Concrete structures *)

(** The array of the example program in the source file. *)
Definition example_tree : segment_tree Z :=
  Eval vm_compute in
    match segment_tree_range (ops:=min_set) [6; -2; 1; 8; 10] with
    | Ok s => s
    | _ => SegmentTree 0 [] [] []
    end.

(** The example array after [update(1, 3, 5)].  The nodes the update
    covers are the leaves for the indices 1, 2 and 3, so the delta is
    applied to them at once and no node is left pending. *)
Definition example_updated : segment_tree Z :=
  Eval vm_compute in
    match update (ops:=min_set) 1 3 5 example_tree with
    | Ok (_, s) => s
    | _ => example_tree
    end.

(** * Binary search tree *)

Module bst.

(** [operator<] and [operator==] of [key_t]. *)
Class Key (K : Type) : Type := {
  key_lt : K -> K -> bool;
  key_eq : K -> K -> bool
}.

(** The keys of the example program: [int]. *)
Definition int_key : Key Z := {| key_lt := Z.ltb; key_eq := Z.eqb |}.

(** A [node_t *]: the null pointer, or the node it owns. *)
Inductive node_t (K V : Type) : Type :=
| null
| node (key : K) (val : V) (L R : node_t K V).
Arguments null {K V}.
Arguments node {K V} key val L R.

Record binary_search_tree (K V : Type) : Type := BinarySearchTree {
  root : node_t K V;
  num_nodes : Z
}.
Arguments BinarySearchTree {K V} root num_nodes.
Arguments root {K V} b.
Arguments num_nodes {K V} b.

Section Code.
Context {K V : Type} {cmp : Key K}.

(** [static bool insert(node_t *&n, const key_t &k, const val_t &v)]: the
    result, and what [n] points to afterwards. *)
Fixpoint insert_rec (n : node_t K V) (k : K) (v : V) : bool * node_t K V :=
  match n with
  | null => (true, node k v null null)
  | node key val L R =>
      if key_lt k key then
        let '(b, L') := insert_rec L k v in (b, node key val L' R)
      else if key_lt key k then
        let '(b, R') := insert_rec R k v in (b, node key val L R')
      else (false, n)
  end.

(** The [while] loop of [erase]: the key and value of [temp], the last
    node on the left spine of the node holding [k], [v] and left child
    [L]. *)
Fixpoint leftmost (k : K) (v : V) (L : node_t K V) : K * V :=
  match L with
  | null => (k, v)
  | node k' v' L' _ => leftmost k' v' L'
  end.

Section Slot.
Variable erase : node_t K V -> K -> bool * node_t K V.

(** [erase(p, p->key)] for the pointer [p] that holds [temp]: [n->R]
    itself when the loop body never ran, [parent->L] otherwise. *)
Fixpoint erase_leftmost (t : node_t K V) : bool * node_t K V :=
  match t with
  | null => (false, null)
  | node k v null R => erase t k
  | node k v L R => let '(b, L') := erase_leftmost L in (b, node k v L' R)
  end.
End Slot.

(** [static bool erase(node_t *&n, const key_t &key)] *)
Fixpoint erase_rec (n : node_t K V) (key : K) : bool * node_t K V :=
  match n with
  | null => (false, null)
  | node k v L R =>
      if key_lt key k then
        let '(b, L') := erase_rec L key in (b, node k v L' R)
      else if key_lt k key then
        let '(b, R') := erase_rec R key in (b, node k v L R')
      else
        match L, R with
        | null, _ => (true, R)
        | _, null => (true, L)
        | _, node rk rv RL _ =>
            let '(tk, tv) := leftmost rk rv RL in
            let '(b, R') := erase_leftmost erase_rec R in
            (b, node tk tv L R')
        end
  end.

(** [static void walk(node_t *n, UnaryFunction f, int order)]: the
    arguments of the calls to [f], in the order they are made. *)
Fixpoint walk_rec (n : node_t K V) (order : Z) : list V :=
  match n with
  | null => []
  | node _ v L R =>
      (if order <? 0 then [v] else []) ++
      walk_rec L order ++
      (if order =? 0 then [v] else []) ++
      walk_rec R order ++
      (if 0 <? order then [v] else [])
  end.

(** The loop of [find], from the node [n]: what the returned pointer
    points to, [None] for the null pointer. *)
Fixpoint find_rec (n : node_t K V) (key : K) : option V :=
  match n with
  | null => None
  | node k v L R =>
      if key_eq k key then Some v
      else if key_lt key k then find_rec L key else find_rec R key
  end.

(** The same loop followed by a store through the pointer it returns,
    the statement [*t.find(key) = x]; the null pointer cannot be stored
    through. *)
Fixpoint assign_rec (n : node_t K V) (key : K) (x : V) : option (node_t K V) :=
  match n with
  | null => None
  | node k v L R =>
      if key_eq k key then Some (node k x L R)
      else if key_lt key k then
        match assign_rec L key x with
        | Some L' => Some (node k v L' R)
        | None => None
        end
      else
        match assign_rec R key x with
        | Some R' => Some (node k v L R')
        | None => None
        end
  end.

Abbreviation bst_t := (binary_search_tree K V).

(** [binary_search_tree(): root(0), num_nodes(0) {}] *)
Definition binary_search_tree_init : bst_t := BinarySearchTree null 0.

(** [int size() const] *)
Definition size (t : bst_t) : Z := num_nodes t.

(** [bool empty() const] *)
Definition empty (t : bst_t) : bool :=
  match root t with null => true | node _ _ _ _ => false end.

(** [bool insert(const key_t &key, const val_t &val)] *)
Definition insert (key : K) (val : V) (t : bst_t) : bool * bst_t :=
  let '(b, r) := insert_rec (root t) key val in
  if b then (true, BinarySearchTree r (num_nodes t + 1))
  else (false, BinarySearchTree r (num_nodes t)).

(** [bool erase(const key_t &key)] *)
Definition erase (key : K) (t : bst_t) : bool * bst_t :=
  let '(b, r) := erase_rec (root t) key in
  if b then (true, BinarySearchTree r (num_nodes t - 1))
  else (false, BinarySearchTree r (num_nodes t)).

(** [template<class UnaryFunction> void walk(UnaryFunction f, int order = 0)] *)
Definition walk (order : Z) (t : bst_t) : list V := walk_rec (root t) order.

(** [val_t *find(const key_t &key)] *)
Definition find (key : K) (t : bst_t) : option V := find_rec (root t) key.

(** [*t.find(key) = x] *)
Definition find_assign (key : K) (x : V) (t : bst_t) : option bst_t :=
  match assign_rec (root t) key x with
  | Some r => Some (BinarySearchTree r (num_nodes t))
  | None => None
  end.
End Code.

Section Spec.
Context {K V : Type} {cmp : Key K}.

(** The nodes in symmetric order: left subtree, node, right subtree. *)
Fixpoint entries (n : node_t K V) : list (K * V) :=
  match n with
  | null => []
  | node k v L R => entries L ++ (k, v) :: entries R
  end.

Fixpoint all_keys (P : K -> Prop) (n : node_t K V) : Prop :=
  match n with
  | null => True
  | node k _ L R => P k /\ all_keys P L /\ all_keys P R
  end.

(** The search-tree order: at each node the keys of the left subtree are
    below the node's key and the keys of the right subtree above it. *)
Fixpoint ordered (n : node_t K V) : Prop :=
  match n with
  | null => True
  | node k _ L R =>
      all_keys (fun x => key_lt x k = true) L /\
      all_keys (fun x => key_lt k x = true) R /\
      ordered L /\ ordered R
  end.

(** What the class expects of [key_t]: [<] is a strict total order and
    [==] is equality. *)
Definition key_laws : Prop :=
  (forall a : K, key_lt a a = false) /\
  (forall a b c : K, key_lt a b = true -> key_lt b c = true -> key_lt a c = true) /\
  (forall a b : K, key_lt a b = false -> key_lt b a = false -> a = b) /\
  (forall a b : K, key_eq a b = true <-> a = b).

(** The objects a program can hold: a fresh tree, changed by the public
    member functions and by stores through the pointers [find] returns. *)
Inductive built : binary_search_tree K V -> Prop :=
| built_init : built binary_search_tree_init
| built_insert t key val : built t -> built (insert key val t).2
| built_erase t key : built t -> built (erase key t).2
| built_assign t key x t' :
    built t -> find_assign key x t = Some t' -> built t'.
End Spec.

(** The tree of the example program after its five [insert] calls. *)
Definition example_bst : binary_search_tree Z ascii :=
  Eval vm_compute in
    (insert (cmp:=int_key) 4 "x"
       (insert (cmp:=int_key) 5 "e"
          (insert (cmp:=int_key) 3 "c"
             (insert (cmp:=int_key) 1 "a"
                (insert (cmp:=int_key) 2 "b"
                   binary_search_tree_init).2).2).2).2).2%char.
End bst.

(** * Disjoint-set forest *)

Module dsf.

(** [operator<] of the element type, which orders the [std::map]. *)
Class Less (T : Type) : Type := less : T -> T -> bool.

(** The elements of the example program: [char], ordered by code. *)
Definition char_less : Less ascii :=
  fun a b => (nat_of_ascii a <? nat_of_ascii b)%nat.

Section Map.
Context {K V : Type} (lt : K -> K -> bool).

(** A [std::map<K, V>] is the list of its entries in increasing key
    order, the order its iterators run through.  [m.find(k)], [None]
    for [m.end()]: *)
Fixpoint map_find (m : list (K * V)) (k : K) : option V :=
  match m with
  | [] => None
  | (k', v) :: m' =>
      if lt k k' then None
      else if lt k' k then map_find m' k
      else Some v
  end.

(** [m[k] = v] *)
Fixpoint map_set (m : list (K * V)) (k : K) (v : V) : list (K * V) :=
  match m with
  | [] => [(k, v)]
  | (k', v') :: m' =>
      if lt k k' then (k, v) :: m
      else if lt k' k then (k', v') :: map_set m' k v
      else (k', v) :: m'
  end.

(** What [std::map] expects of its order, in the strength the class
    uses it: a strict total order. *)
Definition strict_total : Prop :=
  (forall a : K, lt a a = false) /\
  (forall a b c : K, lt a b = true -> lt b c = true -> lt a c = true) /\
  (forall a b : K, lt a b = false -> lt b a = false -> a = b).
End Map.

Record disjoint_set_forest (T : Type) : Type := DisjointSetForest {
  num_elements : Z;
  num_sets : Z;
  id : list (T * Z);
  root : list Z;
  rank : list Z
}.
Arguments DisjointSetForest {T} num_elements num_sets id root rank.
Arguments num_elements {T} d.
Arguments num_sets {T} d.
Arguments id {T} d.
Arguments root {T} d.
Arguments rank {T} d.

Section Code.
Context {T : Type} {lt : Less T}.
Local Open Scope segm_scope.
Abbreviation forest := (disjoint_set_forest T).

Definition get_root (x : Z) : M forest Z := fun s =>
  match vget (root s) x with Some r => Ok (r, s) | None => Fault end.
Definition set_root (x r : Z) : M forest unit := fun s =>
  match vset (root s) x r with
  | Some l =>
      Ok (tt, DisjointSetForest (num_elements s) (num_sets s) (id s) l (rank s))
  | None => Fault
  end.
Definition get_rank (x : Z) : M forest Z := fun s =>
  match vget (rank s) x with Some r => Ok (r, s) | None => Fault end.
Definition set_rank (x k : Z) : M forest unit := fun s =>
  match vset (rank s) x k with
  | Some l =>
      Ok (tt, DisjointSetForest (num_elements s) (num_sets s) (id s) (root s) l)
  | None => Fault
  end.

(** [id[x]] read: [operator[]] first inserts a missing key, with the
    value [int()]. *)
Definition id_at (x : T) : M forest Z := fun s =>
  match map_find less (id s) x with
  | Some i => Ok (i, s)
  | None =>
      Ok (0, DisjointSetForest (num_elements s) (num_sets s)
               (map_set less (id s) x 0) (root s) (rank s))
  end.

(** [int find_root(int x)] *)
Fixpoint find_root_rec (fuel : nat) (x : Z) : M forest Z :=
  match fuel with
  | O => out_of_fuel
  | S fuel =>
      p <- get_root x ;;
      (if negb (p =? x) then
         r <- find_root_rec fuel p ;;
         set_root x r
       else ret tt) ;;
      get_root x
  end.

(** The recursion budget the public member functions start with. *)
Definition budget (s : forest) : nat :=
  S (S (Z.to_nat (foldr Z.max 0 (rank s)))).

Definition find_root (x : Z) : M forest Z := fun s =>
  find_root_rec (budget s) x s.

(** [disjoint_set_forest()] *)
Definition disjoint_set_forest_init : forest := DisjointSetForest 0 0 [] [] [].

(** [int elements() const] *)
Definition elements (s : forest) : Z := num_elements s.

(** [int sets() const] *)
Definition sets (s : forest) : Z := num_sets s.

(** [void make_set(const T &x)] *)
Definition make_set (x : T) : M forest unit := fun s =>
  match map_find less (id s) x with
  | Some _ => Ok (tt, s)
  | None =>
      Ok (tt, DisjointSetForest (num_elements s + 1) (num_sets s + 1)
                (map_set less (id s) x (num_elements s))
                (root s ++ [num_elements s]) (rank s ++ [0]))
  end.

(** [bool is_united(const T &x, const T &y)] *)
Definition is_united (x y : T) : M forest bool :=
  i <- id_at x ;;
  r1 <- find_root i ;;
  j <- id_at y ;;
  r2 <- find_root j ;;
  ret (r1 =? r2).

(** [void unite(const T &x, const T &y)] *)
Definition unite (x y : T) : M forest unit :=
  i <- id_at x ;;
  r1 <- find_root i ;;
  j <- id_at y ;;
  r2 <- find_root j ;;
  if r1 =? r2 then ret tt
  else
    (fun s => Ok (tt, DisjointSetForest (num_elements s) (num_sets s - 1)
                        (id s) (root s) (rank s))) ;;
    k1 <- get_rank r1 ;;
    k2 <- get_rank r2 ;;
    if k1 <? k2 then set_root r1 r2
    else
      set_root r2 r1 ;;
      k1' <- get_rank r1 ;;
      k2' <- get_rank r2 ;;
      if k1' =? k2' then set_rank r1 (k1' + 1) else ret tt.

(** [tmp[r].push_back(x)] *)
Definition tmp_push (tmp : list (Z * list T)) (r : Z) (x : T)
  : list (Z * list T) :=
  map_set Z.ltb tmp r
    (match map_find Z.ltb tmp r with Some l => l ++ [x] | None => [x] end).

(** The first loop of [get_all_sets], over the entries of [id] from
    [it] on. *)
Fixpoint collect (it : list (T * Z)) (tmp : list (Z * list T))
  : M forest (list (Z * list T)) :=
  match it with
  | [] => ret tmp
  | (x, i) :: it' =>
      r <- find_root i ;;
      collect it' (tmp_push tmp r x)
  end.

(** [std::vector<std::vector<T> > get_all_sets()] *)
Definition get_all_sets : M forest (list (list T)) := fun s =>
  (tmp <- collect (id s) [] ;; ret (tmp.*2)) s.
End Code.

Section Spec.
Context {T : Type} {lt : Less T}.

(** [operator<] of the element type is a strict total order. *)
Definition less_laws : Prop := strict_total (less : T -> T -> bool).

(** [rep rt i r]: following [root] from index [i] ends at [r], an index
    that is its own [root]. *)
Inductive rep (rt : list Z) : Z -> Z -> Prop :=
| rep_self i : vget rt i = Some i -> rep rt i i
| rep_step i p r : vget rt i = Some p -> p <> i -> rep rt p r -> rep rt i r.

(** [make_set(x)] has been called. *)
Definition made (s : disjoint_set_forest T) (x : T) : Prop :=
  is_Some (map_find less (id s) x).

(** The partition an object stands for: two elements are together when
    their indices lead to the same root. *)
Definition same (s : disjoint_set_forest T) (x y : T) : Prop :=
  exists i j r,
    map_find less (id s) x = Some i /\ map_find less (id s) y = Some j /\
    rep (root s) i r /\ rep (root s) j r.

(** The objects a program that keeps to the documented precondition can
    hold: [make_set] on anything, the other member functions on elements
    that [make_set] has been called on. *)
Inductive built : disjoint_set_forest T -> Prop :=
| built_init : built disjoint_set_forest_init
| built_make_set s x s' : built s -> make_set x s = Ok (tt, s') -> built s'
| built_is_united s x y b s' :
    built s -> made s x -> made s y -> is_united x y s = Ok (b, s') -> built s'
| built_unite s x y s' :
    built s -> made s x -> made s y -> unite x y s = Ok (tt, s') -> built s'
| built_get_all_sets s l s' :
    built s -> get_all_sets s = Ok (l, s') -> built s'.

(** The object with its [root] vector replaced. *)
Definition with_root (s : disjoint_set_forest T) (rt : list Z)
  : disjoint_set_forest T :=
  DisjointSetForest (num_elements s) (num_sets s) (id s) rt (rank s).

(** The loop invariant of [get_all_sets]: [tmp] after the entries
    [done] of [id]. *)
Definition grouped (rt : list Z) (done : list (T * Z))
    (tmp : list (Z * list T)) : Prop :=
  StronglySorted (fun a b => (a <? b) = true) tmp.*1 /\
  (forall r l, map_find Z.ltb tmp r = Some l ->
     l <> [] /\ StronglySorted (fun a b => less a b = true) l /\
     forall x, x ∈ l <-> exists i, (x, i) ∈ done /\ rep rt i r) /\
  (forall x i r, (x, i) ∈ done -> rep rt i r ->
     is_Some (map_find Z.ltb tmp r)) /\
  length (concat tmp.*2) = length done.

(** The indices that are their own [root]: one for each tree. *)
Definition roots (s : disjoint_set_forest T) : list Z :=
  filter (fun i => vget (root s) i = Some i) (seqZ 0 (num_elements s)).

(** What the two counters count: [id] has an entry for every index
    below [num_elements], and [num_sets] is the number of trees. *)
Definition counted (s : disjoint_set_forest T) : Prop :=
  Z.of_nat (length (id s)) = num_elements s /\
  (forall i, 0 <= i < num_elements s ->
     exists x, map_find less (id s) x = Some i) /\
  num_sets s = Z.of_nat (length (roots s)).

(** The class invariant. *)
Definition wf (s : disjoint_set_forest T) : Prop :=
  0 <= num_elements s /\
  Z.of_nat (length (root s)) = num_elements s /\
  Z.of_nat (length (rank s)) = num_elements s /\
  StronglySorted (fun a b => less a b = true) (id s).*1 /\
  (forall x i, map_find less (id s) x = Some i -> 0 <= i < num_elements s) /\
  (forall i p, vget (root s) i = Some p -> 0 <= p < num_elements s) /\
  (forall i k, vget (rank s) i = Some k -> 0 <= k) /\
  (forall i p ki kp, vget (root s) i = Some p -> p <> i ->
     vget (rank s) i = Some ki -> vget (rank s) p = Some kp -> ki < kp).
End Spec.

(** The forest of the example program after its seven [make_set] calls
    and four [unite] calls. *)
Definition example_forest : disjoint_set_forest ascii :=
  Eval vm_compute in
    let _ : Less ascii := char_less in
    match
      (make_set "a" ;; make_set "b" ;; make_set "c" ;;
       make_set "d" ;; make_set "e" ;; make_set "f" ;; make_set "g" ;;
       unite "a" "b" ;; unite "b" "f" ;; unite "d" "e" ;;
       unite "d" "g")%segm%char
        disjoint_set_forest_init
    with
    | Ok (_, s) => s
    | _ => disjoint_set_forest_init
    end.
End dsf.

(** * Specification and proofs *)

(** ** Definitions *)

(** [under i k]: slot [k] belongs to the subtree whose root is slot [i]
    (children of [k] are [2k+1] and [2k+2]). *)
Inductive under (i : Z) : Z -> Prop :=
| under_self : under i i
| under_left k : under i k -> under i (2*k + 1)
| under_right k : under i k -> under i (2*k + 2).

(** One node: its aggregate, its delta slot and its pending flag. *)
Record cell (T : Type) : Type := Cell { cval : T; cdelta : T; cpend : bool }.
Arguments Cell {T} cval cdelta cpend.
Arguments cval {T} c.
Arguments cdelta {T} c.
Arguments cpend {T} c.

Inductive tree (T : Type) : Type :=
| Leaf (c : cell T)
| Node (c : cell T) (l r : tree T).
Arguments Leaf {T} c.
Arguments Node {T} c l r.

Inductive update_call (T : Type) : Type :=
| UpdateRange (lo hi : Z) (d : T)
| UpdatePoint (i : Z) (d : T).
Arguments UpdateRange {T} lo hi d.
Arguments UpdatePoint {T} i d.

Section Development.
Context {T : Type} {ops : Ops T}.
Local Open Scope segm_scope.
Abbreviation st := (segment_tree T).

(** *** Stepping through monadic code *)

Definition same_dims (s s' : st) : Prop :=
  len s' = len s /\ length (value s') = length (value s) /\
  length (delta s') = length (delta s) /\
  length (pending s') = length (pending s).

Definition agree (k : Z) (s s' : st) : Prop :=
  vget (value s') k = vget (value s) k /\
  vget (delta s') k = vget (delta s) k /\
  vget (pending s') k = vget (pending s) k.

Definition modifies {A} (P : Z -> Prop) (m : M st A) : Prop :=
  forall s a s', m s = Ok (a, s') ->
    same_dims s s' /\ forall k, ~ P k -> agree k s s'.

(** *** The tree a state stores *)

Definition root (t : tree T) : cell T :=
  match t with Leaf c => c | Node c _ _ => c end.

Definition with_root (c : cell T) (t : tree T) : tree T :=
  match t with Leaf _ => Leaf c | Node _ l r => Node c l r end.

(** Slot [k] of the three vectors, when [k] is inside all of them. *)
Definition peek (s : st) (k : Z) : option (cell T) :=
  match vget (value s) k, vget (delta s) k, vget (pending s) k with
  | Some v, Some d, Some p => Some (Cell v d p)
  | _, _, _ => None
  end.

(** [rep s t i lo hi]: the node at slot [i], responsible for the span
    [[lo, hi]], and everything below it hold exactly the tree [t]. *)
Fixpoint rep (s : st) (t : tree T) (i lo hi : Z) : Prop :=
  0 <= i /\ 0 <= lo /\ peek s i = Some (root t) /\
  match t with
  | Leaf _ => lo = hi
  | Node _ l r =>
      lo < hi /\
      rep s l (2*i + 1) lo ((lo + hi) ÷ 2) /\
      rep s r (2*i + 2) ((lo + hi) ÷ 2 + 1) hi
  end.

Definition push_cell (d : T) (c : cell T) : cell T :=
  Cell (cval c) (if cpend c then join_deltas (cdelta c) d else d) true.

Definition push (d : T) (t : tree T) : tree T :=
  with_root (push_cell d (root t)) t.

Definition t_update_delta (d : T) (m : Z) (t : tree T) : tree T :=
  match t with
  | Leaf c =>
      Leaf (Cell (if cpend c then join_value_with_delta (cval c) d m
                  else cval c) (cdelta c) false)
  | Node c l r =>
      if cpend c
      then Node (Cell (join_value_with_delta (cval c) d m) (cdelta c) false)
             (push d l) (push d r)
      else Node (Cell (cval c) (cdelta c) false) l r
  end.

(** *** The recursive member functions as relations on trees *)

(** [pending[i] = true] *)
Definition set_pend (t : tree T) : tree T :=
  with_root (Cell (cval (root t)) (cdelta (root t)) true) t.

(** The private [query], one rule per [return]. *)
Inductive tq : tree T -> Z -> Z -> Z -> Z -> T -> tree T -> Prop :=
| tq_hit t lo hi :
    tq t lo hi lo hi
      (cval (root (t_update_delta (cdelta (root t)) (hi - lo + 1) t)))
      (t_update_delta (cdelta (root t)) (hi - lo + 1) t)
| tq_both c l r lo hi tlo thi c1 l1 r1 a b l2 r2 :
    ~ (lo = tlo /\ hi = thi) ->
    t_update_delta (cdelta c) (hi - lo + 1) (Node c l r) = Node c1 l1 r1 ->
    tlo <= (lo + hi) ÷ 2 < thi ->
    tq l1 lo ((lo + hi) ÷ 2) tlo (Z.min thi ((lo + hi) ÷ 2)) a l2 ->
    tq r1 ((lo + hi) ÷ 2 + 1) hi (Z.max tlo ((lo + hi) ÷ 2 + 1)) thi b r2 ->
    tq (Node c l r) lo hi tlo thi (join_values a b) (Node c1 l2 r2)
| tq_left c l r lo hi tlo thi c1 l1 r1 a l2 :
    ~ (lo = tlo /\ hi = thi) ->
    t_update_delta (cdelta c) (hi - lo + 1) (Node c l r) = Node c1 l1 r1 ->
    ~ (tlo <= (lo + hi) ÷ 2 < thi) -> tlo <= (lo + hi) ÷ 2 ->
    tq l1 lo ((lo + hi) ÷ 2) tlo (Z.min thi ((lo + hi) ÷ 2)) a l2 ->
    tq (Node c l r) lo hi tlo thi a (Node c1 l2 r1)
| tq_right c l r lo hi tlo thi c1 l1 r1 b r2 :
    ~ (lo = tlo /\ hi = thi) ->
    t_update_delta (cdelta c) (hi - lo + 1) (Node c l r) = Node c1 l1 r1 ->
    ~ (tlo <= (lo + hi) ÷ 2) ->
    tq r1 ((lo + hi) ÷ 2 + 1) hi (Z.max tlo ((lo + hi) ÷ 2 + 1)) thi b r2 ->
    tq (Node c l r) lo hi tlo thi b (Node c1 l1 r2).

(** The private [update], one rule per [return]. *)
Inductive tu : tree T -> Z -> Z -> Z -> Z -> T -> tree T -> Prop :=
| tu_miss t lo hi tlo thi d :
    hi < tlo \/ lo > thi ->
    tu t lo hi tlo thi d (t_update_delta (cdelta (root t)) (hi - lo + 1) t)
| tu_cover t lo hi tlo thi d :
    ~ (hi < tlo \/ lo > thi) -> tlo <= lo /\ hi <= thi ->
    tu t lo hi tlo thi d
      (t_update_delta d (hi - lo + 1)
         (set_pend (t_update_delta (cdelta (root t)) (hi - lo + 1) t)))
| tu_split c l r lo hi tlo thi d c1 l1 r1 l2 r2 :
    ~ (hi < tlo \/ lo > thi) -> ~ (tlo <= lo /\ hi <= thi) ->
    t_update_delta (cdelta c) (hi - lo + 1) (Node c l r) = Node c1 l1 r1 ->
    tu l1 lo ((lo + hi) ÷ 2) tlo thi d l2 ->
    tu r1 ((lo + hi) ÷ 2 + 1) hi tlo thi d r2 ->
    tu (Node c l r) lo hi tlo thi d
      (Node (Cell (join_values (cval (root l2)) (cval (root r2)))
               (cdelta c1) (cpend c1)) l2 r2).

(** *** The order of the two recursive calls in [query] *)

(** The private [query] with the right operand of [join_values]
    evaluated before the left one, the other order C++ allows. *)
Fixpoint query_rec_rl (fuel : nat) (i lo hi tgt_lo tgt_hi : Z) : M st T :=
  match fuel with
  | O => out_of_fuel
  | S fuel =>
      d <- get_delta i ;;
      update_delta i d lo hi ;;
      if (lo =? tgt_lo) && (hi =? tgt_hi) then get_value i
      else
        let mid := (lo + hi) ÷ 2 in
        if (tgt_lo <=? mid) && (mid <? tgt_hi) then
          b <- query_rec_rl fuel (i*2 + 2) (mid + 1) hi
                 (Z.max tgt_lo (mid + 1)) tgt_hi ;;
          a <- query_rec_rl fuel (i*2 + 1) lo mid tgt_lo (Z.min tgt_hi mid) ;;
          ret (join_values a b)
        else if tgt_lo <=? mid then
          query_rec_rl fuel (i*2 + 1) lo mid tgt_lo (Z.min tgt_hi mid)
        else
          query_rec_rl fuel (i*2 + 2) (mid + 1) hi
            (Z.max tgt_lo (mid + 1)) tgt_hi
  end.

(** [local P m]: what [m] does depends on the slots in [P] only, and it
    treats every slot the same way in two states that agree there. *)
Definition local {A} (P : Z -> Prop) (m : M st A) : Prop :=
  forall s s0, (forall k, P k -> agree k s s0) ->
    match m s, m s0 with
    | Ok (a, s'), Ok (a0, s0') =>
        a = a0 /\ forall k, agree k s s0 -> agree k s' s0'
    | Fault, Fault => True
    | OutOfFuel, OutOfFuel => True
    | _, _ => False
    end.

(** [m] and [m'] return in the same states, with the same result. *)
Definition ok_eq {A} (m m' : M st A) : Prop :=
  forall s x, m s = Ok x <-> m' s = Ok x.

(** *** Construction *)

(** The subtree [build] leaves behind for the span [[lo, hi]] when the
    leaf for position [k] receives [f k]. *)
Fixpoint fresh (f : Z -> T) (t : tree T) (lo hi : Z) : Prop :=
  match t with
  | Leaf c => c = Cell (f lo) T_init false
  | Node c l r =>
      c = Cell (join_values (cval (root l)) (cval (root r))) T_init false /\
      fresh f l lo ((lo + hi) ÷ 2) /\
      fresh f r ((lo + hi) ÷ 2 + 1) hi
  end.

(** The state between the three [resize] calls and the end of [build]:
    [delta] and [pending] still as allocated. *)
Definition blank (n : Z) (s : st) : Prop :=
  len s = n /\ Z.of_nat (length (value s)) = 4*n /\
  delta s = replicate (Z.to_nat (4*n)) T_init /\
  pending s = replicate (Z.to_nat (4*n)) false.

Definition keeps {A} (m : M st A) : Prop :=
  forall s a s', m s = Ok (a, s') ->
    len s' = len s /\ length (value s') = length (value s) /\
    delta s' = delta s /\ pending s' = pending s.

(** The node at slot [i] with a span of [hi - lo + 1] positions, in a tree
    over [n] positions: the slots of its whole subtree stay below [4n]. *)
Definition fits (n i lo hi : Z) : Prop :=
  0 <= i < 4*n /\ 0 <= lo <= hi /\ (hi - lo) * (i + 2) <= 2 * (n - 1).

(** *** What a tree means: the logical array *)

(** The shape [build] gives the node for the span [[lo, hi]]. *)
Fixpoint shaped (t : tree T) (lo hi : Z) : Prop :=
  0 <= lo /\
  match t with
  | Leaf _ => lo = hi
  | Node _ l r =>
      lo < hi /\ shaped l lo ((lo + hi) ÷ 2) /\
      shaped r ((lo + hi) ÷ 2 + 1) hi
  end.

(** A pending delta still has to reach every position below its node. *)
Definition app_cell (c : cell T) (x : T) : T :=
  if cpend c then join_value_with_delta x (cdelta c) 1 else x.

(** The value at position [j]: the leaf's stored value with the pending
    deltas on the way up applied in turn, innermost (oldest) first. *)
Fixpoint val (t : tree T) (lo hi j : Z) : T :=
  match t with
  | Leaf c => app_cell c (cval c)
  | Node c l r =>
      app_cell c
        (if j <=? (lo + hi) ÷ 2 then val l lo ((lo + hi) ÷ 2) j
         else val r ((lo + hi) ÷ 2 + 1) hi j)
  end.

(** Contract 3 of the header comment, for two deltas: applying the join
    of two deltas is applying one after the other. *)
Definition delta_composes_at_1 : Prop :=
  forall v d1 d2,
    join_value_with_delta (join_value_with_delta v d1 1) d2 1
    = join_value_with_delta v (join_deltas d1 d2) 1.

(** *** The public member functions and the logical array *)

(** [update(lo, hi, d)] on the logical array: [d] joined into every
    position from [lo] to [hi]. *)
Definition apply_range (lo hi : Z) (d : T) (A : list T) : list T :=
  imap (fun k x => if decide (lo <= Z.of_nat k <= hi)
                   then join_value_with_delta x d 1 else x) A.

(** [holds A s]: the structure [s] stores the logical array [A]. *)
Definition holds (A : list T) (s : st) : Prop :=
  len s = Z.of_nat (length A) /\ 1 <= len s /\
  Z.of_nat (length (value s)) = 4 * len s /\
  length (delta s) = length (value s) /\
  length (pending s) = length (value s) /\
  exists t, rep s t 0 0 (len s - 1) /\ cpend (root t) = false /\
    forall j, 0 <= j < len s ->
      A !! Z.to_nat j = Some (val t 0 (len s - 1) j).

(** *** Aggregates *)

(** [join_values] over [f lo], [f (lo+1)], ..., [f (lo+n)]. *)
Fixpoint seg (f : Z -> T) (lo : Z) (n : nat) : T :=
  match n with
  | O => f lo
  | S n' => join_values (f lo) (seg f (lo + 1) n')
  end.

(** [join_values] over the positions [lo..hi] of [f], for [lo <= hi]. *)
Definition range_join (f : Z -> T) (lo hi : Z) : T :=
  seg f lo (Z.to_nat (hi - lo)).

(** The aggregate of a logical array over [lo..hi]. *)
Definition array_join (A : list T) (lo hi : Z) : T :=
  range_join (fun j => match A !! Z.to_nat j with Some x => x | None => T_init end)
    lo hi.

(** The contracts of the header comment, in the strength the algorithm
    uses them. *)
Definition join_assoc : Prop :=
  forall a b c : T,
    join_values a (join_values b c) = join_values (join_values a b) c.

Definition delta_distributes : Prop :=
  forall (a b d : T) (m1 m2 : Z), 1 <= m1 -> 1 <= m2 ->
    join_value_with_delta (join_values a b) d (m1 + m2)
    = join_values (join_value_with_delta a d m1) (join_value_with_delta b d m2).

Definition delta_composes : Prop :=
  forall (v d1 d2 : T) (m : Z), 1 <= m ->
    join_value_with_delta (join_value_with_delta v d1 m) d2 m
    = join_value_with_delta v (join_deltas d1 d2) m.

(** What a node stands for: its stored aggregate with its own pending
    delta applied. *)
Definition eff (t : tree T) (lo hi : Z) : T :=
  if cpend (root t)
  then join_value_with_delta (cval (root t)) (cdelta (root t)) (hi - lo + 1)
  else cval (root t).

(** Every inner node stores the join of what its children stand for. *)
Fixpoint good (t : tree T) (lo hi : Z) : Prop :=
  match t with
  | Leaf _ => True
  | Node c l r =>
      cval c = join_values (eff l lo ((lo + hi) ÷ 2))
                 (eff r ((lo + hi) ÷ 2 + 1) hi) /\
      good l lo ((lo + hi) ÷ 2) /\ good r ((lo + hi) ÷ 2 + 1) hi
  end.

(** Every pending delta of the tree pushed down to the leaves. *)
Inductive tp : tree T -> Z -> Z -> tree T -> Prop :=
| tp_leaf c lo hi :
    tp (Leaf c) lo hi (t_update_delta (cdelta c) (hi - lo + 1) (Leaf c))
| tp_node c l r lo hi c1 l1 r1 l2 r2 :
    t_update_delta (cdelta c) (hi - lo + 1) (Node c l r) = Node c1 l1 r1 ->
    tp l1 lo ((lo + hi) ÷ 2) l2 -> tp r1 ((lo + hi) ÷ 2 + 1) hi r2 ->
    tp (Node c l r) lo hi (Node c1 l2 r2).

(** No pending flag anywhere, and every inner node the join of its two
    children's stored values. *)
Fixpoint settled (t : tree T) : Prop :=
  cpend (root t) = false /\
  match t with
  | Leaf _ => True
  | Node c l r =>
      cval c = join_values (cval (root l)) (cval (root r)) /\
      settled l /\ settled r
  end.

(** *** Freshly built trees, and states in general *)

(** No pending flag anywhere. *)
Fixpoint calm (t : tree T) : Prop :=
  cpend (root t) = false /\
  match t with
  | Leaf _ => True
  | Node _ l r => calm l /\ calm r
  end.

(** Well-formed states: [4*len] slots per vector, holding a tree over
    [[0, len-1]] whose root is not pending. *)
Definition wf (s : st) : Prop :=
  1 <= len s /\ Z.of_nat (length (value s)) = 4 * len s /\
  length (delta s) = length (value s) /\
  length (pending s) = length (value s) /\
  exists t, rep s t 0 0 (len s - 1) /\ cpend (root t) = false.

(** Every inner node of a well-formed state stores the join of what its
    children stand for. *)
Definition aggregated (s : st) : Prop :=
  forall t, rep s t 0 0 (len s - 1) -> good t 0 (len s - 1).

(** The element [*(arr + k)] of a constructor's input range. *)
Definition elem (arr : list T) (k : Z) : T :=
  match vget arr k with Some x => x | None => T_init end.

(** *** The recursion budget is never the reason a call ends *)

Definition never_exhausts {A} (m : M st A) : Prop :=
  forall s, m s <> OutOfFuel.

(** *** Reachable states *)

(** [reach A s]: [s] comes from a constructor followed by calls with
    in-range arguments, and [A] is the array the documentation says it
    then holds: the constructor's input with every update joined into
    the positions of its range, in call order. *)
Inductive reach : list T -> st -> Prop :=
| reach_fill n v s :
    segment_tree_fill n v = Ok s -> reach (replicate (Z.to_nat n) v) s
| reach_range arr s :
    segment_tree_range arr = Ok s -> reach arr s
| reach_update A s lo hi d s' :
    reach A s -> 0 <= lo <= hi /\ hi < size s ->
    update lo hi d s = Ok (tt, s') -> reach (apply_range lo hi d A) s'
| reach_update_at A s i d s' :
    reach A s -> 0 <= i < size s ->
    update_at i d s = Ok (tt, s') -> reach (apply_range i i d A) s'
| reach_query A s lo hi r s' :
    reach A s -> 0 <= lo <= hi /\ hi < size s ->
    query lo hi s = Ok (r, s') -> reach A s'
| reach_at A s i x s' :
    reach A s -> 0 <= i < size s ->
    at_ i s = Ok (x, s') -> reach A s'.

(** *** Pushing every pending delta down *)

(** Not a member function: the "push every pending delta down to the
    leaves" that the statement of the lazy invariant talks about, written
    with the class's own [update_delta], parents before children. *)
Fixpoint push_all (fuel : nat) (i lo hi : Z) : M st unit :=
  match fuel with
  | O => out_of_fuel
  | S fuel =>
      d <- get_delta i ;;
      update_delta i d lo hi ;;
      if lo =? hi then ret tt
      else
        push_all fuel (2*i + 1) lo ((lo + hi) ÷ 2) ;;
        push_all fuel (2*i + 2) ((lo + hi) ÷ 2 + 1) hi
  end.

(** The same for the whole structure, from the root. *)
Definition flush : M st unit := fun s =>
  push_all (budget s) 0 0 (len s - 1) s.

(** The nodes of the tree over [n] positions: slot and span. *)
Inductive node_of (n : Z) : Z -> Z -> Z -> Prop :=
| node_root : node_of n 0 0 (n - 1)
| node_left i lo hi :
    node_of n i lo hi -> lo < hi -> node_of n (2*i + 1) lo ((lo + hi) ÷ 2)
| node_right i lo hi :
    node_of n i lo hi -> lo < hi ->
    node_of n (2*i + 2) ((lo + hi) ÷ 2 + 1) hi.

(** *** Sequences of update calls *)

(** The call's arguments are valid for a structure of [n] elements. *)
Definition in_range (n : Z) (c : update_call T) : Prop :=
  match c with
  | UpdateRange lo hi _ => 0 <= lo <= hi /\ hi < n
  | UpdatePoint i _ => 0 <= i < n
  end.

Definition run_call (c : update_call T) : M st unit :=
  match c with
  | UpdateRange lo hi d => update lo hi d
  | UpdatePoint i d => update_at i d
  end.

Fixpoint run_calls (cs : list (update_call T)) : M st unit :=
  match cs with
  | [] => ret tt
  | c :: cs' => run_call c ;; run_calls cs'
  end.

(** What one call does to the value at index [i]. *)
Definition apply_call (i : Z) (v : T) (c : update_call T) : T :=
  match c with
  | UpdateRange lo hi d =>
      if decide (lo <= i <= hi) then join_value_with_delta v d 1 else v
  | UpdatePoint k d =>
      if decide (k <= i <= k) then join_value_with_delta v d 1 else v
  end.

(** The logical value at [i]: the initial value with every call whose
    range contains [i] applied, in call order. *)
Definition logical_value (cs : list (update_call T)) (i : Z) (v0 : T) : T :=
  fold_left (apply_call i) cs v0.

(** [s] is what one of the two constructors returns for the initial
    array [A]. *)
Definition constructed (A : list T) (s : st) : Prop :=
  segment_tree_range A = Ok s \/
  exists n v, A = replicate (Z.to_nat n) v /\ segment_tree_fill n v = Ok s.

(** [for (i = lo; k-- > 0; i++) update(i, d)] *)
Fixpoint point_updates (i : Z) (k : nat) (d : T) : M st unit :=
  match k with
  | O => ret tt
  | S k' => update_at i d ;; point_updates (i + 1) k' d
  end.

(** *** The contracts as the header comment words them *)

(** [join_values(v, ...(m+1 times)..., v)] *)
Fixpoint join_copies (v : T) (m : nat) : T :=
  match m with
  | O => v
  | S m' => join_values v (join_copies v m')
  end.

(** "join_deltas(d1, join_deltas(d2, d3)) = join_deltas(join_deltas(d1,
    d2), d3)" *)
Definition documented_contract_1 : Prop :=
  forall d1 d2 d3 : T,
    join_deltas d1 (join_deltas d2 d3) = join_deltas (join_deltas d1 d2) d3.

(** "join_value_with_delta(join_values(v, ...(m times)..., v), d, m)
    should be equal to join_values(join_value_with_delta(v, d, 1),
    ...(m times))" *)
Definition documented_contract_2 : Prop :=
  forall (v d : T) (m : nat),
    join_value_with_delta (join_copies v m) d (Z.of_nat m + 1)
    = join_copies (join_value_with_delta v d 1) m.

(** "join_value_with_delta(v, join_deltas(d_1, ..., d_m), 1) should be
    equivalent to m sequential calls to join_value_with_delta(v, d_i,
    1)" *)
Definition documented_contract_3 : Prop :=
  forall (v d : T) (ds : list T),
    join_value_with_delta v (fold_left join_deltas ds d) 1
    = fold_left (fun x e => join_value_with_delta x e 1) ds
        (join_value_with_delta v d 1).

(** ** Vectors *)

Lemma vget_bound {A} (l :
  list A) i x : vget l i = Some x -> 0 <= i < Z.of_nat (length l).
Proof.
  unfold vget. case_decide; [|done]. intros H1.
  apply lookup_lt_Some in H1. lia.
Qed.

Lemma vget_in_range {A} (l :
  list A) i : 0 <= i < Z.of_nat (length l) -> is_Some (vget l i).
Proof.
  intros Hi. unfold vget. rewrite decide_True by lia.
  apply lookup_lt_is_Some. lia.
Qed.

Lemma vset_in_range {A} (l : list A) i x :
  0 <= i < Z.of_nat (length l) -> vset l i x = Some (<[Z.to_nat i := x]> l).
Proof. intros Hi. unfold vset. by rewrite decide_True. Qed.

Lemma vset_length {A} (l :
  list A) i x l' : vset l i x = Some l' -> length l' = length l.
Proof.
  unfold vset. case_decide; [|done]. intros [= <-]. apply length_insert.
Qed.

Lemma vget_vset_eq {A} (l :
  list A) i x l' : vset l i x = Some l' -> vget l' i = Some x.
Proof.
  unfold vset, vget. case_decide as Hi; [|done]. intros [= <-].
  rewrite decide_True by lia. apply list_lookup_insert_eq. lia.
Qed.

Lemma vget_vset_ne {A} (l : list A) i x l' k :
  vset l i x = Some l' -> k <> i -> vget l' k = vget l k.
Proof.
  unfold vset, vget. case_decide as Hi; [|done]. intros [= <-] Hk.
  case_decide; [|done]. apply list_lookup_insert_ne. lia.
Qed.

Lemma vset_same {A} (l :
  list A) i x : vget l i = Some x -> vset l i x = Some l.
Proof.
  intros H. pose proof (vget_bound _ _ _ H) as Hb.
  rewrite vset_in_range by done. f_equal.
  apply list_insert_id. unfold vget in H. by rewrite decide_True in H by lia.
Qed.

Lemma vget_insert_eq {A} (l : list A) i x :
  0 <= i < Z.of_nat (length l) -> vget (<[Z.to_nat i := x]> l) i = Some x.
Proof.
  intros Hi. eapply vget_vset_eq. by apply vset_in_range.
Qed.

Lemma vget_insert_ne {A} (l : list A) i x k :
  0 <= i -> k <> i -> vget (<[Z.to_nat i := x]> l) k = vget l k.
Proof.
  intros Hi Hk. unfold vget. case_decide; [|done].
  apply list_lookup_insert_ne. lia.
Qed.

Lemma vget_replicate {A} n (x : A) i :
  0 <= i < Z.of_nat n -> vget (replicate n x) i = Some x.
Proof.
  intros Hi. unfold vget. rewrite decide_True by lia.
  apply lookup_replicate_2. lia.
Qed.

(** ** Stepping through monadic code *)

Lemma bind_ok {A B} (m : M st A) (f : A -> M st B) s a s1 :
  m s = Ok (a, s1) -> bind m f s = f a s1.
Proof. intros H. unfold bind. by rewrite H. Qed.

Lemma bind_ext {A B} (m m' : M st A) (f f' : A -> M st B) s :
  m s = m' s -> (forall a s1, f a s1 = f' a s1) -> bind m f s = bind m' f' s.
Proof.
  intros Hm Hf. unfold bind. rewrite Hm.
  by destruct (m' s) as [[a s1]| |].
Qed.

Lemma bind_inv {A B} (m : M st A) (f : A -> M st B) s b s' :
  bind m f s = Ok (b, s') ->
  exists a s1, m s = Ok (a, s1) /\ f a s1 = Ok (b, s').
Proof.
  unfold bind. destruct (m s) as [[a s1]| |]; [|done..]. eauto.
Qed.

Lemma bind_exhausts {A B} (m : M st A) (f : A -> M st B) s :
  bind m f s = OutOfFuel ->
  m s = OutOfFuel \/ exists a s1, m s = Ok (a, s1) /\ f a s1 = OutOfFuel.
Proof.
  unfold bind. destruct (m s) as [[a s1]| |]; [|done|]; eauto.
Qed.

(** *** What a computation may change *)

Lemma same_dims_refl s : same_dims s s.
Proof. by repeat split. Qed.

Lemma same_dims_trans s1 s2 s3 :
  same_dims s1 s2 -> same_dims s2 s3 -> same_dims s1 s3.
Proof. unfold same_dims. intuition congruence. Qed.

Lemma agree_refl k s : agree k s s.
Proof. by repeat split. Qed.

Lemma agree_trans k s1 s2 s3 : agree k s1 s2 -> agree k s2 s3 -> agree k s1 s3.
Proof. unfold agree. intuition congruence. Qed.

Lemma modifies_weaken {A} (P Q : Z -> Prop) (m : M st A) :
  modifies P m -> (forall k, P k -> Q k) -> modifies Q m.
Proof.
  intros Hm HPQ s a s' H. destruct (Hm _ _ _ H) as [Hd Ha].
  split; [done|]. intros k Hk. apply Ha. auto.
Qed.

Lemma modifies_ret {A} P (a : A) : modifies P (ret a).
Proof.
  intros s a' s' [= <- <-]. split; [apply same_dims_refl|].
  intros. apply agree_refl.
Qed.

Lemma modifies_bind {A B} P (m : M st A) (f : A -> M st B) :
  modifies P m -> (forall a, modifies P (f a)) -> modifies P (bind m f).
Proof.
  intros Hm Hf s b s' H.
  apply bind_inv in H as (a & s1 & H1 & H2).
  destruct (Hm _ _ _ H1) as [Hd1 Ha1], (Hf _ _ _ _ H2) as [Hd2 Ha2].
  split; [by eapply same_dims_trans|].
  intros k Hk. eapply agree_trans; eauto.
Qed.

Lemma modifies_out_of_fuel {A} P : modifies P (@out_of_fuel st A).
Proof. intros s a s' H. discriminate H. Qed.

Lemma modifies_get_value P i : modifies P (get_value i).
Proof.
  intros s a s'. unfold get_value. destruct (vget _ _); [|done].
  intros [= <- <-]. split; [apply same_dims_refl|]. intros. apply agree_refl.
Qed.

Lemma modifies_get_delta P i : modifies P (get_delta i).
Proof.
  intros s a s'. unfold get_delta. destruct (vget _ _); [|done].
  intros [= <- <-]. split; [apply same_dims_refl|]. intros. apply agree_refl.
Qed.

Lemma modifies_get_pending P i : modifies P (get_pending i).
Proof.
  intros s a s'. unfold get_pending. destruct (vget _ _); [|done].
  intros [= <- <-]. split; [apply same_dims_refl|]. intros. apply agree_refl.
Qed.

Lemma modifies_deref P arr k : modifies P (deref arr k).
Proof.
  intros s a s'. unfold deref. destruct (vget _ _); [|done].
  intros [= <- <-]. split; [apply same_dims_refl|]. intros. apply agree_refl.
Qed.

Lemma modifies_set_value (P : Z -> Prop) i v : P i -> modifies P (set_value i v).
Proof.
  intros HP s a s'. unfold set_value.
  destruct (vset _ _ _) as [l|] eqn:E; [|done]. intros [= <- <-].
  split.
  - repeat split; simpl. by eapply vset_length.
  - intros k Hk. repeat split; simpl.
    eapply vget_vset_ne; [done|]. by intros ->.
Qed.

Lemma modifies_set_delta (P : Z -> Prop) i v : P i -> modifies P (set_delta i v).
Proof.
  intros HP s a s'. unfold set_delta.
  destruct (vset _ _ _) as [l|] eqn:E; [|done]. intros [= <- <-].
  split.
  - repeat split; simpl. by eapply vset_length.
  - intros k Hk. repeat split; simpl.
    eapply vget_vset_ne; [done|]. by intros ->.
Qed.

Lemma modifies_set_pending (P : Z -> Prop) i v :
  P i -> modifies P (set_pending i v).
Proof.
  intros HP s a s'. unfold set_pending.
  destruct (vset _ _ _) as [l|] eqn:E; [|done]. intros [= <- <-].
  split.
  - repeat split; simpl. by eapply vset_length.
  - intros k Hk. repeat split; simpl.
    eapply vget_vset_ne; [done|]. by intros ->.
Qed.

Ltac modifies_step :=
  lazymatch goal with
  | |- modifies _ (bind _ _) => apply modifies_bind; [|intros ?]
  | |- modifies _ (ret _) => apply modifies_ret
  | |- modifies _ out_of_fuel => apply modifies_out_of_fuel
  | |- modifies _ (get_value _) => apply modifies_get_value
  | |- modifies _ (get_delta _) => apply modifies_get_delta
  | |- modifies _ (get_pending _) => apply modifies_get_pending
  | |- modifies _ (deref _ _) => apply modifies_deref
  | |- modifies _ (set_value _ _) => apply modifies_set_value
  | |- modifies _ (set_delta _ _) => apply modifies_set_delta
  | |- modifies _ (set_pending _ _) => apply modifies_set_pending
  | |- modifies _ (if ?b then _ else _) => destruct b
  | |- modifies _ (let x := _ in _) => cbv zeta
  end.

(** ** The implicit tree inside the vectors *)

Lemma under_child i j k :
  j = 2*i + 1 \/ j = 2*i + 2 -> under j k -> under i k.
Proof.
  intros Hj H. induction H as [|k H IH|k H IH].
  - destruct Hj as [-> | ->]; constructor; constructor.
  - by constructor.
  - by constructor.
Qed.

Lemma under_ge i k : 0 <= i -> under i k -> i <= k.
Proof. intros Hi H. induction H; lia. Qed.

Lemma under_chain a b k : under a k -> under b k -> under a b \/ under b a.
Proof.
  intros Ha. revert b. induction Ha as [|k Ha IH|k Ha IH]; intros b Hb.
  - by right.
  - remember (2*k + 1) as m eqn:Em. destruct Hb as [|k' Hb|k' Hb].
    + left. subst. by constructor.
    + assert (k' = k) as -> by lia. auto.
    + lia.
  - remember (2*k + 2) as m eqn:Em. destruct Hb as [|k' Hb|k' Hb].
    + left. subst. by constructor.
    + lia.
    + assert (k' = k) as -> by lia. auto.
Qed.

Lemma under_children_disjoint i k :
  0 <= i -> under (2*i + 1) k -> under (2*i + 2) k -> False.
Proof.
  intros Hi Hl Hr. destruct (under_chain _ _ _ Hl Hr) as [H|H].
  - remember (2*i + 2) as m eqn:Em. destruct H as [|k' H|k' H].
    + lia.
    + lia.
    + assert (k' = i) as -> by lia. apply under_ge in H; lia.
  - apply under_ge in H; lia.
Qed.

Lemma mid_bounds lo hi : 0 <= lo -> lo < hi -> lo <= (lo + hi) ÷ 2 < hi.
Proof.
  intros H0 Hlt. rewrite Z.quot_div_nonneg by lia.
  pose proof (Z.div_mod (lo + hi) 2 ltac:(lia)).
  pose proof (Z.mod_pos_bound (lo + hi) 2 ltac:(lia)). lia.
Qed.

(** ** The tree a state stores *)

Lemma peek_Some s k c :
  peek s k = Some c ->
  vget (value s) k = Some (cval c) /\ vget (delta s) k = Some (cdelta c) /\
  vget (pending s) k = Some (cpend c).
Proof.
  unfold peek.
  destruct (vget (value s) k), (vget (delta s) k), (vget (pending s) k);
    try done.
  by intros [= <-].
Qed.

Lemma peek_intro s k v d p :
  vget (value s) k = Some v -> vget (delta s) k = Some d ->
  vget (pending s) k = Some p -> peek s k = Some (Cell v d p).
Proof. unfold peek. by intros -> -> ->. Qed.

Lemma peek_agree k s s' : agree k s s' -> peek s' k = peek s k.
Proof. unfold peek. by intros (-> & -> & ->). Qed.

Lemma rep_root s t i lo hi : rep s t i lo hi -> peek s i = Some (root t).
Proof. destruct t; simpl; tauto. Qed.

Lemma rep_nonneg s t i lo hi : rep s t i lo hi -> 0 <= i /\ 0 <= lo <= hi.
Proof. destruct t; simpl; lia. Qed.

Lemma rep_agree s s' t i lo hi :
  rep s t i lo hi -> (forall k, under i k -> peek s' k = peek s k) ->
  rep s' t i lo hi.
Proof.
  revert i lo hi. induction t as [c|c l IHl r IHr]; intros i lo hi; simpl.
  - intros (Hi & Hlo & Hp & Heq) Hag. repeat split; try done.
    rewrite Hag; [done|]. constructor.
  - intros (Hi & Hlo & Hp & Hlt & Hl & Hr) Hag. repeat split; try done.
    + rewrite Hag; [done|]. constructor.
    + apply IHl; [done|]. intros k Hk. apply Hag.
      eapply under_child; [|done]. by left.
    + apply IHr; [done|]. intros k Hk. apply Hag.
      eapply under_child; [|done]. by right.
Qed.

(** Same tree below, another cell at the top. *)
Lemma rep_with_root s s' t c i lo hi :
  rep s t i lo hi -> peek s' i = Some c ->
  (forall k, under (2*i + 1) k \/ under (2*i + 2) k -> peek s' k = peek s k) ->
  rep s' (with_root c t) i lo hi.
Proof.
  destruct t as [c0|c0 l r]; simpl.
  - tauto.
  - intros (Hi & Hlo & Hp & Hlt & Hl & Hr) Hc Hag. repeat split; try done.
    + eapply rep_agree; [done|]. auto.
    + eapply rep_agree; [done|]. auto.
Qed.

(** A computation that stays inside one child leaves the other child's
    subtree, and the parent's own slot, as they were. *)
Lemma rep_sibling {A} (m : M st A) s a s' t i j j' lo hi :
  0 <= i -> (j = 2*i + 1 /\ j' = 2*i + 2 \/ j = 2*i + 2 /\ j' = 2*i + 1) ->
  modifies (under j) m -> m s = Ok (a, s') ->
  rep s t j' lo hi -> rep s' t j' lo hi /\ peek s' i = peek s i.
Proof.
  intros Hi Hj Hm E Hrep. destruct (Hm _ _ _ E) as [_ Hag]. split.
  - eapply rep_agree; [done|]. intros k Hk. apply peek_agree, Hag.
    intros Hk'. destruct Hj as [[-> ->]|[-> ->]];
      eapply (under_children_disjoint i k); eauto.
  - apply peek_agree, Hag. intros Hk%under_ge; lia.
Qed.

(** *** [update_delta] on trees *)

Lemma update_delta_modifies i d lo hi :
  modifies (fun k => k = i \/ k = 2*i + 1 \/ k = 2*i + 2)
    (update_delta i d lo hi).
Proof.
  unfold update_delta. repeat (modifies_step; try tauto).
Qed.

Lemma get_value_ok s i c : peek s i = Some c -> get_value i s = Ok (cval c, s).
Proof. intros (H & _ & _)%peek_Some. unfold get_value. by rewrite H. Qed.

Lemma get_delta_ok s i c : peek s i = Some c -> get_delta i s = Ok (cdelta c, s).
Proof. intros (_ & H & _)%peek_Some. unfold get_delta. by rewrite H. Qed.

Lemma get_pending_ok s i c :
  peek s i = Some c -> get_pending i s = Ok (cpend c, s).
Proof. intros (_ & _ & H)%peek_Some. unfold get_pending. by rewrite H. Qed.

Lemma set_value_ok s i c v :
  peek s i = Some c ->
  exists s', set_value i v s = Ok (tt, s') /\
    peek s' i = Some (Cell v (cdelta c) (cpend c)) /\
    forall k, k <> i -> peek s' k = peek s k.
Proof.
  intros (Hv & Hd & Hp)%peek_Some. pose proof (vget_bound _ _ _ Hv) as Hb.
  unfold set_value. rewrite vset_in_range by done. eexists. split; [done|].
  split.
  - apply peek_intro; simpl; [|done..]. by apply vget_insert_eq.
  - intros k Hk. unfold peek; simpl. by rewrite vget_insert_ne by lia.
Qed.

Lemma set_delta_ok s i c d :
  peek s i = Some c ->
  exists s', set_delta i d s = Ok (tt, s') /\
    peek s' i = Some (Cell (cval c) d (cpend c)) /\
    forall k, k <> i -> peek s' k = peek s k.
Proof.
  intros (Hv & Hd & Hp)%peek_Some. pose proof (vget_bound _ _ _ Hd) as Hb.
  unfold set_delta. rewrite vset_in_range by done. eexists. split; [done|].
  split.
  - apply peek_intro; simpl; [done| |done]. by apply vget_insert_eq.
  - intros k Hk. unfold peek; simpl. by rewrite vget_insert_ne by lia.
Qed.

Lemma set_pending_ok s i c p :
  peek s i = Some c ->
  exists s', set_pending i p s = Ok (tt, s') /\
    peek s' i = Some (Cell (cval c) (cdelta c) p) /\
    forall k, k <> i -> peek s' k = peek s k.
Proof.
  intros (Hv & Hd & Hp)%peek_Some. pose proof (vget_bound _ _ _ Hp) as Hb.
  unfold set_pending. rewrite vset_in_range by done. eexists. split; [done|].
  split.
  - apply peek_intro; simpl; [done..|]. by apply vget_insert_eq.
  - intros k Hk. unfold peek; simpl. by rewrite vget_insert_ne by lia.
Qed.
Lemma update_delta_leaf s i c d lo hi :
  lo = hi -> peek s i = Some c ->
  exists s', update_delta i d lo hi s = Ok (tt, s') /\
    peek s' i = Some (root (t_update_delta d (hi - lo + 1) (Leaf c))).
Proof.
  intros Heq Hc. unfold update_delta.
  rewrite (bind_ok _ _ _ _ _ (get_pending_ok _ _ _ Hc)). simpl.
  assert (exists s1, (if cpend c
            then v <- get_value i ;;
                 set_value i (join_value_with_delta v d (hi - lo + 1)) ;;
                 (if negb (lo =? hi) then
                    let l := 2*i + 1 in
                    let r := 2*i + 2 in
                    pl <- get_pending l ;;
                    dl <- (if pl then (x <- get_delta l ;; ret (join_deltas x d))
                           else ret d) ;;
                    set_delta l dl ;;
                    pr <- get_pending r ;;
                    dr <- (if pr then (x <- get_delta r ;; ret (join_deltas x d))
                           else ret d) ;;
                    set_delta r dr ;;
                    set_pending r true ;;
                    set_pending l true
                  else ret tt)
            else ret tt) s = Ok (tt, s1) /\
          peek s1 i = Some (Cell (if cpend c
                                  then join_value_with_delta (cval c) d (hi - lo + 1)
                                  else cval c) (cdelta c) (cpend c)))
    as (s1 & E1 & P1).
  { destruct (cpend c) eqn:Ep.
    - rewrite (bind_ok _ _ _ _ _ (get_value_ok _ _ _ Hc)).
      destruct (set_value_ok s i c
                  (join_value_with_delta (cval c) d (hi - lo + 1)) Hc)
        as (s1 & E1 & P1 & _).
      rewrite (bind_ok _ _ _ _ _ E1).
      rewrite (proj2 (Z.eqb_eq lo hi) Heq). simpl.
      exists s1. split; [done|]. by rewrite P1, Ep.
    - exists s. split; [done|]. rewrite Hc. destruct c; simpl in *. by subst. }
  rewrite (bind_ok _ _ _ _ _ E1).
  destruct (set_pending_ok s1 i _ false P1) as (s2 & E2 & P2 & _).
  exists s2. split; [done|]. by rewrite P2.
Qed.

Lemma update_delta_node s i c cl cr d lo hi :
  0 <= i -> lo <> hi ->
  peek s i = Some c -> peek s (2*i + 1) = Some cl ->
  peek s (2*i + 2) = Some cr ->
  exists s', update_delta i d lo hi s = Ok (tt, s') /\
    peek s' i = Some (Cell (if cpend c
                            then join_value_with_delta (cval c) d (hi - lo + 1)
                            else cval c) (cdelta c) false) /\
    peek s' (2*i + 1) = Some (if cpend c then push_cell d cl else cl) /\
    peek s' (2*i + 2) = Some (if cpend c then push_cell d cr else cr).
Proof.
  intros Hi Hne Hc Hl Hr. unfold update_delta.
  rewrite (bind_ok _ _ _ _ _ (get_pending_ok _ _ _ Hc)). simpl.
  assert (exists s1, (if cpend c
            then v <- get_value i ;;
                 set_value i (join_value_with_delta v d (hi - lo + 1)) ;;
                 (if negb (lo =? hi) then
                    let l := 2*i + 1 in
                    let r := 2*i + 2 in
                    pl <- get_pending l ;;
                    dl <- (if pl then (x <- get_delta l ;; ret (join_deltas x d))
                           else ret d) ;;
                    set_delta l dl ;;
                    pr <- get_pending r ;;
                    dr <- (if pr then (x <- get_delta r ;; ret (join_deltas x d))
                           else ret d) ;;
                    set_delta r dr ;;
                    set_pending r true ;;
                    set_pending l true
                  else ret tt)
            else ret tt) s = Ok (tt, s1) /\
          peek s1 i = Some (Cell (if cpend c
                                  then join_value_with_delta (cval c) d (hi - lo + 1)
                                  else cval c) (cdelta c) (cpend c)) /\
          peek s1 (2*i + 1) = Some (if cpend c then push_cell d cl else cl) /\
          peek s1 (2*i + 2) = Some (if cpend c then push_cell d cr else cr))
    as (s1 & E1 & P1 & Pl & Pr).
  { destruct (cpend c) eqn:Ep.
    - rewrite (bind_ok _ _ _ _ _ (get_value_ok _ _ _ Hc)).
      destruct (set_value_ok s i c
                  (join_value_with_delta (cval c) d (hi - lo + 1)) Hc)
        as (s1 & E1 & P1 & F1).
      rewrite (bind_ok _ _ _ _ _ E1).
      rewrite (proj2 (Z.eqb_neq lo hi) Hne). cbv zeta.
      change (negb false) with true. cbv iota.
      assert (peek s1 (2*i + 1) = Some cl) as Hl1 by (rewrite F1 by lia; done).
      rewrite (bind_ok _ _ _ _ _ (get_pending_ok _ _ _ Hl1)).
      assert ((if cpend cl then (x <- get_delta (2*i + 1) ;; ret (join_deltas x d))
               else ret d) s1
              = Ok (if cpend cl then join_deltas (cdelta cl) d else d, s1)) as Edl.
      { destruct (cpend cl); [|done].
        by rewrite (bind_ok _ _ _ _ _ (get_delta_ok _ _ _ Hl1)). }
      rewrite (bind_ok _ _ _ _ _ Edl).
      destruct (set_delta_ok s1 (2*i + 1) cl
                  (if cpend cl then join_deltas (cdelta cl) d else d) Hl1)
        as (s2 & E2 & P2 & F2).
      rewrite (bind_ok _ _ _ _ _ E2).
      assert (peek s2 (2*i + 2) = Some cr) as Hr2
        by (rewrite F2, F1 by lia; done).
      rewrite (bind_ok _ _ _ _ _ (get_pending_ok _ _ _ Hr2)).
      assert ((if cpend cr then (x <- get_delta (2*i + 2) ;; ret (join_deltas x d))
               else ret d) s2
              = Ok (if cpend cr then join_deltas (cdelta cr) d else d, s2)) as Edr.
      { destruct (cpend cr); [|done].
        by rewrite (bind_ok _ _ _ _ _ (get_delta_ok _ _ _ Hr2)). }
      rewrite (bind_ok _ _ _ _ _ Edr).
      destruct (set_delta_ok s2 (2*i + 2) cr
                  (if cpend cr then join_deltas (cdelta cr) d else d) Hr2)
        as (s3 & E3 & P3 & F3).
      rewrite (bind_ok _ _ _ _ _ E3).
      destruct (set_pending_ok s3 (2*i + 2) _ true P3) as (s4 & E4 & P4 & F4).
      rewrite (bind_ok _ _ _ _ _ E4).
      assert (peek s4 (2*i + 1)
              = Some (Cell (cval cl)
                        (if cpend cl then join_deltas (cdelta cl) d else d)
                        (cpend cl))) as Hl4
        by (rewrite F4, F3 by lia; done).
      destruct (set_pending_ok s4 (2*i + 1) _ true Hl4) as (s5 & E5 & P5 & F5).
      exists s5. split; [done|]. split; [|split].
      + rewrite F5, F4, F3, F2 by lia. by rewrite P1, Ep.
      + done.
      + rewrite F5 by lia. done.
    - exists s. split; [done|]. rewrite Hc. destruct c; simpl in *. by subst. }
  rewrite (bind_ok _ _ _ _ _ E1).
  destruct (set_pending_ok s1 i _ false P1) as (s2 & E2 & P2 & F2).
  exists s2. split; [done|]. split; [done|].
  rewrite !F2 by lia. done.
Qed.

(** [update_delta] on the vectors is [t_update_delta] on the tree. *)
Lemma update_delta_rep s t i lo hi d :
  rep s t i lo hi ->
  exists s', update_delta i d lo hi s = Ok (tt, s') /\
    rep s' (t_update_delta d (hi - lo + 1) t) i lo hi.
Proof.
  intros Hrep.
  pose proof (update_delta_modifies i d lo hi) as Hmod.
  destruct t as [c|c l r]; simpl in Hrep.
  - destruct Hrep as (Hi & Hlo & Hc & Heq).
    destruct (update_delta_leaf s i c d lo hi Heq Hc) as (s' & E & P).
    exists s'. split; [done|]. simpl. done.
  - destruct Hrep as (Hi & Hlo & Hc & Hlt & Hl & Hr).
    destruct (update_delta_node s i c (root l) (root r) d lo hi)
      as (s' & E & P & Pl & Pr);
      [lia|lia|done|by eapply rep_root|by eapply rep_root|].
    exists s'. split; [done|].
    destruct (Hmod _ _ _ E) as [_ Hag].
    assert (forall j k, j = 2*i + 1 \/ j = 2*i + 2 ->
              under (2*j + 1) k \/ under (2*j + 2) k ->
              peek s' k = peek s k) as Hfar.
    { intros j k Hj Hk. apply peek_agree, Hag.
      assert (2*j + 1 <= k) by (destruct Hk as [Hk|Hk]; apply under_ge in Hk; lia).
      lia. }
    simpl. destruct (cpend c) eqn:Ep; simpl.
    + repeat split; try done.
      * eapply rep_with_root; [done..|].
        intros k Hk. eapply Hfar; [|exact Hk]. by left.
      * eapply rep_with_root; [done..|].
        intros k Hk. eapply Hfar; [|exact Hk]. by right.
    + repeat split; try done.
      * replace l with (with_root (root l) l) by (by destruct l).
        eapply rep_with_root; [done..|].
        intros k Hk. eapply Hfar; [|exact Hk]. by left.
      * replace r with (with_root (root r) r) by (by destruct r).
        eapply rep_with_root; [done..|].
        intros k Hk. eapply Hfar; [|exact Hk]. by right.
Qed.

(** ** The recursive member functions as relations on trees *)

Lemma t_update_delta_Node d m c l r :
  exists c1 l1 r1, t_update_delta d m (Node c l r) = Node c1 l1 r1.
Proof. simpl. destruct (cpend c); eauto. Qed.

Lemma under_kid i j : j = 2*i + 1 \/ j = 2*i + 2 -> forall k, under j k -> under i k.
Proof. intros Hj k. by apply under_child. Qed.

Lemma query_rec_modifies fuel i lo hi tlo thi :
  modifies (under i) (query_rec fuel i lo hi tlo thi).
Proof.
  revert i lo hi tlo thi. induction fuel as [|fuel IH]; intros; simpl.
  - apply modifies_out_of_fuel.
  - repeat first
      [ eapply modifies_weaken;
          [apply IH | apply under_kid; lia]
      | eapply modifies_weaken;
          [apply update_delta_modifies
          | intros k [-> | [-> | ->] ]; repeat constructor ]
      | modifies_step
      | apply under_self ].
Qed.

Lemma update_rec_modifies fuel i lo hi tlo thi d :
  modifies (under i) (update_rec fuel i lo hi tlo thi d).
Proof.
  revert i lo hi tlo thi. induction fuel as [|fuel IH]; intros; simpl.
  - apply modifies_out_of_fuel.
  - repeat first
      [ eapply modifies_weaken;
          [apply IH | apply under_kid; lia]
      | eapply modifies_weaken;
          [apply update_delta_modifies
          | intros k [-> | [-> | ->] ]; repeat constructor ]
      | modifies_step
      | apply under_self ].
Qed.

Lemma build_it_modifies fuel i lo hi arr :
  modifies (under i) (build_it fuel i lo hi arr).
Proof.
  revert i lo hi. induction fuel as [|fuel IH]; intros; simpl.
  - apply modifies_out_of_fuel.
  - repeat first
      [ eapply modifies_weaken;
          [apply IH | apply under_kid; lia]
      | modifies_step
      | apply under_self ].
Qed.

(** The private [query] on the vectors follows [tq] on the tree, for a
    target range inside the node's span. *)
Lemma query_rec_rep fuel : forall s t i lo hi tlo thi,
  rep s t i lo hi -> lo <= tlo <= thi /\ thi <= hi ->
  hi - lo < Z.of_nat fuel ->
  exists r t' s', query_rec fuel i lo hi tlo thi s = Ok (r, s') /\
    rep s' t' i lo hi /\ tq t lo hi tlo thi r t'.
Proof.
  induction fuel as [|fuel IH]; intros s t i lo hi tlo thi Hrep Htgt Hfuel.
  { lia. }
  destruct (rep_nonneg _ _ _ _ _ Hrep) as [Hi Hlohi].
  cbn [query_rec].
  rewrite (bind_ok _ _ _ _ _ (get_delta_ok _ _ _ (rep_root _ _ _ _ _ Hrep))).
  destruct (update_delta_rep s t i lo hi (cdelta (root t)) Hrep)
    as (s1 & E1 & Hrep1).
  rewrite (bind_ok _ _ _ _ _ E1).
  destruct (decide (lo = tlo /\ hi = thi)) as [[Ha Hb]|Hnh].
  { subst tlo thi. rewrite !Z.eqb_refl. cbn [andb].
    rewrite (get_value_ok _ _ _ (rep_root _ _ _ _ _ Hrep1)).
    do 3 eexists. split; [done|]. split; [done|]. constructor. }
  replace ((lo =? tlo) && (hi =? thi)) with false
    by (destruct (Z.eqb_spec lo tlo), (Z.eqb_spec hi thi); simpl; tauto).
  destruct t as [c|c l r];
    [simpl in Hrep; lia|].
  destruct (t_update_delta_Node (cdelta c) (hi - lo + 1) c l r)
    as (c1 & l1 & r1 & Et).
  cbn [root] in *; rewrite Et in Hrep1;
    destruct Hrep1 as (_ & _ & Hc1 & Hlt & Hl1 & Hr1);
    pose proof (mid_bounds lo hi ltac:(lia) Hlt) as Hmid;
    replace (i*2 + 1) with (2*i + 1) by lia;
    replace (i*2 + 2) with (2*i + 2) by lia;
    cbv zeta.
  destruct (Z.leb_spec tlo ((lo + hi) ÷ 2)) as [Hle|Hgt]; cbn [andb].
  1: destruct (Z.ltb_spec ((lo + hi) ÷ 2) thi) as [Hlt2|Hge2].
  all: try (
    (* both children *)
    destruct (IH s1 l1 (2*i + 1) lo ((lo + hi) ÷ 2) tlo
                (Z.min thi ((lo + hi) ÷ 2)) Hl1 ltac:(lia) ltac:(lia))
      as (a & l2 & s2 & E2 & Hl2 & Hq2);
    rewrite (bind_ok _ _ _ _ _ E2);
    destruct (rep_sibling _ _ _ _ _ i (2*i + 1) (2*i + 2) _ _ Hi
                ltac:(lia) (query_rec_modifies _ _ _ _ _ _) E2 Hr1)
      as [Hr2 Hc2];
    destruct (IH s2 r1 (2*i + 2) ((lo + hi) ÷ 2 + 1) hi
                (Z.max tlo ((lo + hi) ÷ 2 + 1)) thi Hr2 ltac:(lia) ltac:(lia))
      as (b & r2 & s3 & E3 & Hr3 & Hq3);
    rewrite (bind_ok _ _ _ _ _ E3);
    destruct (rep_sibling _ _ _ _ _ i (2*i + 2) (2*i + 1) _ _ Hi
                ltac:(lia) (query_rec_modifies _ _ _ _ _ _) E3 Hl2)
      as [Hl3 Hc3];
    exists (join_values a b), (Node c1 l2 r2), s3;
    split; [done|]; split;
    [ simpl; repeat split; try done; try lia; by rewrite Hc3, Hc2
    | eapply tq_both; eauto; lia ]).
  all: try (
    (* left child only *)
    destruct (IH s1 l1 (2*i + 1) lo ((lo + hi) ÷ 2) tlo
                (Z.min thi ((lo + hi) ÷ 2)) Hl1 ltac:(lia) ltac:(lia))
      as (a & l2 & s2 & E2 & Hl2 & Hq2);
    destruct (rep_sibling _ _ _ _ _ i (2*i + 1) (2*i + 2) _ _ Hi
                ltac:(lia) (query_rec_modifies _ _ _ _ _ _) E2 Hr1)
      as [Hr2 Hc2];
    exists a, (Node c1 l2 r1), s2;
    split; [done|]; split;
    [ simpl; repeat split; try done; try lia; by rewrite Hc2
    | eapply tq_left; eauto; lia ]).
  all: try (
    (* right child only *)
    destruct (IH s1 r1 (2*i + 2) ((lo + hi) ÷ 2 + 1) hi
                (Z.max tlo ((lo + hi) ÷ 2 + 1)) thi Hr1 ltac:(lia) ltac:(lia))
      as (b & r2 & s2 & E2 & Hr2 & Hq2);
    destruct (rep_sibling _ _ _ _ _ i (2*i + 2) (2*i + 1) _ _ Hi
                ltac:(lia) (query_rec_modifies _ _ _ _ _ _) E2 Hl1)
      as [Hl2 Hc2];
    exists b, (Node c1 l1 r2), s2;
    split; [done|]; split;
    [ simpl; repeat split; try done; try lia; by rewrite Hc2
    | eapply tq_right; eauto; lia ]).
Qed.
Lemma rep_set_root (s s' : st) t c i lo hi :
  rep s t i lo hi -> peek s' i = Some c ->
  (forall k, k <> i -> peek s' k = peek s k) ->
  rep s' (with_root c t) i lo hi.
Proof.
  intros Hrep Hc Hfr. destruct (rep_nonneg _ _ _ _ _ Hrep) as [Hi _].
  eapply rep_with_root; [done..|].
  intros k Hk. apply Hfr. destruct Hk as [Hk|Hk]; apply under_ge in Hk; lia.
Qed.

(** The private [update] on the vectors follows [tu] on the tree, for any
    target range whatsoever. *)
Lemma update_rec_rep fuel : forall s t i lo hi tlo thi d,
  rep s t i lo hi -> hi - lo < Z.of_nat fuel ->
  exists t' s', update_rec fuel i lo hi tlo thi d s = Ok (tt, s') /\
    rep s' t' i lo hi /\ tu t lo hi tlo thi d t'.
Proof.
  induction fuel as [|fuel IH]; intros s t i lo hi tlo thi d Hrep Hfuel.
  { destruct (rep_nonneg _ _ _ _ _ Hrep). lia. }
  destruct (rep_nonneg _ _ _ _ _ Hrep) as [Hi Hlohi].
  cbn [update_rec].
  rewrite (bind_ok _ _ _ _ _ (get_delta_ok _ _ _ (rep_root _ _ _ _ _ Hrep))).
  destruct (update_delta_rep s t i lo hi (cdelta (root t)) Hrep)
    as (s1 & E1 & Hrep1).
  rewrite (bind_ok _ _ _ _ _ E1).
  rewrite Z.gtb_ltb.
  destruct (decide (hi < tlo \/ lo > thi)) as [Hmiss|Hnm].
  { replace ((hi <? tlo) || (thi <? lo)) with true
      by (destruct (Z.ltb_spec hi tlo), (Z.ltb_spec thi lo); simpl; lia).
    do 2 eexists. split; [done|]. split; [done|]. by constructor. }
  replace ((hi <? tlo) || (thi <? lo)) with false
    by (destruct (Z.ltb_spec hi tlo), (Z.ltb_spec thi lo); simpl; lia).
  destruct (decide (tlo <= lo /\ hi <= thi)) as [Hcov|Hnc].
  { replace ((tlo <=? lo) && (hi <=? thi)) with true
      by (destruct (Z.leb_spec tlo lo), (Z.leb_spec hi thi); simpl; lia).
    destruct (set_pending_ok s1 i _ true (rep_root _ _ _ _ _ Hrep1))
      as (s2 & E2 & P2 & F2).
    rewrite (bind_ok _ _ _ _ _ E2).
    pose proof (rep_set_root _ _ _ _ _ _ _ Hrep1 P2 F2) as Hrep2.
    destruct (update_delta_rep s2 _ i lo hi d Hrep2) as (s3 & E3 & Hrep3).
    do 2 eexists. split; [done|]. split; [done|]. by constructor. }
  replace ((tlo <=? lo) && (hi <=? thi)) with false
    by (destruct (Z.leb_spec tlo lo), (Z.leb_spec hi thi); simpl; lia).
  destruct t as [c|c l r]; [simpl in Hrep; lia|].
  destruct (t_update_delta_Node (cdelta c) (hi - lo + 1) c l r)
    as (c1 & l1 & r1 & Et).
  cbn [root] in *. rewrite Et in Hrep1.
  destruct Hrep1 as (_ & _ & Hc1 & Hlt & Hl1 & Hr1).
  pose proof (mid_bounds lo hi ltac:(lia) Hlt) as Hmid.
  destruct (IH s1 l1 (2*i + 1) lo ((lo + hi) ÷ 2) tlo thi d Hl1 ltac:(lia))
    as (l2 & s2 & E2 & Hl2 & Hu2).
  rewrite (bind_ok _ _ _ _ _ E2).
  destruct (rep_sibling _ _ _ _ _ i (2*i + 1) (2*i + 2) _ _ Hi
              ltac:(lia) (update_rec_modifies _ _ _ _ _ _ _) E2 Hr1)
    as [Hr2 Hc2].
  destruct (IH s2 r1 (2*i + 2) ((lo + hi) ÷ 2 + 1) hi tlo thi d Hr2 ltac:(lia))
    as (r2 & s3 & E3 & Hr3 & Hu3).
  rewrite (bind_ok _ _ _ _ _ E3).
  destruct (rep_sibling _ _ _ _ _ i (2*i + 2) (2*i + 1) _ _ Hi
              ltac:(lia) (update_rec_modifies _ _ _ _ _ _ _) E3 Hl2)
    as [Hl3 Hc3].
  rewrite (bind_ok _ _ _ _ _ (get_value_ok _ _ _ (rep_root _ _ _ _ _ Hl3))).
  rewrite (bind_ok _ _ _ _ _ (get_value_ok _ _ _ (rep_root _ _ _ _ _ Hr3))).
  assert (peek s3 i = Some c1) as Hc3' by (by rewrite Hc3, Hc2).
  destruct (set_value_ok s3 i c1
              (join_values (cval (root l2)) (cval (root r2))) Hc3')
    as (s4 & E4 & P4 & F4).
  exists (Node (Cell (join_values (cval (root l2)) (cval (root r2)))
                  (cdelta c1) (cpend c1)) l2 r2), s4.
  split; [done|]. split.
  - apply (rep_set_root s3 s4 (Node c1 l2 r2) _ i lo hi); [|done..].
    simpl. repeat split; try done; lia.
  - by eapply tu_split.
Qed.

(** ** The order of the two recursive calls in [query] *)

Lemma local_weaken {A} (P Q : Z -> Prop) (m : M st A) :
  local P m -> (forall k, P k -> Q k) -> local Q m.
Proof. intros Hm HPQ s s0 Hag. apply Hm. auto. Qed.

Lemma local_ret {A} P (a : A) : local P (ret a).
Proof. intros s s0 Hag. by simpl. Qed.

Lemma local_out_of_fuel {A} P : local P (@out_of_fuel st A).
Proof. by intros s s0 Hag. Qed.

Lemma local_bind {A B} P (m : M st A) (f : A -> M st B) :
  local P m -> (forall a, local P (f a)) -> local P (bind m f).
Proof.
  intros Hm Hf s s0 Hag. specialize (Hm s s0 Hag). unfold bind.
  destruct (m s) as [[a s1]| |], (m s0) as [[a0 s01]| |]; try done.
  destruct Hm as [<- Hk].
  specialize (Hf a s1 s01 (fun k Hk' => Hk k (Hag k Hk'))).
  destruct (f a s1) as [[b s2]| |], (f a s01) as [[b0 s02]| |]; try done.
  destruct Hf as [<- Hk2]. split; [done|]. auto.
Qed.

Lemma local_get_value (P : Z -> Prop) i : P i -> local P (get_value i).
Proof.
  intros HP s s0 Hag. unfold get_value.
  destruct (Hag i HP) as (-> & _ & _). by destruct (vget _ _).
Qed.

Lemma local_get_delta (P : Z -> Prop) i : P i -> local P (get_delta i).
Proof.
  intros HP s s0 Hag. unfold get_delta.
  destruct (Hag i HP) as (_ & -> & _). by destruct (vget _ _).
Qed.

Lemma local_get_pending (P : Z -> Prop) i : P i -> local P (get_pending i).
Proof.
  intros HP s s0 Hag. unfold get_pending.
  destruct (Hag i HP) as (_ & _ & ->). by destruct (vget _ _).
Qed.

Lemma vset_agree {A} (l l0 : list A) i x :
  vget l0 i = vget l i ->
  match vset l i x, vset l0 i x with
  | Some l', Some l0' =>
      forall k, vget l0 k = vget l k -> vget l0' k = vget l' k
  | None, None => True
  | _, _ => False
  end.
Proof.
  intros Hi. unfold vset.
  destruct (decide (0 <= i < Z.of_nat (length l))) as [Hb|Hb],
           (decide (0 <= i < Z.of_nat (length l0))) as [Hb0|Hb0].
  - intros k Hk. destruct (decide (k = i)) as [->|Hne].
    + by rewrite !vget_insert_eq.
    + by rewrite !vget_insert_ne by lia.
  - destruct (vget_in_range l i Hb) as [y Hy]. rewrite Hy in Hi.
    apply vget_bound in Hi. lia.
  - destruct (vget_in_range l0 i Hb0) as [y Hy]. rewrite Hy in Hi.
    symmetry in Hi. apply vget_bound in Hi. lia.
  - done.
Qed.

Lemma local_set_value (P : Z -> Prop) i v : P i -> local P (set_value i v).
Proof.
  intros HP s s0 Hag. unfold set_value.
  pose proof (vset_agree (value s) (value s0) i v (proj1 (Hag i HP))) as H.
  destruct (vset (value s) i v), (vset (value s0) i v); try done.
  split; [done|]. intros k (Hv & Hd & Hp). repeat split; simpl; auto.
Qed.

Lemma local_set_delta (P : Z -> Prop) i v : P i -> local P (set_delta i v).
Proof.
  intros HP s s0 Hag. unfold set_delta.
  pose proof (vset_agree (delta s) (delta s0) i v
                (proj1 (proj2 (Hag i HP)))) as H.
  destruct (vset (delta s) i v), (vset (delta s0) i v); try done.
  split; [done|]. intros k (Hv & Hd & Hp). repeat split; simpl; auto.
Qed.

Lemma local_set_pending (P : Z -> Prop) i v : P i -> local P (set_pending i v).
Proof.
  intros HP s s0 Hag. unfold set_pending.
  pose proof (vset_agree (pending s) (pending s0) i v
                (proj2 (proj2 (Hag i HP)))) as H.
  destruct (vset (pending s) i v), (vset (pending s0) i v); try done.
  split; [done|]. intros k (Hv & Hd & Hp). repeat split; simpl; auto.
Qed.

Lemma update_delta_local i d lo hi :
  local (fun k => k = i \/ k = 2*i + 1 \/ k = 2*i + 2) (update_delta i d lo hi).
Proof.
  unfold update_delta.
  repeat first
    [ apply local_ret
    | apply local_get_value; tauto | apply local_get_delta; tauto
    | apply local_get_pending; tauto
    | apply local_set_value; tauto | apply local_set_delta; tauto
    | apply local_set_pending; tauto
    | apply local_bind; [|intros ?]
    | match goal with |- local _ (if ?b then _ else _) => destruct b end
    | cbv zeta ].
Qed.

Lemma query_rec_local fuel i lo hi tlo thi :
  local (under i) (query_rec fuel i lo hi tlo thi).
Proof.
  revert i lo hi tlo thi. induction fuel as [|fuel IH]; intros; simpl.
  - apply local_out_of_fuel.
  - repeat first
      [ eapply local_weaken; [apply IH | apply under_kid; lia]
      | eapply local_weaken;
          [apply update_delta_local
          | intros k [-> | [-> | ->] ]; repeat constructor ]
      | apply local_ret
      | apply local_get_value; apply under_self
      | apply local_get_delta; apply under_self
      | apply local_bind; [|intros ?]
      | match goal with |- local _ (if ?b then _ else _) => destruct b end
      | cbv zeta ].
Qed.

(** States of the same dimensions that agree on every slot are equal. *)
Lemma state_ext (s s' : st) :
  same_dims s s' -> (forall k, agree k s s') -> s = s'.
Proof.
  destruct s as [n v d p], s' as [n' v' d' p']; simpl.
  intros (Hn & Hv & Hd & Hp) Hag; simpl in *. subst n'.
  assert (forall A (l l' : list A),
            (forall k, vget l' k = vget l k) -> l = l') as Hext.
  { intros A l l' H. apply list_eq. intros j. specialize (H (Z.of_nat j)).
    unfold vget in H. rewrite !decide_True, !Nat2Z.id in H by lia. done. }
  f_equal; apply Hext; intros k; apply (Hag k).
Qed.

(** Whether a slot lies under a given node can be decided. *)
Lemma under_or_not i k : 0 <= i -> under i k \/ ~ under i k.
Proof.
  intros Hi. destruct (Z.lt_ge_cases k 0) as [Hneg|Hk].
  { right. intros H%under_ge; lia. }
  revert k Hk. apply (Zlt_0_ind (fun k => under i k \/ ~ under i k)).
  intros k IH Hk. destruct (decide (k = i)) as [->|Hne]; [left; constructor|].
  destruct (decide (k < i)) as [Hlt|Hge].
  { right. intros H%under_ge; lia. }
  assert (exists p, 0 <= p < k /\ (k = 2*p + 1 \/ k = 2*p + 2))
    as (p & Hp & Hkp).
  { exists ((k - 1) / 2).
    pose proof (Z.div_mod (k - 1) 2 ltac:(lia)).
    pose proof (Z.mod_pos_bound (k - 1) 2 ltac:(lia)). lia. }
  destruct (IH p ltac:(lia)) as [Hu|Hnu].
  - left. destruct Hkp as [-> | ->]; by constructor.
  - right. intros Hu. destruct Hu as [|k' Hu|k' Hu]; [done|..];
      (assert (k' = p) as -> by lia); done.
Qed.

(** Two computations that are local to disjoint sets of slots can run in
    either order. *)
Lemma bind_swap {A B C} (P1 P2 : Z -> Prop)
    (m1 : M st A) (m2 : M st B) (f : A -> B -> C) s x s' :
  local P1 m1 -> modifies P1 m1 -> local P2 m2 -> modifies P2 m2 ->
  (forall k, ~ P1 k \/ ~ P2 k) ->
  (a <- m1 ;; b <- m2 ;; ret (f a b)) s = Ok (x, s') ->
  (b <- m2 ;; a <- m1 ;; ret (f a b)) s = Ok (x, s').
Proof.
  intros Hl1 Hm1 Hl2 Hm2 Hdis E.
  apply bind_inv in E as (a & s1 & E1 & E).
  apply bind_inv in E as (b & s12 & E2 & E). injection E as <- <-.
  destruct (Hm1 _ _ _ E1) as [Hd1 Hf1].
  destruct (Hm2 _ _ _ E2) as [Hd2 Hf2].
  (* [m2] from [s]: same slots of [P2] as in [s1] *)
  assert (forall k, P2 k -> agree k s1 s) as Hag2.
  { intros k Hk. destruct (Hdis k) as [H|H]; [|done].
    destruct (Hf1 k H) as (? & ? & ?). by repeat split. }
  pose proof (Hl2 s1 s Hag2) as H2. rewrite E2 in H2.
  destruct (m2 s) as [[b' s2]| |] eqn:E2'; [|done..].
  destruct H2 as [<- Hk2].
  destruct (Hm2 _ _ _ E2') as [Hd2' Hf2'].
  (* [m1] from [s2]: same slots of [P1] as in [s] *)
  assert (forall k, P1 k -> agree k s s2) as Hag1.
  { intros k Hk. destruct (Hdis k) as [H|H]; [done|]. by apply Hf2'. }
  pose proof (Hl1 s s2 Hag1) as H1. rewrite E1 in H1.
  destruct (m1 s2) as [[a' s21]| |] eqn:E1'; [|done..].
  destruct H1 as [<- Hk1].
  destruct (Hm1 _ _ _ E1') as [Hd1' Hf1'].
  rewrite (bind_ok _ _ _ _ _ E2'), (bind_ok _ _ _ _ _ E1').
  unfold ret. do 2 f_equal. apply state_ext.
  - destruct Hd1 as (? & ? & ? & ?), Hd2 as (? & ? & ? & ?).
    destruct Hd1' as (? & ? & ? & ?), Hd2' as (? & ? & ? & ?).
    repeat split; congruence.
  - intros k. destruct (Hdis k) as [H|H].
    + (* [k] outside [P1]: untouched by [m1] in both runs *)
      pose proof (Hf1 k H) as Ha. pose proof (Hf1' k H) as Hb.
      assert (agree k s1 s) as Hc
        by (destruct Ha as (? & ? & ?); by repeat split).
      pose proof (Hk2 k Hc) as Hd.
      unfold agree in *. intuition congruence.
    + (* [k] outside [P2]: untouched by [m2] in both runs *)
      pose proof (Hf2 k H) as Ha. pose proof (Hf2' k H) as Hb.
      pose proof (Hk1 k Hb) as Hc.
      unfold agree in *. intuition congruence.
Qed.

Lemma ok_eq_refl {A} (m : M st A) : ok_eq m m.
Proof. by intros s x. Qed.

Lemma ok_eq_trans {A} (m1 m2 m3 : M st A) :
  ok_eq m1 m2 -> ok_eq m2 m3 -> ok_eq m1 m3.
Proof. intros H1 H2 s x. by rewrite (H1 s x). Qed.

Lemma ok_eq_bind {A B} (m m' : M st A) (f f' : A -> M st B) :
  ok_eq m m' -> (forall a, ok_eq (f a) (f' a)) -> ok_eq (bind m f) (bind m' f').
Proof.
  intros Hm Hf s [b s']. split; intros (a & s1 & E1 & E2)%bind_inv.
  - apply Hm in E1. apply Hf in E2. by rewrite (bind_ok _ _ _ _ _ E1).
  - apply Hm in E1. apply Hf in E2. by rewrite (bind_ok _ _ _ _ _ E1).
Qed.

(** X6: Whenever one order returns, the other returns the same value and
    leaves the same object. *)
Theorem query_rec_order fuel : forall i lo hi tlo thi,
  0 <= i ->
  ok_eq (query_rec_rl fuel i lo hi tlo thi) (query_rec fuel i lo hi tlo thi).
Proof.
  induction fuel as [|fuel IH]; intros i lo hi tlo thi Hi; [apply ok_eq_refl|].
  cbn [query_rec query_rec_rl].
  apply ok_eq_bind; [apply ok_eq_refl|intros d].
  apply ok_eq_bind; [apply ok_eq_refl|intros _].
  destruct ((lo =? tlo) && (hi =? thi)); [apply ok_eq_refl|]. cbv zeta.
  destruct ((tlo <=? (lo + hi) ÷ 2) && ((lo + hi) ÷ 2 <? thi)).
  - assert (forall k, ~ under (i*2 + 1) k \/ ~ under (i*2 + 2) k) as Hdis.
    { intros k. destruct (under_or_not (i*2 + 1) k ltac:(lia)) as [Hu|Hu];
        [right|by left].
      intros Hu'. apply (under_children_disjoint i k Hi).
      - by replace (2*i + 1) with (i*2 + 1) by lia.
      - by replace (2*i + 2) with (i*2 + 2) by lia. }
    eapply ok_eq_trans.
    { apply ok_eq_bind; [apply IH; lia|intros b].
      apply ok_eq_bind; [apply IH; lia|intros a]. apply ok_eq_refl. }
    intros s [x s']. split; intros E.
    + apply (bind_swap (under (i*2 + 2)) (under (i*2 + 1)) _ _
               (fun b a => join_values a b)) in E;
        [done|apply query_rec_local|apply query_rec_modifies
        |apply query_rec_local|apply query_rec_modifies|].
      intros k. destruct (Hdis k); auto.
    + apply (bind_swap (under (i*2 + 1)) (under (i*2 + 2)) _ _
               join_values) in E;
        [done|apply query_rec_local|apply query_rec_modifies
        |apply query_rec_local|apply query_rec_modifies|done].
  - destruct (tlo <=? (lo + hi) ÷ 2); apply IH; lia.
Qed.

(** ** Construction *)

Lemma keeps_set_value i v : keeps (set_value i v).
Proof.
  intros s a s'. unfold set_value. destruct (vset _ _ _) eqn:E; [|done].
  intros [= <- <-]. simpl. repeat split. by eapply vset_length.
Qed.

Lemma blank_keeps {A} (m : M st A) n s a s' :
  keeps m -> m s = Ok (a, s') -> blank n s -> blank n s'.
Proof.
  intros Hk E (Hn & Hv & Hd & Hp). destruct (Hk _ _ _ E) as (? & ? & ? & ?).
  repeat split; congruence.
Qed.

Lemma blank_peek n s k :
  blank n s -> 0 <= k < 4*n ->
  exists v, peek s k = Some (Cell v T_init false).
Proof.
  intros (Hn & Hv & Hd & Hp) Hk.
  destruct (vget_in_range (value s) k ltac:(lia)) as [v Ev].
  exists v. apply peek_intro; [done|..].
  - rewrite Hd. apply vget_replicate. lia.
  - rewrite Hp. apply vget_replicate. lia.
Qed.

Lemma mid_spec lo hi :
  0 <= lo -> lo <= hi -> 2 * ((lo + hi) ÷ 2) <= lo + hi <= 2 * ((lo + hi) ÷ 2) + 1.
Proof.
  intros H0 Hle. rewrite Z.quot_div_nonneg by lia.
  pose proof (Z.div_mod (lo + hi) 2 ltac:(lia)).
  pose proof (Z.mod_pos_bound (lo + hi) 2 ltac:(lia)). lia.
Qed.

Lemma fits_root n : 1 <= n -> fits n 0 0 (n - 1).
Proof. unfold fits. lia. Qed.

Lemma fits_children n i lo hi :
  fits n i lo hi -> lo < hi ->
  fits n (2*i + 1) lo ((lo + hi) ÷ 2) /\
  fits n (2*i + 2) ((lo + hi) ÷ 2 + 1) hi.
Proof.
  intros (Hi & Hlohi & Hb) Hlt.
  pose proof (mid_spec lo hi ltac:(lia) ltac:(lia)) as Hm.
  set (mid := (lo + hi) ÷ 2) in *.
  assert (i + 2 <= (hi - lo) * (i + 2)) by nia.
  assert (2 * (mid - lo) * (i + 2) <= (hi - lo) * (i + 2))
    by (apply Z.mul_le_mono_nonneg_r; lia).
  assert (2 * (hi - (mid + 1)) * (i + 2) <= (hi - lo) * (i + 2))
    by (apply Z.mul_le_mono_nonneg_r; lia).
  unfold fits. repeat split; try lia; nia.
Qed.

Lemma build_it_rep n arr f fuel : forall s i lo hi,
  blank n s -> fits n i lo hi -> hi - lo < Z.of_nat fuel ->
  (forall k, lo <= k <= hi -> vget arr k = Some (f k)) ->
  exists t s', build_it fuel i lo hi arr s = Ok (tt, s') /\
    rep s' t i lo hi /\ fresh f t lo hi /\ blank n s'.
Proof.
  induction fuel as [|fuel IH]; intros s i lo hi Hbl Hfit Hfuel Harr.
  { destruct Hfit as (_ & ? & _). lia. }
  pose proof Hfit as (Hi & Hlohi & _).
  cbn [build_it]. destruct (Z.eqb_spec lo hi) as [Heq|Hne].
  - unfold deref at 1. unfold bind at 1. rewrite Harr by lia.
    destruct (blank_peek n s i Hbl Hi) as [v0 Hp].
    destruct (set_value_ok s i _ (f lo) Hp) as (s' & E & P & F).
    exists (Leaf (Cell (f lo) T_init false)), s'.
    split; [done|]. split; [|split].
    + simpl. repeat split; try done; lia.
    + done.
    + eapply blank_keeps; [apply keeps_set_value|done..].
  - assert (lo < hi) as Hlt by lia.
    destruct (fits_children n i lo hi Hfit Hlt) as [Hfl Hfr].
    pose proof (mid_bounds lo hi ltac:(lia) Hlt) as Hmid.
    replace (i*2 + 1) with (2*i + 1) by lia.
    replace (i*2 + 2) with (2*i + 2) by lia.
    destruct (IH s (2*i + 1) lo ((lo + hi) ÷ 2) Hbl Hfl ltac:(lia))
      as (l & s1 & E1 & Hl1 & Hfl1 & Hbl1).
    { intros k Hk. apply Harr. lia. }
    rewrite (bind_ok _ _ _ _ _ E1).
    destruct (IH s1 (2*i + 2) ((lo + hi) ÷ 2 + 1) hi Hbl1 Hfr ltac:(lia))
      as (r & s2 & E2 & Hr2 & Hfr2 & Hbl2).
    { intros k Hk. apply Harr. lia. }
    rewrite (bind_ok _ _ _ _ _ E2).
    destruct (rep_sibling _ _ _ _ _ i (2*i + 2) (2*i + 1) _ _ ltac:(lia)
                ltac:(lia) (build_it_modifies _ _ _ _ _) E2 Hl1)
      as [Hl2 _].
    rewrite (bind_ok _ _ _ _ _ (get_value_ok _ _ _ (rep_root _ _ _ _ _ Hl2))).
    rewrite (bind_ok _ _ _ _ _ (get_value_ok _ _ _ (rep_root _ _ _ _ _ Hr2))).
    destruct (blank_peek n s2 i Hbl2 Hi) as [v0 Hp].
    destruct (set_value_ok s2 i _
                (join_values (cval (root l)) (cval (root r))) Hp)
      as (s3 & E3 & P3 & F3).
    exists (Node (Cell (join_values (cval (root l)) (cval (root r)))
                    T_init false) l r), s3.
    split; [done|]. split; [|split].
    + apply (rep_set_root s2 s3 (Node (Cell v0 T_init false) l r) _ i lo hi);
        [|done..].
      simpl. repeat split; try done; lia.
    + done.
    + eapply blank_keeps; [apply keeps_set_value|done..].
Qed.

(** [build] with a fill value is [build] over a range of that value. *)
Lemma build_as_build_it fuel v arr : forall i lo hi s,
  0 <= lo <= hi -> (forall k, lo <= k <= hi -> vget arr k = Some v) ->
  build fuel i lo hi v s = build_it fuel i lo hi arr s.
Proof.
  induction fuel as [|fuel IH]; intros i lo hi s Hlohi Harr; [done|].
  cbn [build build_it]. destruct (Z.eqb_spec lo hi) as [Heq|Hne].
  - unfold deref, bind. by rewrite Harr by lia.
  - pose proof (mid_bounds lo hi ltac:(lia) ltac:(lia)) as Hmid.
    apply bind_ext; [apply IH; [lia|intros; apply Harr; lia]|].
    intros _ s1.
    apply bind_ext; [apply IH; [lia|intros; apply Harr; lia]|].
    done.
Qed.

(** ** What a tree means: the logical array *)

Lemma rep_shaped (s : segment_tree T) t i lo hi :
  rep s t i lo hi -> shaped t lo hi.
Proof.
  revert i lo hi. induction t as [c|c l IHl r IHr]; intros i lo hi; simpl.
  - tauto.
  - intros (_ & ? & _ & ? & Hl & Hr). repeat split; eauto.
Qed.

Lemma shaped_with_root c (t : tree T) lo hi :
  shaped (with_root c t) lo hi <-> shaped t lo hi.
Proof. by destruct t. Qed.

Lemma shaped_push d (t : tree T) lo hi : shaped (push d t) lo hi <-> shaped t lo hi.
Proof. apply shaped_with_root. Qed.

Lemma shaped_set_pend (t : tree T) lo hi : shaped (set_pend t) lo hi <-> shaped t lo hi.
Proof. apply shaped_with_root. Qed.

Lemma shaped_update_delta d m (t : tree T) lo hi :
  shaped (t_update_delta d m t) lo hi <-> shaped t lo hi.
Proof.
  destruct t as [c|c l r]; simpl; [done|].
  destruct (cpend c); simpl; [|done]. by rewrite !shaped_push.
Qed.

Lemma root_update_delta_clear d m (t : tree T) :
  cpend (root (t_update_delta d m t)) = false.
Proof. destruct t as [c|c l r]; simpl; [done|]. by destruct (cpend c). Qed.

Lemma root_with_root c (t : tree T) : root (with_root c t) = c.
Proof. by destruct t. Qed.

Lemma val_clear_node c (l r : tree T) lo hi j :
  cpend c = false ->
  val (Node c l r) lo hi j
  = if j <=? (lo + hi) ÷ 2 then val l lo ((lo + hi) ÷ 2) j
    else val r ((lo + hi) ÷ 2 + 1) hi j.
Proof. intros Hc. simpl. unfold app_cell. by rewrite Hc. Qed.

Section Composition.
Hypothesis Hcomp : delta_composes_at_1.

Lemma app_push_cell d c x :
  app_cell (push_cell d c) x = join_value_with_delta (app_cell c x) d 1.
Proof.
  unfold app_cell, push_cell; simpl. destruct (cpend c); [|done].
  by rewrite Hcomp.
Qed.

Lemma val_push d t lo hi j :
  val (push d t) lo hi j = join_value_with_delta (val t lo hi j) d 1.
Proof. destruct t as [c|c l r]; simpl; apply app_push_cell. Qed.

(** Resolving a node's own pending delta changes no logical value. *)
Lemma val_update_own t lo hi j :
  shaped t lo hi ->
  val (t_update_delta (cdelta (root t)) (hi - lo + 1) t) lo hi j = val t lo hi j.
Proof.
  destruct t as [c|c l r]; simpl.
  - intros [_ ->]. replace (hi - hi + 1) with 1 by lia.
    unfold app_cell; simpl. by destruct (cpend c).
  - intros _. unfold app_cell. destruct (cpend c) eqn:Ep; simpl; [|done].
    rewrite !val_push. by destruct (j <=? _).
Qed.

(** The covering case of [update]: flag the node, resolve with [d]. *)
Lemma val_cover d t lo hi j :
  shaped t lo hi -> cpend (root t) = false ->
  val (t_update_delta d (hi - lo + 1) (set_pend t)) lo hi j
  = join_value_with_delta (val t lo hi j) d 1.
Proof.
  destruct t as [c|c l r]; simpl.
  - intros [_ ->] Hc. replace (hi - hi + 1) with 1 by lia.
    unfold app_cell; simpl. by rewrite Hc.
  - intros _ Hc. unfold app_cell; simpl. rewrite Hc, !val_push.
    by destruct (j <=? _).
Qed.

Lemma tq_root_clear t lo hi tlo thi r t' :
  tq t lo hi tlo thi r t' -> cpend (root t') = false.
Proof.
  destruct 1 as [t lo hi
                |c l r lo hi tlo thi c1 l1 r1 a b l2 r2 Hnh Et Hc Hq1 Hq2
                |c l r lo hi tlo thi c1 l1 r1 a l2 Hnh Et Hc Hc' Hq1
                |c l r lo hi tlo thi c1 l1 r1 b r2 Hnh Et Hc Hq2].
  - apply root_update_delta_clear.
  - simpl. change c1 with (root (Node c1 l1 r1)). rewrite <- Et.
    apply root_update_delta_clear.
  - simpl. change c1 with (root (Node c1 l1 r1)). rewrite <- Et.
    apply root_update_delta_clear.
  - simpl. change c1 with (root (Node c1 l1 r1)). rewrite <- Et.
    apply root_update_delta_clear.
Qed.

(** What [update_delta] at the top of [query] and [update] leaves:
    a node that is not pending, over children with the same values. *)
Lemma own_update_node c l r lo hi c1 l1 r1 :
  t_update_delta (cdelta c) (hi - lo + 1) (Node c l r) = Node c1 l1 r1 ->
  shaped (Node c l r) lo hi ->
  cpend c1 = false /\
  shaped l1 lo ((lo + hi) ÷ 2) /\ shaped r1 ((lo + hi) ÷ 2 + 1) hi /\
  forall j, val (Node c l r) lo hi j
            = if j <=? (lo + hi) ÷ 2 then val l1 lo ((lo + hi) ÷ 2) j
              else val r1 ((lo + hi) ÷ 2 + 1) hi j.
Proof.
  intros Et Hsh.
  assert (cpend c1 = false) as Hc1.
  { change c1 with (root (Node c1 l1 r1)). rewrite <- Et.
    apply root_update_delta_clear. }
  pose proof (proj2 (shaped_update_delta (cdelta c) (hi - lo + 1) _ lo hi) Hsh)
    as Hsh1.
  rewrite Et in Hsh1. destruct Hsh1 as (_ & _ & Hl1 & Hr1).
  repeat split; try done.
  intros j. rewrite <- (val_clear_node c1 l1 r1 lo hi j Hc1), <- Et.
  symmetry. by apply (val_update_own (Node c l r)).
Qed.

(** A query changes no logical value. *)
Lemma tq_val t lo hi tlo thi r t' :
  tq t lo hi tlo thi r t' -> shaped t lo hi ->
  forall j, val t' lo hi j = val t lo hi j.
Proof.
  induction 1 as [t lo hi
                 |c l r lo hi tlo thi c1 l1 r1 a b l2 r2 Hnh Et Hc Hq1 IH1 Hq2 IH2
                 |c l r lo hi tlo thi c1 l1 r1 a l2 Hnh Et Hc Hc' Hq1 IH1
                 |c l r lo hi tlo thi c1 l1 r1 b r2 Hnh Et Hc Hq2 IH2];
    intros Hsh j.
  - by apply val_update_own.
  - destruct (own_update_node _ _ _ _ _ _ _ _ Et Hsh) as (Hc1 & Hl1 & Hr1 & Hv).
    rewrite Hv, val_clear_node by done. by rewrite IH1, IH2.
  - destruct (own_update_node _ _ _ _ _ _ _ _ Et Hsh) as (Hc1 & Hl1 & Hr1 & Hv).
    rewrite Hv, val_clear_node by done. by rewrite IH1.
  - destruct (own_update_node _ _ _ _ _ _ _ _ Et Hsh) as (Hc1 & Hl1 & Hr1 & Hv).
    rewrite Hv, val_clear_node by done. by rewrite IH2.
Qed.

(** A query for the single position [j] returns the logical value there. *)
Lemma tq_point t lo hi tlo thi r t' :
  tq t lo hi tlo thi r t' -> shaped t lo hi -> tlo = thi ->
  r = val t lo hi tlo.
Proof.
  induction 1 as [t lo hi
                 |c l r lo hi tlo thi c1 l1 r1 a b l2 r2 Hnh Et Hc Hq1 IH1 Hq2 IH2
                 |c l r lo hi tlo thi c1 l1 r1 a l2 Hnh Et Hc Hc' Hq1 IH1
                 |c l r lo hi tlo thi c1 l1 r1 b r2 Hnh Et Hc Hq2 IH2];
    intros Hsh Heq.
  - subst hi. destruct t as [c|c l r]; [|simpl in Hsh; lia].
    simpl. replace (lo - lo + 1) with 1 by lia. unfold app_cell.
    by destruct (cpend c).
  - lia.
  - destruct (own_update_node _ _ _ _ _ _ _ _ Et Hsh) as (Hc1 & Hl1 & Hr1 & Hv).
    rewrite Hv. rewrite (proj2 (Z.leb_le _ _) Hc'). apply IH1; [done|lia].
  - destruct (own_update_node _ _ _ _ _ _ _ _ Et Hsh) as (Hc1 & Hl1 & Hr1 & Hv).
    rewrite Hv. rewrite (proj2 (Z.leb_gt _ _)) by lia.
    rewrite IH2; [|done|lia]. f_equal. lia.
Qed.

Lemma tu_root_clear t lo hi tlo thi d t' :
  tu t lo hi tlo thi d t' -> cpend (root t') = false.
Proof.
  destruct 1 as [t lo hi tlo thi d Hm
                |t lo hi tlo thi d Hnm Hcov
                |c l r lo hi tlo thi d c1 l1 r1 l2 r2 Hnm Hnc Et Hu1 Hu2].
  - apply root_update_delta_clear.
  - apply root_update_delta_clear.
  - simpl. change c1 with (root (Node c1 l1 r1)). rewrite <- Et.
    apply root_update_delta_clear.
Qed.

(** An update applies [d] at exactly the positions of the span that lie
    in the target range. *)
Lemma tu_val t lo hi tlo thi d t' :
  tu t lo hi tlo thi d t' -> shaped t lo hi ->
  forall j, lo <= j <= hi ->
    val t' lo hi j
    = if decide (tlo <= j <= thi)
      then join_value_with_delta (val t lo hi j) d 1
      else val t lo hi j.
Proof.
  induction 1 as [t lo hi tlo thi d Hm
                 |t lo hi tlo thi d Hnm Hcov
                 |c l r lo hi tlo thi d c1 l1 r1 l2 r2 Hnm Hnc Et Hu1 IH1 Hu2 IH2];
    intros Hsh j Hj.
  - rewrite decide_False by lia. by apply val_update_own.
  - rewrite decide_True by lia.
    rewrite val_cover.
    + f_equal. by apply val_update_own.
    + by apply shaped_update_delta.
    + apply root_update_delta_clear.
  - destruct (own_update_node _ _ _ _ _ _ _ _ Et Hsh) as (Hc1 & Hl1 & Hr1 & Hv).
    pose proof (mid_bounds lo hi ltac:(simpl in Hsh; lia)
                  ltac:(simpl in Hsh; lia)) as Hmid.
    rewrite Hv, val_clear_node by done.
    destruct (Z.leb_spec j ((lo + hi) ÷ 2)).
    + apply IH1; [done|lia].
    + apply IH2; [done|lia].
Qed.

End Composition.

(** ** The public member functions and the logical array *)

Lemma length_apply_range lo hi d A : length (apply_range lo hi d A) = length A.
Proof. apply length_imap. Qed.

Lemma lookup_apply_range lo hi d A j x :
  0 <= j -> A !! Z.to_nat j = Some x ->
  apply_range lo hi d A !! Z.to_nat j
  = Some (if decide (lo <= j <= hi) then join_value_with_delta x d 1 else x).
Proof.
  intros Hj Hx. unfold apply_range. rewrite list_lookup_imap, Hx. simpl.
  by rewrite Z2Nat.id by done.
Qed.

Lemma fresh_val f (t : tree T) lo hi :
  fresh f t lo hi -> shaped t lo hi ->
  cpend (root t) = false /\ forall j, lo <= j <= hi -> val t lo hi j = f j.
Proof.
  revert lo hi. induction t as [c|c l IHl r IHr]; intros lo hi; simpl.
  - intros -> [_ <-]. split; [done|]. intros j Hj. unfold app_cell; simpl.
    f_equal. lia.
  - intros (-> & Hl & Hr) (Hlo & Hlt & Hsl & Hsr). split; [done|].
    intros j Hj. unfold app_cell; simpl.
    destruct (IHl _ _ Hl Hsl) as [_ Hvl], (IHr _ _ Hr Hsr) as [_ Hvr].
    destruct (Z.leb_spec j ((lo + hi) ÷ 2)); [apply Hvl|apply Hvr]; lia.
Qed.

Lemma allocate_blank n :
  0 <= n -> 4 * n <= INT_MAX ->
  exists s0, allocate n = Ok s0 /\ blank n s0 /\ len s0 = n /\
    budget s0 = S (S (Z.to_nat (4*n))).
Proof.
  intros Hn Hfit. unfold allocate. rewrite (proj2 (Z.ltb_ge n 0)) by lia.
  rewrite (proj2 (Z.ltb_ge INT_MAX (4*n))) by lia.
  eexists. split; [done|]. split; [|split; [done|]].
  - repeat split; simpl. rewrite length_replicate. lia.
  - unfold budget; simpl. by rewrite length_replicate.
Qed.

Lemma allocate_overflow n : INT_MAX < 4 * n -> allocate n = Fault.
Proof.
  intros Hn. unfold allocate. destruct (n <? 0); [done|].
  by rewrite (proj2 (Z.ltb_lt INT_MAX (4*n))).
Qed.

Lemma blank_lengths n (s : st) :
  0 <= n -> blank n s ->
  Z.of_nat (length (value s)) = 4 * n /\ length (delta s) = length (value s) /\
  length (pending s) = length (value s).
Proof.
  intros Hn (_ & Hv & Hd & Hp). rewrite Hd, Hp, !length_replicate. lia.
Qed.

Lemma fill_as_range n v :
  1 <= n -> segment_tree_fill n v = segment_tree_range (replicate (Z.to_nat n) v).
Proof.
  intros Hn. unfold segment_tree_fill, segment_tree_range, run_ctor.
  rewrite length_replicate, Z2Nat.id by lia.
  destruct (decide (4 * n <= INT_MAX)) as [Hfit|Hfit];
    [|by rewrite (allocate_overflow n) by lia].
  destruct (allocate_blank n ltac:(lia) Hfit) as (s0 & -> & _ & Hlen & _).
  rewrite Hlen.
  rewrite (build_as_build_it _ v (replicate (Z.to_nat n) v)); [done|lia|].
  intros k Hk. apply vget_replicate. lia.
Qed.

Lemma holds_budget A s : holds A s -> len s - 1 - 0 < Z.of_nat (budget s).
Proof. intros (_ & ? & ? & Hd & _). unfold budget. rewrite Hd. lia. Qed.

Lemma holds_dims A s s' t :
  holds A s -> same_dims s s' ->
  rep s' t 0 0 (len s - 1) -> cpend (root t) = false ->
  (forall j, 0 <= j < len s -> A !! Z.to_nat j = Some (val t 0 (len s - 1) j)) ->
  holds A s'.
Proof.
  intros (H1 & H2 & H3 & H4 & H5 & _) (D1 & D2 & D3 & D4) Hrep Hc Hv.
  unfold holds. rewrite D1, D2, D3, D4. repeat split; try done.
  by exists t.
Qed.

Section Composition.
Hypothesis Hcomp : delta_composes_at_1.

(** [query] on an in-range target returns and keeps the logical array. *)
Lemma query_holds A s lo hi :
  holds A s -> 0 <= lo <= hi /\ hi < len s ->
  exists r s', query lo hi s = Ok (r, s') /\ holds A s'.
Proof.
  intros Hh Hr. pose proof Hh as (_ & _ & _ & _ & _ & t & Hrep & Hc & Hv).
  destruct (query_rec_rep (budget s) s t 0 0 (len s - 1) lo hi Hrep
              ltac:(lia) (holds_budget _ _ Hh))
    as (r & t' & s' & E & Hrep' & Hq).
  exists r, s'. split; [done|].
  destruct (query_rec_modifies _ _ _ _ _ _ _ _ _ E) as [Hd _].
  eapply holds_dims; [done..| |].
  - by eapply tq_root_clear.
  - intros j Hj. rewrite (tq_val Hcomp _ _ _ _ _ _ _ Hq); [by apply Hv|].
    by eapply rep_shaped.
Qed.

(** [at(i)] returns position [i] of the logical array. *)
Lemma at_holds A s i :
  holds A s -> 0 <= i < len s ->
  exists x s', at_ i s = Ok (x, s') /\ A !! Z.to_nat i = Some x /\ holds A s'.
Proof.
  intros Hh Hi. pose proof Hh as (_ & _ & _ & _ & _ & t & Hrep & Hc & Hv).
  destruct (query_rec_rep (budget s) s t 0 0 (len s - 1) i i Hrep
              ltac:(lia) (holds_budget _ _ Hh))
    as (r & t' & s' & E & Hrep' & Hq).
  exists r, s'. split; [done|].
  pose proof (rep_shaped _ _ _ _ _ Hrep) as Hsh.
  split.
  - rewrite (tq_point Hcomp _ _ _ _ _ _ _ Hq Hsh eq_refl). by apply Hv.
  - destruct (query_rec_modifies _ _ _ _ _ _ _ _ _ E) as [Hd _].
    eapply holds_dims; [done..| |].
    + by eapply tq_root_clear.
    + intros j Hj. rewrite (tq_val Hcomp _ _ _ _ _ _ _ Hq Hsh). by apply Hv.
Qed.

(** [update] with any target range at all returns, and joins [d] into
    the positions of the array that lie in the range. *)
Lemma update_holds A s lo hi d :
  holds A s ->
  exists s', update lo hi d s = Ok (tt, s') /\ holds (apply_range lo hi d A) s'.
Proof.
  intros Hh. pose proof Hh as (Hlen & _ & _ & _ & _ & t & Hrep & Hc & Hv).
  destruct (update_rec_rep (budget s) s t 0 0 (len s - 1) lo hi d Hrep
              (holds_budget _ _ Hh))
    as (t' & s' & E & Hrep' & Hu).
  exists s'. split; [done|].
  destruct (update_rec_modifies _ _ _ _ _ _ _ _ _ _ E) as [Hd _].
  pose proof (rep_shaped _ _ _ _ _ Hrep) as Hsh.
  destruct Hh as (H1 & H2 & H3 & H4 & H5 & _).
  destruct Hd as (D1 & D2 & D3 & D4).
  unfold holds. rewrite length_apply_range, D1, D2, D3, D4.
  repeat split; try done.
  exists t'. split; [done|]. split; [by eapply tu_root_clear|].
  intros j Hj. rewrite (tu_val Hcomp _ _ _ _ _ _ _ Hu Hsh) by lia.
  apply lookup_apply_range; [lia|]. by apply Hv.
Qed.

Lemma update_at_holds A s i d :
  holds A s ->
  exists s', update_at i d s = Ok (tt, s') /\ holds (apply_range i i d A) s'.
Proof. apply update_holds. Qed.

End Composition.

(** ** Aggregates *)

Lemma delta_composes_1 : delta_composes -> delta_composes_at_1.
Proof. intros H v d1 d2. apply H. lia. Qed.

Lemma seg_ext f g lo n :
  (forall j, lo <= j <= lo + Z.of_nat n -> f j = g j) -> seg f lo n = seg g lo n.
Proof.
  revert lo. induction n as [|n IH]; intros lo H; simpl.
  - apply H. lia.
  - rewrite H by lia. f_equal. apply IH. intros j Hj. apply H. lia.
Qed.

Lemma range_join_ext f g lo hi :
  lo <= hi -> (forall j, lo <= j <= hi -> f j = g j) ->
  range_join f lo hi = range_join g lo hi.
Proof. intros Hle H. apply seg_ext. intros j Hj. apply H. lia. Qed.

Lemma range_join_one f lo : range_join f lo lo = f lo.
Proof. unfold range_join. by rewrite Z.sub_diag. Qed.

Lemma good_with_root c (t : tree T) lo hi :
  cval c = cval (root t) -> good (with_root c t) lo hi <-> good t lo hi.
Proof. destruct t as [c0|c0 l r]; simpl; [done|]. by intros ->. Qed.

Lemma fresh_good f (t : tree T) lo hi : fresh f t lo hi -> good t lo hi.
Proof.
  revert lo hi. induction t as [c|c l IHl r IHr]; intros lo hi; simpl; [done|].
  intros (-> & Hl & Hr). repeat split; auto. simpl. unfold eff.
  assert (forall t lo hi, fresh f t lo hi -> cpend (root t) = false) as Hclear.
  { intros [c|c l' r'] lo' hi'; simpl; [by intros ->|by intros (-> & _)]. }
  by rewrite (Hclear _ _ _ Hl), (Hclear _ _ _ Hr).
Qed.

Section Laws.
Hypothesis Hassoc : join_assoc.
Hypothesis Hdist : delta_distributes.
Hypothesis Hcomp : delta_composes.

Lemma seg_split f lo a b :
  seg f lo (a + S b)
  = join_values (seg f lo a) (seg f (lo + Z.of_nat a + 1) b).
Proof.
  revert lo. induction a as [|a IH]; intros lo; simpl.
  - f_equal. f_equal. lia.
  - rewrite IH, Hassoc. do 2 f_equal. lia.
Qed.

Lemma range_join_split f lo mid hi :
  lo <= mid < hi ->
  range_join f lo hi
  = join_values (range_join f lo mid) (range_join f (mid + 1) hi).
Proof.
  intros H. unfold range_join.
  replace (Z.to_nat (hi - lo))
    with (Z.to_nat (mid - lo) + S (Z.to_nat (hi - (mid + 1))))%nat by lia.
  rewrite seg_split. do 2 f_equal. lia.
Qed.

Lemma seg_dist f d lo n :
  join_value_with_delta (seg f lo n) d (Z.of_nat n + 1)
  = seg (fun j => join_value_with_delta (f j) d 1) lo n.
Proof.
  revert lo. induction n as [|n IH]; intros lo; simpl; [done|].
  replace (Z.of_nat (S n) + 1) with (1 + (Z.of_nat n + 1)) by lia.
  rewrite Hdist by lia. by rewrite IH.
Qed.

Lemma range_join_dist f d lo hi :
  lo <= hi ->
  join_value_with_delta (range_join f lo hi) d (hi - lo + 1)
  = range_join (fun j => join_value_with_delta (f j) d 1) lo hi.
Proof.
  intros H. unfold range_join. rewrite <- seg_dist. f_equal. lia.
Qed.

(** What a node stands for is the join of the logical values of its span. *)
Lemma eff_range t lo hi :
  shaped t lo hi -> good t lo hi ->
  eff t lo hi = range_join (val t lo hi) lo hi.
Proof.
  revert lo hi. induction t as [c|c l IHl r IHr]; intros lo hi; simpl.
  - intros [_ <-] _. rewrite range_join_one. unfold eff, app_cell; simpl.
    by replace (lo - lo + 1) with 1 by lia.
  - intros (Hlo & Hlt & Hsl & Hsr) (Hc & Hgl & Hgr).
    pose proof (mid_bounds lo hi Hlo Hlt) as Hmid.
    set (mid := (lo + hi) ÷ 2) in *.
    rewrite (range_join_split _ lo mid hi) by lia.
    unfold eff, app_cell; simpl. rewrite Hc, (IHl _ _ Hsl Hgl), (IHr _ _ Hsr Hgr).
    destruct (cpend c).
    + replace (hi - lo + 1) with ((mid - lo + 1) + (hi - (mid + 1) + 1)) by lia.
      rewrite Hdist, !range_join_dist by lia.
      f_equal; apply range_join_ext; try lia; intros j Hj.
      * by rewrite (proj2 (Z.leb_le j mid)) by lia.
      * by rewrite (proj2 (Z.leb_gt j mid)) by lia.
    + f_equal; apply range_join_ext; try lia; intros j Hj.
      * by rewrite (proj2 (Z.leb_le j mid)) by lia.
      * by rewrite (proj2 (Z.leb_gt j mid)) by lia.
Qed.

Lemma good_push d t lo hi : good (push d t) lo hi <-> good t lo hi.
Proof. by apply good_with_root. Qed.

Lemma eff_push d t lo hi :
  lo <= hi ->
  eff (push d t) lo hi = join_value_with_delta (eff t lo hi) d (hi - lo + 1).
Proof.
  intros Hle. unfold eff, push. rewrite root_with_root. simpl.
  destruct (cpend (root t)); [|done]. by rewrite Hcomp by lia.
Qed.

(** Resolving a flagged node with [d]: it then stands for [d] joined
    into its stored aggregate, and the invariant is kept. *)
Lemma good_resolve d t lo hi :
  shaped t lo hi -> good t lo hi -> cpend (root t) = true ->
  good (t_update_delta d (hi - lo + 1) t) lo hi /\
  eff (t_update_delta d (hi - lo + 1) t) lo hi
  = join_value_with_delta (cval (root t)) d (hi - lo + 1).
Proof.
  destruct t as [c|c l r]; simpl.
  - intros _ _ Hc. unfold eff; simpl. by rewrite Hc.
  - intros (Hlo & Hlt & Hsl & Hsr) (Hc & Hgl & Hgr) Hp. rewrite Hp.
    pose proof (mid_bounds lo hi Hlo Hlt) as Hmid.
    set (mid := (lo + hi) ÷ 2) in *.
    split; [|done]. simpl. fold mid. rewrite !good_push. split; [|done].
    rewrite !eff_push by lia. rewrite Hc.
    replace (hi - lo + 1) with ((mid - lo + 1) + (hi - (mid + 1) + 1)) at 1
      by lia.
    by rewrite Hdist by lia.
Qed.

Lemma good_update_own t lo hi :
  shaped t lo hi -> good t lo hi ->
  good (t_update_delta (cdelta (root t)) (hi - lo + 1) t) lo hi /\
  eff (t_update_delta (cdelta (root t)) (hi - lo + 1) t) lo hi = eff t lo hi.
Proof.
  intros Hsh Hg. destruct (cpend (root t)) eqn:Hp.
  - destruct (good_resolve (cdelta (root t)) t lo hi Hsh Hg Hp) as [? ->].
    split; [done|]. unfold eff. by rewrite Hp.
  - destruct t as [c|c l r]; simpl in *; unfold eff; simpl; rewrite Hp; simpl.
    + done.
    + done.
Qed.

Lemma good_cover d t lo hi :
  shaped t lo hi -> good t lo hi -> cpend (root t) = false ->
  good (t_update_delta d (hi - lo + 1) (set_pend t)) lo hi /\
  eff (t_update_delta d (hi - lo + 1) (set_pend t)) lo hi
  = join_value_with_delta (eff t lo hi) d (hi - lo + 1).
Proof.
  intros Hsh Hg Hp.
  destruct (good_resolve d (set_pend t) lo hi) as [Hg' He'].
  - by apply shaped_set_pend.
  - unfold set_pend. by apply good_with_root.
  - unfold set_pend. by rewrite root_with_root.
  - split; [done|]. rewrite He'. unfold set_pend, eff.
    by rewrite root_with_root, Hp.
Qed.

Lemma eff_clear t lo hi : cpend (root t) = false -> eff t lo hi = cval (root t).
Proof. unfold eff. by intros ->. Qed.

Lemma own_update_good c l r lo hi c1 l1 r1 :
  t_update_delta (cdelta c) (hi - lo + 1) (Node c l r) = Node c1 l1 r1 ->
  shaped (Node c l r) lo hi -> good (Node c l r) lo hi ->
  cval c1 = join_values (eff l1 lo ((lo + hi) ÷ 2))
              (eff r1 ((lo + hi) ÷ 2 + 1) hi) /\
  good l1 lo ((lo + hi) ÷ 2) /\ good r1 ((lo + hi) ÷ 2 + 1) hi /\
  cval c1 = eff (Node c l r) lo hi.
Proof.
  intros Et Hsh Hg.
  destruct (good_update_own (Node c l r) lo hi Hsh Hg) as [Hg1 He1].
  cbn [root] in *. rewrite Et in Hg1, He1. destruct Hg1 as (? & ? & ?).
  repeat split; try done. rewrite <- He1. symmetry. apply eff_clear. simpl.
  change c1 with (root (Node c1 l1 r1)). rewrite <- Et.
  apply root_update_delta_clear.
Qed.

(** A query keeps the invariant. *)
Lemma tq_good t lo hi tlo thi r t' :
  tq t lo hi tlo thi r t' -> shaped t lo hi -> good t lo hi ->
  good t' lo hi /\ eff t' lo hi = eff t lo hi.
Proof.
  pose proof (delta_composes_1 Hcomp) as Hcomp1.
  induction 1 as [t lo hi
                 |c l r lo hi tlo thi c1 l1 r1 a b l2 r2 Hnh Et Hc Hq1 IH1 Hq2 IH2
                 |c l r lo hi tlo thi c1 l1 r1 a l2 Hnh Et Hc Hc' Hq1 IH1
                 |c l r lo hi tlo thi c1 l1 r1 b r2 Hnh Et Hc Hq2 IH2];
    intros Hsh Hg.
  - by apply good_update_own.
  - destruct (own_update_node Hcomp1 _ _ _ _ _ _ _ _ Et Hsh)
      as (Hc1 & Hl1 & Hr1 & Hv).
    destruct (own_update_good _ _ _ _ _ _ _ _ Et Hsh Hg)
      as (Hj & Hgl & Hgr & He).
    destruct (IH1 Hl1 Hgl) as (Hgl2 & Hel2).
    destruct (IH2 Hr1 Hgr) as (Hgr2 & Her2).
    split.
    + simpl. by rewrite Hel2, Her2.
    + rewrite <- He. by apply eff_clear.
  - destruct (own_update_node Hcomp1 _ _ _ _ _ _ _ _ Et Hsh)
      as (Hc1 & Hl1 & Hr1 & Hv).
    destruct (own_update_good _ _ _ _ _ _ _ _ Et Hsh Hg)
      as (Hj & Hgl & Hgr & He).
    destruct (IH1 Hl1 Hgl) as (Hgl2 & Hel2).
    split.
    + simpl. by rewrite Hel2.
    + rewrite <- He. by apply eff_clear.
  - destruct (own_update_node Hcomp1 _ _ _ _ _ _ _ _ Et Hsh)
      as (Hc1 & Hl1 & Hr1 & Hv).
    destruct (own_update_good _ _ _ _ _ _ _ _ Et Hsh Hg)
      as (Hj & Hgl & Hgr & He).
    destruct (IH2 Hr1 Hgr) as (Hgr2 & Her2).
    split.
    + simpl. by rewrite Her2.
    + rewrite <- He. by apply eff_clear.
Qed.

(** A query returns the join of the logical values over its target
    range. *)
Lemma tq_result t lo hi tlo thi r t' :
  tq t lo hi tlo thi r t' -> shaped t lo hi -> good t lo hi ->
  lo <= tlo <= thi /\ thi <= hi ->
  r = range_join (val t lo hi) tlo thi.
Proof.
  pose proof (delta_composes_1 Hcomp) as Hcomp1.
  induction 1 as [t lo hi
                 |c l r lo hi tlo thi c1 l1 r1 a b l2 r2 Hnh Et Hc Hq1 IH1 Hq2 IH2
                 |c l r lo hi tlo thi c1 l1 r1 a l2 Hnh Et Hc Hc' Hq1 IH1
                 |c l r lo hi tlo thi c1 l1 r1 b r2 Hnh Et Hc Hq2 IH2];
    intros Hsh Hg Htgt.
  - destruct (good_update_own t lo hi Hsh Hg) as [Hg1 He1].
    rewrite <- (eff_clear _ lo hi) by apply root_update_delta_clear.
    rewrite He1. by apply eff_range.
  - destruct (own_update_node Hcomp1 _ _ _ _ _ _ _ _ Et Hsh)
      as (Hc1 & Hl1 & Hr1 & Hv).
    destruct (own_update_good _ _ _ _ _ _ _ _ Et Hsh Hg)
      as (Hj & Hgl & Hgr & He).
    pose proof (mid_bounds lo hi ltac:(simpl in Hsh; lia)
                  ltac:(simpl in Hsh; lia)) as Hmid.
    rewrite (IH1 Hl1 Hgl ltac:(lia)), (IH2 Hr1 Hgr ltac:(lia)).
    rewrite (range_join_split _ tlo ((lo + hi) ÷ 2) thi) by lia.
    rewrite Z.min_r, Z.max_r by lia.
    f_equal; apply range_join_ext; try lia; intros j Hj'; rewrite Hv.
    + by rewrite (proj2 (Z.leb_le _ _)) by lia.
    + by rewrite (proj2 (Z.leb_gt _ _)) by lia.
  - destruct (own_update_node Hcomp1 _ _ _ _ _ _ _ _ Et Hsh)
      as (Hc1 & Hl1 & Hr1 & Hv).
    destruct (own_update_good _ _ _ _ _ _ _ _ Et Hsh Hg)
      as (Hj & Hgl & Hgr & He).
    pose proof (mid_bounds lo hi ltac:(simpl in Hsh; lia)
                  ltac:(simpl in Hsh; lia)) as Hmid.
    rewrite (IH1 Hl1 Hgl ltac:(lia)).
    rewrite Z.min_l by lia.
    apply range_join_ext; try lia; intros j Hj'; rewrite Hv.
    by rewrite (proj2 (Z.leb_le _ _)) by lia.
  - destruct (own_update_node Hcomp1 _ _ _ _ _ _ _ _ Et Hsh)
      as (Hc1 & Hl1 & Hr1 & Hv).
    destruct (own_update_good _ _ _ _ _ _ _ _ Et Hsh Hg)
      as (Hj & Hgl & Hgr & He).
    pose proof (mid_bounds lo hi ltac:(simpl in Hsh; lia)
                  ltac:(simpl in Hsh; lia)) as Hmid.
    rewrite (IH2 Hr1 Hgr ltac:(lia)).
    rewrite Z.max_l by lia.
    apply range_join_ext; try lia; intros j Hj'; rewrite Hv.
    by rewrite (proj2 (Z.leb_gt _ _)) by lia.
Qed.

(** An update keeps the invariant. *)
Lemma tu_good t lo hi tlo thi d t' :
  tu t lo hi tlo thi d t' -> shaped t lo hi -> good t lo hi -> good t' lo hi.
Proof.
  pose proof (delta_composes_1 Hcomp) as Hcomp1.
  induction 1 as [t lo hi tlo thi d Hm
                 |t lo hi tlo thi d Hnm Hcov
                 |c l r lo hi tlo thi d c1 l1 r1 l2 r2 Hnm Hnc Et Hu1 IH1 Hu2 IH2];
    intros Hsh Hg.
  - by apply good_update_own.
  - apply good_cover.
    + by apply shaped_update_delta.
    + by apply good_update_own.
    + apply root_update_delta_clear.
  - destruct (own_update_node Hcomp1 _ _ _ _ _ _ _ _ Et Hsh)
      as (Hc1 & Hl1 & Hr1 & Hv).
    destruct (own_update_good _ _ _ _ _ _ _ _ Et Hsh Hg)
      as (Hj & Hgl & Hgr & He).
    simpl. repeat split; auto.
    by rewrite !eff_clear by (by eapply tu_root_clear).
Qed.

(** Pushing everything down settles the tree and moves no logical value. *)
Lemma tp_settled t lo hi t' :
  tp t lo hi t' -> shaped t lo hi -> good t lo hi ->
  settled t' /\ shaped t' lo hi /\ eff t' lo hi = eff t lo hi /\
  forall j, val t' lo hi j = val t lo hi j.
Proof.
  pose proof (delta_composes_1 Hcomp) as Hcomp1.
  induction 1 as [c lo hi|c l r lo hi c1 l1 r1 l2 r2 Et Hp1 IH1 Hp2 IH2];
    intros Hsh Hg.
  - destruct (good_update_own (Leaf c) lo hi Hsh Hg) as [_ He].
    split; [|split; [|split]].
    + by simpl.
    + by apply (shaped_update_delta _ _ (Leaf c)).
    + exact He.
    + intros j. by apply (val_update_own Hcomp1 (Leaf c)).
  - destruct (own_update_node Hcomp1 _ _ _ _ _ _ _ _ Et Hsh)
      as (Hc1 & Hl1 & Hr1 & Hv).
    destruct (own_update_good _ _ _ _ _ _ _ _ Et Hsh Hg)
      as (Hj & Hgl & Hgr & He).
    destruct (IH1 Hl1 Hgl) as (Hsl & Hshl & Hel & Hvl).
    destruct (IH2 Hr1 Hgr) as (Hsr & Hshr & Her & Hvr).
    assert (cpend (root l2) = false) as Hcl by (destruct l2; simpl in Hsl; tauto).
    assert (cpend (root r2) = false) as Hcr by (destruct r2; simpl in Hsr; tauto).
    split; [|split; [|split]].
    + simpl. repeat split; try done.
      rewrite <- (eff_clear l2 lo ((lo + hi) ÷ 2)) by done.
      rewrite <- (eff_clear r2 ((lo + hi) ÷ 2 + 1) hi) by done.
      by rewrite Hel, Her.
    + simpl in *. destruct Hsh as (? & ? & _). repeat split; auto.
    + rewrite <- He. by apply eff_clear.
    + intros j. rewrite Hv, val_clear_node by done. by rewrite Hvl, Hvr.
Qed.

End Laws.

(** ** Freshly built trees, and states in general *)

Lemma fresh_calm f (t : tree T) lo hi : fresh f t lo hi -> calm t.
Proof.
  revert lo hi. induction t as [c|c l IHl r IHr]; intros lo hi; simpl.
  - by intros ->.
  - intros (-> & Hl & Hr). eauto.
Qed.

Lemma update_delta_calm d m (t : tree T) : calm t -> t_update_delta d m t = t.
Proof.
  destruct t as [[v d0 p]|[v d0 p] l r]; simpl; intros [-> _]; done.
Qed.

(** On a tree without pending deltas a point query changes nothing and
    returns the stored leaf. *)
Lemma tq_calm (t : tree T) lo hi tlo thi r t' :
  tq t lo hi tlo thi r t' -> calm t -> shaped t lo hi -> tlo = thi ->
  t' = t /\ r = val t lo hi tlo.
Proof.
  induction 1 as [t lo hi
                 |c l r lo hi tlo thi c1 l1 r1 a b l2 r2 Hnh Et Hc Hq1 IH1 Hq2 IH2
                 |c l r lo hi tlo thi c1 l1 r1 a l2 Hnh Et Hc Hc' Hq1 IH1
                 |c l r lo hi tlo thi c1 l1 r1 b r2 Hnh Et Hc Hq2 IH2];
    intros Hcalm Hsh Heq.
  - rewrite update_delta_calm by done. split; [done|].
    subst hi. destruct t as [c|c l r]; [|simpl in Hsh; lia].
    simpl in *. unfold app_cell. by rewrite (proj1 Hcalm).
  - lia.
  - rewrite update_delta_calm in Et by done. injection Et as <- <- <-.
    simpl in Hcalm, Hsh.
    destruct (IH1 ltac:(tauto) ltac:(tauto) ltac:(lia)) as [-> ->].
    split; [done|]. simpl. unfold app_cell. rewrite (proj1 Hcalm).
    by rewrite (proj2 (Z.leb_le _ _) Hc').
  - rewrite update_delta_calm in Et by done. injection Et as <- <- <-.
    simpl in Hcalm, Hsh.
    destruct (IH2 ltac:(tauto) ltac:(tauto) ltac:(lia)) as [-> ->].
    split; [done|]. simpl. unfold app_cell. rewrite (proj1 Hcalm).
    rewrite (proj2 (Z.leb_gt _ _)) by lia. f_equal. lia.
Qed.

(** A state is determined, below a node, by one tree only. *)
Lemma rep_functional (s : st) t : forall t' i lo hi,
  rep s t i lo hi -> rep s t' i lo hi -> t = t'.
Proof.
  induction t as [c|c l IHl r IHr]; intros [c'|c' l' r'] i lo hi; simpl.
  - intros (_ & _ & Hc & _) (_ & _ & Hc' & _). congruence.
  - lia.
  - lia.
  - intros (_ & _ & Hc & _ & Hl & Hr) (_ & _ & Hc' & _ & Hl' & Hr').
    f_equal; [congruence|by eapply IHl|by eapply IHr].
Qed.

Lemma holds_wf A s : holds A s -> wf s.
Proof.
  intros (_ & ? & ? & ? & ? & t & ? & ? & _). repeat split; try done.
  by exists t.
Qed.

Lemma wf_budget s : wf s -> len s - 1 - 0 < Z.of_nat (budget s).
Proof. intros (? & ? & Hd & _). unfold budget. rewrite Hd. lia. Qed.

Lemma wf_dims s s' t :
  wf s -> same_dims s s' -> rep s' t 0 0 (len s - 1) ->
  cpend (root t) = false -> wf s'.
Proof.
  intros (H1 & H2 & H3 & H4 & _) (D1 & D2 & D3 & D4) Hrep Hc.
  unfold wf. rewrite D1, D2, D3, D4. repeat split; try done. by exists t.
Qed.

(** In-range queries and arbitrary updates on a well-formed state return,
    whatever the operators are. *)
Lemma query_wf s lo hi :
  wf s -> 0 <= lo <= hi /\ hi < len s ->
  exists r s', query lo hi s = Ok (r, s') /\ wf s'.
Proof.
  intros Hwf Hr. pose proof Hwf as (_ & _ & _ & _ & t & Hrep & _).
  destruct (query_rec_rep (budget s) s t 0 0 (len s - 1) lo hi Hrep
              ltac:(lia) (wf_budget _ Hwf))
    as (r & t' & s' & E & Hrep' & Hq).
  exists r, s'. split; [done|].
  destruct (query_rec_modifies _ _ _ _ _ _ _ _ _ E) as [Hd _].
  eapply wf_dims; [done..|]. by eapply tq_root_clear.
Qed.

Lemma update_wf s lo hi d :
  wf s -> exists s', update lo hi d s = Ok (tt, s') /\ wf s'.
Proof.
  intros Hwf. pose proof Hwf as (_ & _ & _ & _ & t & Hrep & _).
  destruct (update_rec_rep (budget s) s t 0 0 (len s - 1) lo hi d Hrep
              (wf_budget _ Hwf))
    as (t' & s' & E & Hrep' & Hu).
  exists s'. split; [done|].
  destruct (update_rec_modifies _ _ _ _ _ _ _ _ _ _ E) as [Hd _].
  eapply wf_dims; [done..|]. by eapply tu_root_clear.
Qed.

(** What the range constructor builds from a non-empty range. *)
Lemma segment_tree_range_built arr :
  arr <> [] -> 4 * Z.of_nat (length arr) <= INT_MAX ->
  exists s t, segment_tree_range arr = Ok s /\ holds arr s /\
    rep s t 0 0 (len s - 1) /\ fresh (elem arr) t 0 (len s - 1).
Proof.
  intros Hne Hfit. set (n := Z.of_nat (length arr)) in *.
  assert (1 <= n) as Hn by (destruct arr; [done|simpl in n; lia]).
  destruct (allocate_blank n ltac:(lia) Hfit)
    as (s0 & E0 & Hbl & Hlen & Hbud).
  destruct (build_it_rep n arr (elem arr) (budget s0) s0 0 0 (n - 1) Hbl
              (fits_root n Hn) ltac:(rewrite Hbud; lia))
    as (t & s & E & Hrep & Hfr & Hbl').
  { intros k Hk. unfold elem.
    by destruct (vget_in_range arr k ltac:(lia)) as [x ->]. }
  assert (len s = n) as Hlen' by apply Hbl'.
  exists s, t. split; [|split; [|by rewrite Hlen']].
  { unfold segment_tree_range, run_ctor. fold n. rewrite E0, Hlen.
    by rewrite E. }
  destruct (blank_lengths n s ltac:(lia) Hbl') as (Hv & Hd & Hp).
  unfold holds. rewrite Hlen'. repeat split; try done.
  exists t. split; [done|].
  destruct (fresh_val (elem arr) t 0 (n - 1) Hfr (rep_shaped _ _ _ _ _ Hrep))
    as [Hc Hval].
  split; [done|]. intros j Hj. rewrite Hval by lia. unfold elem.
  destruct (vget_in_range arr j ltac:(lia)) as [x Hx]. rewrite Hx.
  unfold vget in Hx. by rewrite decide_True in Hx by lia.
Qed.

(** An object is constructed only from a range whose fourfold length
    is an [int]. *)
Lemma segment_tree_range_fits arr s :
  segment_tree_range arr = Ok s -> 4 * Z.of_nat (length arr) <= INT_MAX.
Proof.
  intros E. destruct (decide (4 * Z.of_nat (length arr) <= INT_MAX)); [done|].
  unfold segment_tree_range, run_ctor in E.
  by rewrite allocate_overflow in E by lia.
Qed.

(** Straight after construction [at(i)] returns the [i]-th input. *)
Lemma at_built arr s i x :
  segment_tree_range arr = Ok s -> arr !! i = Some x ->
  exists s', at_ (Z.of_nat i) s = Ok (x, s').
Proof.
  intros E Hx.
  destruct (segment_tree_range_built arr) as (s1 & t & E1 & Hh & Hrep & Hfr).
  { by intros ->. }
  { by eapply segment_tree_range_fits. }
  rewrite E in E1. injection E1 as <-.
  pose proof (lookup_lt_Some _ _ _ Hx) as Hi.
  assert (len s = Z.of_nat (length arr)) as Hlen by apply Hh.
  destruct (query_rec_rep (budget s) s t 0 0 (len s - 1) (Z.of_nat i)
              (Z.of_nat i) Hrep ltac:(lia) (holds_budget _ _ Hh))
    as (r & t' & s' & E' & Hrep' & Hq).
  exists s'. unfold at_, query. rewrite E'. do 2 f_equal.
  pose proof (rep_shaped _ _ _ _ _ Hrep) as Hsh.
  destruct (tq_calm _ _ _ _ _ _ _ Hq (fresh_calm _ _ _ _ Hfr) Hsh eq_refl)
    as [_ ->].
  destruct (fresh_val _ _ _ _ Hfr Hsh) as [_ Hv]. rewrite Hv by lia.
  unfold elem, vget. rewrite decide_True by lia. by rewrite Nat2Z.id, Hx.
Qed.

Lemma segment_tree_range_nil : segment_tree_range (T:=T) [] = Fault.
Proof. reflexivity. Qed.

Lemma segment_tree_fill_nonpos n (v : T) : n <= 0 -> segment_tree_fill n v = Fault.
Proof.
  intros Hn. unfold segment_tree_fill, run_ctor, allocate.
  destruct (Z.ltb_spec n 0); [done|].
  assert (n = 0) as -> by lia. reflexivity.
Qed.

Lemma segment_tree_range_aggregated arr s :
  segment_tree_range arr = Ok s -> aggregated s.
Proof.
  intros E. destruct arr as [|x arr].
  { by rewrite segment_tree_range_nil in E. }
  destruct (segment_tree_range_built (x :: arr) ltac:(done)
              (segment_tree_range_fits _ _ E))
    as (s1 & t & E1 & _ & Hrep & Hfr).
  rewrite E in E1. injection E1 as <-.
  intros t' Hrep'. rewrite <- (rep_functional _ _ _ _ _ _ Hrep Hrep').
  by eapply fresh_good.
Qed.

(** ** The recursion budget is never the reason a call ends *)

Lemma never_exhausts_bind {A B} (m : M st A) (f : A -> M st B) :
  never_exhausts m -> (forall a, never_exhausts (f a)) ->
  never_exhausts (bind m f).
Proof.
  intros Hm Hf s [H|(a & s1 & _ & H)]%bind_exhausts.
  - by apply (Hm s).
  - by apply (Hf a s1).
Qed.

Lemma never_exhausts_ret {A} (a : A) : never_exhausts (ret (S:=st) a).
Proof. by intros s. Qed.

Lemma never_exhausts_get_value i : never_exhausts (get_value i).
Proof. intros s. unfold get_value. by destruct (vget _ _). Qed.

Lemma never_exhausts_get_delta i : never_exhausts (get_delta i).
Proof. intros s. unfold get_delta. by destruct (vget _ _). Qed.

Lemma never_exhausts_get_pending i : never_exhausts (get_pending i).
Proof. intros s. unfold get_pending. by destruct (vget _ _). Qed.

Lemma never_exhausts_set_value i v : never_exhausts (set_value i v).
Proof. intros s. unfold set_value. by destruct (vset _ _ _). Qed.

Lemma never_exhausts_set_delta i v : never_exhausts (set_delta i v).
Proof. intros s. unfold set_delta. by destruct (vset _ _ _). Qed.

Lemma never_exhausts_set_pending i v : never_exhausts (set_pending i v).
Proof. intros s. unfold set_pending. by destruct (vset _ _ _). Qed.

Lemma update_delta_never_exhausts i d lo hi :
  never_exhausts (update_delta i d lo hi).
Proof.
  unfold update_delta.
  repeat first
    [ apply never_exhausts_ret | apply never_exhausts_get_value
    | apply never_exhausts_get_delta | apply never_exhausts_get_pending
    | apply never_exhausts_set_value | apply never_exhausts_set_delta
    | apply never_exhausts_set_pending
    | apply never_exhausts_bind; [|intros ?]
    | match goal with |- never_exhausts (if ?b then _ else _) => destruct b end
    | cbv zeta ].
Qed.

Lemma get_delta_inv i (s : st) d s' :
  get_delta i s = Ok (d, s') ->
  s' = s /\ 0 <= i < Z.of_nat (length (delta s)).
Proof.
  unfold get_delta. destruct (vget _ _) eqn:E; [|done].
  intros [= <- <-]. split; [done|]. by eapply vget_bound.
Qed.

(** The private [query], whatever its arguments: each call reads
    [delta[i]] first and recurses on a larger [i] only. *)
Lemma query_rec_never_exhausts fuel : forall i lo hi tlo thi s,
  0 <= i -> (1 <= fuel)%nat ->
  Z.of_nat (length (delta s)) - i < Z.of_nat fuel ->
  query_rec fuel i lo hi tlo thi s <> OutOfFuel.
Proof.
  induction fuel as [|fuel IH]; intros i lo hi tlo thi s Hi H1 Hfuel; [lia|].
  cbn [query_rec].
  intros [H|(d & s0 & E0 & H)]%bind_exhausts.
  { by apply (never_exhausts_get_delta i s). }
  apply get_delta_inv in E0 as [-> Hb].
  apply bind_exhausts in H as [H|([] & s1 & E1 & H)].
  { by apply (update_delta_never_exhausts i d lo hi s). }
  destruct (update_delta_modifies _ _ _ _ _ _ _ E1) as [(_ & _ & Hd1 & _) _].
  assert (forall j lo' hi' tlo' thi' s',
            j = i*2 + 1 \/ j = i*2 + 2 ->
            length (delta s') = length (delta s) ->
            query_rec fuel j lo' hi' tlo' thi' s' <> OutOfFuel) as Hrec.
  { intros j lo' hi' tlo' thi' s' Hj Hlen. apply IH; [lia|lia|].
    rewrite Hlen. lia. }
  destruct ((lo =? tlo) && (hi =? thi)).
  { by apply (never_exhausts_get_value i s1). }
  cbv zeta in H. destruct ((tlo <=? (lo + hi) ÷ 2) && ((lo + hi) ÷ 2 <? thi)).
  - apply bind_exhausts in H as [H|(a & s2 & E2 & H)].
    { revert H. apply Hrec; [lia|done]. }
    destruct (query_rec_modifies _ _ _ _ _ _ _ _ _ E2)
      as [(_ & _ & Hd2 & _) _].
    apply bind_exhausts in H as [H|(b & s3 & E3 & H)]; [|done].
    revert H. apply Hrec; [lia|congruence].
  - destruct (tlo <=? (lo + hi) ÷ 2); revert H; apply Hrec; (lia || done).
Qed.

Lemma update_rec_never_exhausts fuel : forall i lo hi tlo thi d s,
  0 <= i -> (1 <= fuel)%nat ->
  Z.of_nat (length (delta s)) - i < Z.of_nat fuel ->
  update_rec fuel i lo hi tlo thi d s <> OutOfFuel.
Proof.
  induction fuel as [|fuel IH]; intros i lo hi tlo thi d s Hi H1 Hfuel; [lia|].
  cbn [update_rec].
  intros [H|(d0 & s0 & E0 & H)]%bind_exhausts.
  { by apply (never_exhausts_get_delta i s). }
  apply get_delta_inv in E0 as [-> Hb].
  apply bind_exhausts in H as [H|([] & s1 & E1 & H)].
  { by apply (update_delta_never_exhausts i d0 lo hi s). }
  destruct (update_delta_modifies _ _ _ _ _ _ _ E1) as [(_ & _ & Hd1 & _) _].
  assert (forall j lo' hi' s',
            j = 2*i + 1 \/ j = 2*i + 2 ->
            length (delta s') = length (delta s) ->
            update_rec fuel j lo' hi' tlo thi d s' <> OutOfFuel) as Hrec.
  { intros j lo' hi' s' Hj Hlen. apply IH; [lia|lia|].
    rewrite Hlen. lia. }
  destruct ((hi <? tlo) || (lo >? thi)); [done|].
  destruct ((tlo <=? lo) && (hi <=? thi)).
  - revert H. apply never_exhausts_bind;
      [apply never_exhausts_set_pending|intros ?].
    apply update_delta_never_exhausts.
  - apply bind_exhausts in H as [H|([] & s2 & E2 & H)].
    { revert H. apply Hrec; [lia|done]. }
    destruct (update_rec_modifies _ _ _ _ _ _ _ _ _ _ E2)
      as [(_ & _ & Hd2 & _) _].
    apply bind_exhausts in H as [H|([] & s3 & E3 & H)].
    { revert H. apply Hrec; [lia|congruence]. }
    revert H.
    repeat first
      [ apply never_exhausts_get_value | apply never_exhausts_set_value
      | apply never_exhausts_bind; [|intros ?] ].
Qed.

Lemma query_never_exhausts lo hi (s : st) : query lo hi s <> OutOfFuel.
Proof.
  unfold query, budget. apply query_rec_never_exhausts; lia.
Qed.

Lemma update_never_exhausts lo hi d (s : st) : update lo hi d s <> OutOfFuel.
Proof.
  unfold update, budget. apply update_rec_never_exhausts; lia.
Qed.

Lemma segment_tree_range_never_exhausts arr :
  segment_tree_range arr <> OutOfFuel.
Proof.
  destruct arr as [|x arr]; [by rewrite segment_tree_range_nil|].
  destruct (decide (4 * Z.of_nat (length (x :: arr)) <= INT_MAX)) as [Hfit|Hfit].
  - by destruct (segment_tree_range_built (x :: arr) ltac:(done) Hfit)
      as (s & _ & -> & _).
  - unfold segment_tree_range, run_ctor.
    by rewrite allocate_overflow by lia.
Qed.

Lemma segment_tree_fill_never_exhausts n v : segment_tree_fill n v <> OutOfFuel.
Proof.
  destruct (decide (n <= 0)) as [Hn|Hn].
  - by rewrite segment_tree_fill_nonpos.
  - rewrite fill_as_range by lia. apply segment_tree_range_never_exhausts.
Qed.

(** ** Reachable states *)

Lemma segment_tree_fill_inv n v s :
  segment_tree_fill n v = Ok s ->
  1 <= n /\ segment_tree_range (replicate (Z.to_nat n) v) = Ok s.
Proof.
  intros E. destruct (decide (n <= 0)) as [Hn|Hn].
  - by rewrite segment_tree_fill_nonpos in E.
  - split; [lia|]. by rewrite <- fill_as_range by lia.
Qed.

Lemma segment_tree_range_inv arr s :
  segment_tree_range arr = Ok s -> holds arr s.
Proof.
  intros E. destruct arr as [|x arr].
  { by rewrite segment_tree_range_nil in E. }
  destruct (segment_tree_range_built (x :: arr) ltac:(done)
              (segment_tree_range_fits _ _ E))
    as (s1 & t & E1 & Hh & _).
  rewrite E in E1. by injection E1 as <-.
Qed.

Lemma reach_wf A s : reach A s -> wf s.
Proof.
  induction 1 as [n v s E|arr s E
                 |A s lo hi d s' _ IH Hr E|A s i d s' _ IH Hr E
                 |A s lo hi r s' _ IH Hr E|A s i x s' _ IH Hr E].
  - apply segment_tree_fill_inv in E as [_ E].
    eapply holds_wf. by apply segment_tree_range_inv.
  - eapply holds_wf. by apply segment_tree_range_inv.
  - destruct (update_wf s lo hi d IH) as (s1 & E1 & Hwf).
    rewrite E in E1. by injection E1 as <-.
  - destruct (update_wf s i i d IH) as (s1 & E1 & Hwf).
    unfold update_at in E. unfold update in E1.
    rewrite E in E1. by injection E1 as <-.
  - destruct (query_wf s lo hi IH Hr) as (r1 & s1 & E1 & Hwf).
    rewrite E in E1. by injection E1 as <- <-.
  - destruct (query_wf s i i IH ltac:(unfold size in Hr; lia))
      as (r1 & s1 & E1 & Hwf).
    unfold at_ in E. rewrite E in E1. by injection E1 as <- <-.
Qed.

Lemma update_delta_idle (s : st) i c d lo hi :
  peek s i = Some c -> cpend c = false -> update_delta i d lo hi s = Ok (tt, s).
Proof.
  intros Hc Hp. unfold update_delta.
  rewrite (bind_ok _ _ _ _ _ (get_pending_ok _ _ _ Hc)). rewrite Hp.
  unfold bind, ret, set_pending.
  apply peek_Some in Hc as (_ & _ & Hc). rewrite Hp in Hc.
  rewrite (vset_same _ _ _ Hc). by destruct s.
Qed.

(** An update whose target range misses [[0, len-1]] altogether returns
    at the root and leaves the object as it was. *)
Lemma update_outside_id s lo hi d :
  wf s -> hi < 0 \/ len s <= lo -> update lo hi d s = Ok (tt, s).
Proof.
  intros (_ & _ & _ & _ & t & Hrep & Hc) Hout.
  unfold update, budget. cbn [update_rec].
  pose proof (rep_root _ _ _ _ _ Hrep) as Hroot.
  rewrite (bind_ok _ _ _ _ _ (get_delta_ok _ _ _ Hroot)).
  rewrite (bind_ok _ _ _ _ _ (update_delta_idle _ _ _ _ _ _ Hroot Hc)).
  rewrite Z.gtb_ltb.
  replace ((len s - 1 <? lo) || (hi <? 0)) with true; [done|].
  destruct (Z.ltb_spec (len s - 1) lo), (Z.ltb_spec hi 0); simpl; lia.
Qed.

Section Composition.
Hypothesis Hcomp : delta_composes_at_1.

Lemma reach_holds A s : reach A s -> holds A s.
Proof.
  induction 1 as [n v s E|arr s E
                 |A s lo hi d s' _ IH Hr E|A s i d s' _ IH Hr E
                 |A s lo hi r s' _ IH Hr E|A s i x s' _ IH Hr E].
  - apply segment_tree_fill_inv in E as [_ E].
    by apply segment_tree_range_inv.
  - by apply segment_tree_range_inv.
  - destruct (update_holds Hcomp A s lo hi d IH) as (s1 & E1 & Hh).
    rewrite E in E1. by injection E1 as <-.
  - destruct (update_at_holds Hcomp A s i d IH) as (s1 & E1 & Hh).
    rewrite E in E1. by injection E1 as <-.
  - destruct (query_holds Hcomp A s lo hi IH Hr) as (r1 & s1 & E1 & Hh).
    rewrite E in E1. by injection E1 as <- <-.
  - destruct (at_holds Hcomp A s i IH Hr) as (r1 & s1 & E1 & _ & Hh).
    rewrite E in E1. by injection E1 as <- <-.
Qed.

End Composition.

Section Laws.
Hypothesis Hdist : delta_distributes.
Hypothesis Hcomp : delta_composes.

Lemma query_keeps_aggregated s lo hi r s' :
  wf s -> aggregated s -> 0 <= lo <= hi /\ hi < len s ->
  query lo hi s = Ok (r, s') -> aggregated s'.
Proof.
  intros Hwf Hagg Hr E. pose proof Hwf as (_ & _ & _ & _ & t & Hrep & _).
  destruct (query_rec_rep (budget s) s t 0 0 (len s - 1) lo hi Hrep
              ltac:(lia) (wf_budget _ Hwf))
    as (r1 & t' & s1 & E1 & Hrep' & Hq).
  unfold query in E. rewrite E in E1. injection E1 as <- <-.
  destruct (query_rec_modifies _ _ _ _ _ _ _ _ _ E) as [(Hlen & _) _].
  intros t'' Hrep''. rewrite Hlen in *.
  rewrite <- (rep_functional _ _ _ _ _ _ Hrep' Hrep'').
  eapply (tq_good Hdist Hcomp); [done|by eapply rep_shaped|by apply Hagg].
Qed.

Lemma update_keeps_aggregated s lo hi d s' :
  wf s -> aggregated s -> update lo hi d s = Ok (tt, s') -> aggregated s'.
Proof.
  intros Hwf Hagg E. pose proof Hwf as (_ & _ & _ & _ & t & Hrep & _).
  destruct (update_rec_rep (budget s) s t 0 0 (len s - 1) lo hi d Hrep
              (wf_budget _ Hwf))
    as (t' & s1 & E1 & Hrep' & Hu).
  unfold update in E. rewrite E in E1. injection E1 as <-.
  destruct (update_rec_modifies _ _ _ _ _ _ _ _ _ _ E) as [(Hlen & _) _].
  intros t'' Hrep''. rewrite Hlen in *.
  rewrite <- (rep_functional _ _ _ _ _ _ Hrep' Hrep'').
  eapply (tu_good Hdist Hcomp); [done|by eapply rep_shaped|by apply Hagg].
Qed.

Lemma reach_aggregated A s : reach A s -> aggregated s.
Proof.
  induction 1 as [n v s E|arr s E
                 |A s lo hi d s' Hre IH Hr E|A s i d s' Hre IH Hr E
                 |A s lo hi r s' Hre IH Hr E|A s i x s' Hre IH Hr E].
  - apply segment_tree_fill_inv in E as [_ E].
    by eapply segment_tree_range_aggregated.
  - by eapply segment_tree_range_aggregated.
  - eapply update_keeps_aggregated; [by eapply reach_wf|done..].
  - eapply update_keeps_aggregated; [by eapply reach_wf|done..].
  - eapply query_keeps_aggregated; [by eapply reach_wf|done..].
  - eapply (query_keeps_aggregated s i i); [by eapply reach_wf|done| |done].
    unfold size in Hr. lia.
Qed.

Hypothesis Hassoc : join_assoc.

(** An in-range [query] returns the join of the logical array over the
    target range. *)
Lemma query_result A s lo hi r s' :
  holds A s -> aggregated s -> 0 <= lo <= hi /\ hi < len s ->
  query lo hi s = Ok (r, s') -> r = array_join A lo hi.
Proof.
  intros Hh Hagg Hr E.
  pose proof Hh as (_ & _ & _ & _ & _ & t & Hrep & Hc & Hv).
  destruct (query_rec_rep (budget s) s t 0 0 (len s - 1) lo hi Hrep
              ltac:(lia) (holds_budget _ _ Hh))
    as (r1 & t' & s1 & E1 & Hrep' & Hq).
  unfold query in E. rewrite E in E1. injection E1 as <- <-.
  rewrite (tq_result Hassoc Hdist Hcomp _ _ _ _ _ _ _ Hq
             (rep_shaped _ _ _ _ _ Hrep) (Hagg _ Hrep) ltac:(lia)).
  apply range_join_ext; [lia|]. intros j Hj. by rewrite Hv by lia.
Qed.

End Laws.

(** ** Pushing every pending delta down *)

Lemma push_all_modifies fuel i lo hi :
  modifies (under i) (push_all fuel i lo hi).
Proof.
  revert i lo hi. induction fuel as [|fuel IH]; intros; simpl.
  - apply modifies_out_of_fuel.
  - repeat first
      [ eapply modifies_weaken;
          [apply IH | apply under_kid; lia]
      | eapply modifies_weaken;
          [apply update_delta_modifies
          | intros k [-> | [-> | ->] ]; repeat constructor ]
      | modifies_step
      | apply under_self ].
Qed.

Lemma push_all_rep fuel : forall s t i lo hi,
  rep s t i lo hi -> hi - lo < Z.of_nat fuel ->
  exists t' s', push_all fuel i lo hi s = Ok (tt, s') /\
    rep s' t' i lo hi /\ tp t lo hi t'.
Proof.
  induction fuel as [|fuel IH]; intros s t i lo hi Hrep Hfuel.
  { destruct (rep_nonneg _ _ _ _ _ Hrep). lia. }
  destruct (rep_nonneg _ _ _ _ _ Hrep) as [Hi Hlohi].
  cbn [push_all].
  rewrite (bind_ok _ _ _ _ _ (get_delta_ok _ _ _ (rep_root _ _ _ _ _ Hrep))).
  destruct (update_delta_rep s t i lo hi (cdelta (root t)) Hrep)
    as (s1 & E1 & Hrep1).
  rewrite (bind_ok _ _ _ _ _ E1).
  destruct t as [c|c l r].
  - simpl in Hrep. rewrite (proj2 (Z.eqb_eq lo hi)) by tauto.
    do 2 eexists. split; [done|]. split; [done|]. constructor.
  - assert (lo < hi) as Hlt by (simpl in Hrep; tauto).
    rewrite (proj2 (Z.eqb_neq lo hi)) by lia.
    destruct (t_update_delta_Node (cdelta c) (hi - lo + 1) c l r)
      as (c1 & l1 & r1 & Et).
    cbn [root] in *. rewrite Et in Hrep1.
    destruct Hrep1 as (_ & _ & Hc1 & _ & Hl1 & Hr1).
    pose proof (mid_bounds lo hi ltac:(lia) Hlt) as Hmid.
    destruct (IH s1 l1 (2*i + 1) lo ((lo + hi) ÷ 2) Hl1 ltac:(lia))
      as (l2 & s2 & E2 & Hl2 & Hp2).
    rewrite (bind_ok _ _ _ _ _ E2).
    destruct (rep_sibling _ _ _ _ _ i (2*i + 1) (2*i + 2) _ _ Hi
                ltac:(lia) (push_all_modifies _ _ _ _) E2 Hr1)
      as [Hr2 Hc2].
    destruct (IH s2 r1 (2*i + 2) ((lo + hi) ÷ 2 + 1) hi Hr2 ltac:(lia))
      as (r2 & s3 & E3 & Hr3 & Hp3).
    destruct (rep_sibling _ _ _ _ _ i (2*i + 2) (2*i + 1) _ _ Hi
                ltac:(lia) (push_all_modifies _ _ _ _) E3 Hl2)
      as [Hl3 Hc3].
    exists (Node c1 l2 r2), s3. split; [done|]. split.
    + simpl. repeat split; try done; try lia. by rewrite Hc3, Hc2.
    + by eapply tp_node.
Qed.

(** Inside a settled tree every node of the layout is a settled subtree
    with the same logical values. *)
Lemma settled_node (s : st) t n i lo hi :
  rep s t 0 0 (n - 1) -> settled t -> node_of n i lo hi ->
  exists t', rep s t' i lo hi /\ settled t' /\
    forall j, lo <= j <= hi -> val t' lo hi j = val t 0 (n - 1) j.
Proof.
  intros Hrep Hset Hnode.
  induction Hnode as [|i lo hi Hnode IH Hlt|i lo hi Hnode IH Hlt].
  - by exists t.
  - destruct IH as ([c|c l r] & Hr & Hs & Hv); [simpl in Hr; lia|].
    pose proof (mid_bounds lo hi ltac:(simpl in Hr; lia) Hlt) as Hmid.
    exists l. simpl in Hr, Hs. split; [tauto|]. split; [tauto|].
    intros j Hj. rewrite <- Hv by lia.
    rewrite val_clear_node by tauto.
    by rewrite (proj2 (Z.leb_le _ _)) by lia.
  - destruct IH as ([c|c l r] & Hr & Hs & Hv); [simpl in Hr; lia|].
    pose proof (mid_bounds lo hi ltac:(simpl in Hr; lia) Hlt) as Hmid.
    exists r. simpl in Hr, Hs. split; [tauto|]. split; [tauto|].
    intros j Hj. rewrite <- Hv by lia.
    rewrite val_clear_node by tauto.
    by rewrite (proj2 (Z.leb_gt _ _)) by lia.
Qed.

(** ** Sequences of update calls *)

Lemma lookup_apply_range_nat lo hi d (A : list T) i x :
  A !! i = Some x ->
  apply_range lo hi d A !! i
  = Some (if decide (lo <= Z.of_nat i <= hi)
          then join_value_with_delta x d 1 else x).
Proof.
  intros Hx.
  pose proof (lookup_apply_range lo hi d A (Z.of_nat i) x) as H.
  rewrite Nat2Z.id in H. apply H; [lia|done].
Qed.

Lemma constructed_holds A s : constructed A s -> holds A s.
Proof.
  intros [E|(n & v & -> & E)].
  - by apply segment_tree_range_inv.
  - apply segment_tree_fill_inv in E as [_ E].
    by apply segment_tree_range_inv.
Qed.

Section Composition.
Hypothesis Hcomp : delta_composes_at_1.

Lemma run_calls_holds : forall cs A s0,
  holds A s0 ->
  exists s A', run_calls cs s0 = Ok (tt, s) /\ holds A' s /\
    forall i v0, A !! i = Some v0 ->
      A' !! i = Some (logical_value cs (Z.of_nat i) v0).
Proof.
  induction cs as [|c cs IH]; intros A s0 Hh.
  - exists s0, A. split; [done|]. split; [done|]. by intros i v0 ->.
  - assert (exists s1 A1, run_call c s0 = Ok (tt, s1) /\ holds A1 s1 /\
              forall i v0, A !! i = Some v0 ->
                A1 !! i = Some (apply_call (Z.of_nat i) v0 c))
      as (s1 & A1 & E1 & Hh1 & HA1).
    { destruct c as [lo hi d|k d]; simpl.
      - destruct (update_holds Hcomp A s0 lo hi d Hh) as (s1 & E1 & Hh1).
        exists s1, (apply_range lo hi d A). split; [done|]. split; [done|].
        intros i v0. apply lookup_apply_range_nat.
      - destruct (update_at_holds Hcomp A s0 k d Hh) as (s1 & E1 & Hh1).
        exists s1, (apply_range k k d A). split; [done|]. split; [done|].
        intros i v0. apply lookup_apply_range_nat. }
    destruct (IH A1 s1 Hh1) as (s & A' & E & Hh' & HA').
    exists s, A'. split; [|split; [done|]].
    + cbn [run_calls]. by rewrite (bind_ok _ _ _ _ _ E1).
    + intros i v0 Hv0. rewrite (HA' _ _ (HA1 _ _ Hv0)). done.
Qed.

Lemma point_updates_holds : forall k lo d A s,
  holds A s ->
  exists s' A', point_updates lo k d s = Ok (tt, s') /\ holds A' s' /\
    len s' = len s /\
    forall i x, A !! i = Some x ->
      A' !! i = Some (if decide (lo <= Z.of_nat i < lo + Z.of_nat k)
                      then join_value_with_delta x d 1 else x).
Proof.
  induction k as [|k IH]; intros lo d A s Hh.
  - exists s, A. split; [done|]. split; [done|]. split; [done|].
    intros i x Hx. by rewrite decide_False by lia.
  - destruct (update_at_holds Hcomp A s lo d Hh) as (s1 & E1 & Hh1).
    destruct (IH (lo + 1) d _ s1 Hh1) as (s' & A' & E & Hh' & Hlen & HA').
    exists s', A'. split; [|split; [done|split]].
    + cbn [point_updates]. by rewrite (bind_ok _ _ _ _ _ E1).
    + rewrite Hlen. destruct Hh as (-> & _), Hh1 as (-> & _).
      by rewrite length_apply_range.
    + intros i x Hx.
      rewrite (HA' i _ (lookup_apply_range_nat lo lo d A i x Hx)).
      f_equal. repeat case_decide; try done; lia.
Qed.

End Composition.

(** ** The contracts as the header comment words them *)

(** The laws the proofs use give the documented ones. *)
Lemma distributes_documented : delta_distributes -> documented_contract_2.
Proof.
  intros Hdist v d m. induction m as [|m IH]; simpl; [done|].
  replace (Z.of_nat (S m) + 1) with (1 + (Z.of_nat m + 1)) by lia.
  rewrite Hdist by lia. by rewrite IH.
Qed.

Lemma composes_documented : delta_composes_at_1 -> documented_contract_3.
Proof.
  intros Hcomp v d ds. revert v d. induction ds as [|e ds IH]; intros v d.
  - done.
  - simpl. by rewrite IH, Hcomp.
Qed.

Lemma documented_composes : documented_contract_3 -> delta_composes_at_1.
Proof. intros H v d1 d2. symmetry. apply (H v d1 [d2]). Qed.

(** ** The specification *)

Lemma node_of_bounds n i lo hi :
  1 <= n -> node_of n i lo hi -> 0 <= i /\ 0 <= lo <= hi /\ hi <= n - 1.
Proof.
  intros Hn. induction 1 as [|i lo hi _ IH Hlt|i lo hi _ IH Hlt].
  - lia.
  - pose proof (mid_bounds lo hi ltac:(lia) Hlt). lia.
  - pose proof (mid_bounds lo hi ltac:(lia) Hlt). lia.
Qed.

(** C2, as the code has it: [update] validates nothing and raises no
    OutOfRange.  From any reachable state and for arbitrary integers
    [lo], [hi], the call returns normally; when the range misses
    [[0, n-1]] altogether ([hi < 0] or [lo >= n], as in [update(n, 0,
    d)]) the whole state is unchanged; and in general (for operators
    under the composition contract) [d] has afterwards been joined into
    exactly those positions of the array that lie in [[lo, hi]]. *)
Theorem update_unvalidated (A : list T) (s : st) (lo hi : Z) (d : T) :
  reach A s ->
  exists s', update lo hi d s = Ok (tt, s') /\
    (hi < 0 \/ size s <= lo -> s' = s) /\
    (delta_composes_at_1 ->
     forall i x, A !! i = Some x ->
       exists s'', at_ (Z.of_nat i) s'
                   = Ok (if decide (lo <= Z.of_nat i <= hi)
                         then join_value_with_delta x d 1 else x, s'')).
Proof.
  intros Hre. pose proof (reach_wf A s Hre) as Hwf.
  destruct (update_wf s lo hi d Hwf) as (s' & E & _).
  exists s'. split; [done|]. split.
  - intros Hout. rewrite (update_outside_id s lo hi d Hwf Hout) in E.
    by injection E.
  - intros Hcomp i x Hx. pose proof (reach_holds Hcomp A s Hre) as Hh.
    destruct (update_holds Hcomp A s lo hi d Hh) as (s1 & E1 & Hh').
    rewrite E in E1. injection E1 as <-.
    pose proof (lookup_lt_Some _ _ _ Hx) as Hi.
    destruct (at_holds Hcomp _ s' (Z.of_nat i) Hh') as (y & s'' & E' & Hy & _).
    { destruct Hh' as (Hlen & _). rewrite Hlen, length_apply_range. lia. }
    rewrite Nat2Z.id, (lookup_apply_range_nat lo hi d A i x Hx) in Hy.
    injection Hy as <-. by exists s''.
Qed.

(** C3, for the sizes the code supports: for every [n >= 1] whose
    fourfold [4*n], the length the constructor asks [resize] for, is an
    [int] (that is, [n < 2^29]) and every fill value [v], the
    constructor returns a structure of size [n] in which [at(i)] is [v]
    for every [0 <= i < n]. *)
Theorem segment_tree_fill_spec (n : Z) (v : T) :
  1 <= n -> 4 * n <= INT_MAX ->
  exists s, segment_tree_fill n v = Ok s /\ size s = n /\
    forall i, 0 <= i < n -> exists s', at_ i s = Ok (v, s').
Proof.
  intros Hn Hfit. rewrite fill_as_range by done.
  destruct (segment_tree_range_built (replicate (Z.to_nat n) v))
    as (s & t & E & Hh & _).
  { destruct (Z.to_nat n) eqn:En; [lia|done]. }
  { rewrite length_replicate. lia. }
  exists s. split; [done|]. split.
  - unfold size. destruct Hh as (-> & _). rewrite length_replicate. lia.
  - intros i Hi.
    destruct (at_built (replicate (Z.to_nat n) v) s (Z.to_nat i) v E)
      as (s' & E').
    { apply lookup_replicate_2. lia. }
    exists s'. by rewrite Z2Nat.id in E' by lia.
Qed.


(** C5: in every reachable state, for operators that satisfy the
    contracts, a query over [[lo, hi]] equals [join_values] of the
    queries over [[lo, mid]] and [[mid+1, hi]] run afterwards on the same
    object. *)
Theorem query_splits (A : list T) (s : st) (lo mid hi : Z) :
  join_assoc -> delta_distributes -> delta_composes ->
  reach A s -> 0 <= lo <= mid /\ mid < hi /\ hi < size s ->
  exists r s1 r1 s2 r2 s3,
    query lo hi s = Ok (r, s1) /\
    query lo mid s1 = Ok (r1, s2) /\
    query (mid + 1) hi s2 = Ok (r2, s3) /\
    r = join_values r1 r2.
Proof.
  intros Hassoc Hdist Hcomp Hre Hr. unfold size in Hr.
  pose proof (delta_composes_1 Hcomp) as Hcomp1.
  pose proof (reach_holds Hcomp1 A s Hre) as Hh.
  pose proof (reach_aggregated Hdist Hcomp A s Hre) as Hagg.
  destruct (query_holds Hcomp1 A s lo hi Hh ltac:(lia)) as (r & s1 & E & Hh1).
  pose proof (query_keeps_aggregated Hdist Hcomp s lo hi r s1
                (holds_wf _ _ Hh) Hagg ltac:(lia) E) as Hagg1.
  assert (len s1 = len s) as Hlen1
    by (destruct Hh as (-> & _), Hh1 as (-> & _); done).
  destruct (query_holds Hcomp1 A s1 lo mid Hh1 ltac:(lia))
    as (r1 & s2 & E1 & Hh2).
  pose proof (query_keeps_aggregated Hdist Hcomp s1 lo mid r1 s2
                (holds_wf _ _ Hh1) Hagg1 ltac:(lia) E1) as Hagg2.
  assert (len s2 = len s) as Hlen2
    by (destruct Hh as (-> & _), Hh2 as (-> & _); done).
  destruct (query_holds Hcomp1 A s2 (mid + 1) hi Hh2 ltac:(lia))
    as (r2 & s3 & E2 & Hh3).
  exists r, s1, r1, s2, r2, s3. repeat split; try done.
  rewrite (query_result Hdist Hcomp Hassoc A s lo hi r s1 Hh Hagg ltac:(lia) E).
  rewrite (query_result Hdist Hcomp Hassoc A s1 lo mid r1 s2 Hh1 Hagg1
             ltac:(lia) E1).
  rewrite (query_result Hdist Hcomp Hassoc A s2 (mid + 1) hi r2 s3 Hh2 Hagg2
             ltac:(lia) E2).
  apply (range_join_split Hassoc). lia.
Qed.

(** C6: for delta operators that satisfy the contracts, [update(lo, hi,
    d)] and the point updates [update(i, d)] for [i = lo..hi], each
    applied to the same reachable state, give the same [at(i)] at every
    [i] in [[lo, hi]]. *)
Theorem range_update_as_point_updates (A : list T) (s : st) (lo hi : Z) (d : T) :
  delta_composes_at_1 -> reach A s -> 0 <= lo <= hi /\ hi < size s ->
  exists s1 s2,
    update lo hi d s = Ok (tt, s1) /\
    point_updates lo (Z.to_nat (hi - lo + 1)) d s = Ok (tt, s2) /\
    forall i, lo <= i <= hi ->
      exists x s1' s2', at_ i s1 = Ok (x, s1') /\ at_ i s2 = Ok (x, s2').
Proof.
  intros Hcomp Hre Hr. unfold size in Hr.
  pose proof (reach_holds Hcomp A s Hre) as Hh.
  destruct (update_holds Hcomp A s lo hi d Hh) as (s1 & E1 & Hh1).
  destruct (point_updates_holds Hcomp (Z.to_nat (hi - lo + 1)) lo d A s Hh)
    as (s2 & A2 & E2 & Hh2 & Hlen2 & HA2).
  exists s1, s2. split; [done|]. split; [done|]. intros i Hi.
  assert (len s = Z.of_nat (length A)) as Hlen by apply Hh.
  destruct (lookup_lt_is_Some_2 A (Z.to_nat i) ltac:(lia)) as [x Hx].
  assert (len s1 = len s) as Hlen1.
  { destruct Hh1 as (-> & _). by rewrite length_apply_range. }
  destruct (at_holds Hcomp _ s1 i Hh1 ltac:(lia)) as (x1 & s1' & Ea & Hx1 & _).
  destruct (at_holds Hcomp _ s2 i Hh2 ltac:(lia)) as (x2 & s2' & Eb & Hx2 & _).
  rewrite (lookup_apply_range lo hi d A i x ltac:(lia) Hx) in Hx1.
  rewrite (HA2 _ _ Hx) in Hx2.
  rewrite decide_True in Hx1 by lia. rewrite decide_True in Hx2 by lia.
  injection Hx1 as <-. injection Hx2 as <-.
  by exists (join_value_with_delta x d 1), s1', s2'.
Qed.
(** C8: in every reachable state, for operators that satisfy the
    contracts, pushing every pending delta down to the leaves succeeds and
    leaves no pending flag, every leaf equal to its position of the
    logical array, and every inner node equal to [join_values] of its two
    children. *)
Theorem lazy_invariant (A : list T) (s : st) :
  delta_distributes -> delta_composes -> reach A s ->
  exists s', flush s = Ok (tt, s') /\
    forall i lo hi, node_of (size s) i lo hi ->
      vget (pending s') i = Some false /\
      (lo = hi -> vget (value s') i = A !! Z.to_nat lo) /\
      (lo < hi ->
         exists a b, vget (value s') (2*i + 1) = Some a /\
           vget (value s') (2*i + 2) = Some b /\
           vget (value s') i = Some (join_values a b)).
Proof.
  intros Hdist Hcomp Hre. unfold size, flush.
  pose proof (delta_composes_1 Hcomp) as Hcomp1.
  pose proof (reach_holds Hcomp1 A s Hre) as Hh.
  pose proof (reach_aggregated Hdist Hcomp A s Hre) as Hagg.
  pose proof Hh as (_ & Hn & _ & _ & _ & t & Hrep & _ & Hv).
  destruct (push_all_rep (budget s) s t 0 0 (len s - 1) Hrep
              (holds_budget _ _ Hh))
    as (t' & s' & E & Hrep' & Hp).
  exists s'. split; [done|]. intros i lo hi Hnode.
  pose proof (rep_shaped _ _ _ _ _ Hrep) as Hsh.
  destruct (tp_settled Hdist Hcomp _ _ _ _ Hp Hsh (Hagg _ Hrep))
    as (Hset & _ & _ & Hval).
  destruct (node_of_bounds _ _ _ _ Hn Hnode) as (Hi & Hlohi & Hhi).
  destruct (settled_node s' t' (len s) i lo hi Hrep' Hset Hnode)
    as (ti & Hri & Hsi & Hvi).
  pose proof (peek_Some _ _ _ (rep_root _ _ _ _ _ Hri)) as (Hpv & _ & Hpp).
  split; [|split].
  - rewrite Hpp. f_equal. destruct ti; simpl in Hsi; tauto.
  - intros <-. rewrite Hpv, Hv by lia. f_equal.
    rewrite <- Hval, <- Hvi by lia.
    destruct ti as [c|c l r]; [|simpl in Hri; lia].
    simpl in *. unfold app_cell. by rewrite (proj1 Hsi).
  - intros Hlt. destruct ti as [c|c l r]; [simpl in Hri; lia|].
    simpl in Hri, Hsi. destruct Hri as (_ & _ & _ & _ & Hl & Hr).
    pose proof (peek_Some _ _ _ (rep_root _ _ _ _ _ Hl)) as (Hlv & _).
    pose proof (peek_Some _ _ _ (rep_root _ _ _ _ _ Hr)) as (Hrv & _).
    exists (cval (root l)), (cval (root r)).
    split; [done|]. split; [done|]. rewrite Hpv. simpl. f_equal. tauto.
Qed.

(** C9: a query with in-range arguments on a reachable state leaves the
    logical array as it was: [at(j)] returns the same value just before
    and just after the query, at every index [j]. *)
Theorem query_keeps_logical_array (A : list T) (s : st) (lo hi : Z) :
  delta_composes_at_1 -> reach A s -> 0 <= lo <= hi /\ hi < size s ->
  exists r s', query lo hi s = Ok (r, s') /\
    forall j, 0 <= j < size s ->
      exists x s1 s2, at_ j s = Ok (x, s1) /\ at_ j s' = Ok (x, s2).
Proof.
  intros Hcomp Hre Hr. unfold size in *.
  pose proof (reach_holds Hcomp A s Hre) as Hh.
  destruct (query_holds Hcomp A s lo hi Hh Hr) as (r & s' & E & Hh').
  exists r, s'. split; [done|]. intros j Hj.
  assert (len s' = len s) as Hlen
    by (destruct Hh as (-> & _), Hh' as (-> & _); done).
  destruct (at_holds Hcomp A s j Hh Hj) as (x & s1 & E1 & Hx & _).
  destruct (at_holds Hcomp A s' j Hh' ltac:(lia)) as (y & s2 & E2 & Hy & _).
  rewrite Hx in Hy. injection Hy as <-. by exists x, s1, s2.
Qed.

(** C10, for the sizes the code supports: for [n >= 1] with [4n] an
    [int] both constructors return, the three vectors have [4n] slots in
    every reachable state of an [n]-element structure, and every call
    with in-range arguments on such a state returns.  In the model an
    index outside a vector ends the call in [Fault], so a call that
    returns has used indices from [[0, 4n)] only. *)
Theorem indices_stay_in_allocation (n : Z) :
  1 <= n -> 4 * n <= INT_MAX ->
  (forall v, exists s, segment_tree_fill n v = Ok s) /\
  (forall arr, Z.of_nat (length arr) = n ->
     exists s, segment_tree_range arr = Ok s) /\
  forall A s, reach A s -> size s = n ->
    (Z.of_nat (length (value s)) = 4 * n /\
     Z.of_nat (length (delta s)) = 4 * n /\
     Z.of_nat (length (pending s)) = 4 * n) /\
    (forall lo hi, 0 <= lo <= hi /\ hi < n ->
       exists r s', query lo hi s = Ok (r, s')) /\
    (forall i, 0 <= i < n -> exists x s', at_ i s = Ok (x, s')) /\
    (forall lo hi d, 0 <= lo <= hi /\ hi < n ->
       exists s', update lo hi d s = Ok (tt, s')) /\
    (forall i d, 0 <= i < n -> exists s', update_at i d s = Ok (tt, s')).
Proof.
  intros Hn Hfit. split; [|split].
  - intros v. rewrite fill_as_range by done.
    destruct (segment_tree_range_built (replicate (Z.to_nat n) v))
      as (s & _ & E & _).
    { destruct (Z.to_nat n) eqn:En; [lia|done]. }
    { rewrite length_replicate. lia. }
    by exists s.
  - intros arr Hlen.
    destruct (segment_tree_range_built arr) as (s & _ & E & _).
    { intros ->. simpl in Hlen. lia. }
    { lia. }
    by exists s.
  - intros A s Hre Hsize. unfold size in Hsize. subst n.
    pose proof (reach_wf A s Hre) as Hwf.
    pose proof Hwf as (_ & Hv & Hd & Hp & _).
    split; [rewrite Hd, Hp; done|]. split; [|split; [|split]].
    + intros lo hi Hr. destruct (query_wf s lo hi Hwf Hr) as (r & s' & E & _).
      by exists r, s'.
    + intros i Hi.
      destruct (query_wf s i i Hwf ltac:(lia)) as (r & s' & E & _).
      by exists r, s'.
    + intros lo hi d _. destruct (update_wf s lo hi d Hwf) as (s' & E & _).
      by exists s'.
    + intros i d _. destruct (update_wf s i i d Hwf) as (s' & E & _).
      by exists s'.
Qed.
(** ** Further properties of the member functions *)

(** *** Target ranges that leave the array *)

(** A target that ends beyond the node's span is passed down the right
    spine unchanged: the call never reaches [return value[i]]. *)
Lemma query_rec_above fuel : forall i lo hi tlo thi s x,
  0 <= lo <= hi + 1 -> 0 <= hi < thi ->
  query_rec fuel i lo hi tlo thi s <> Ok x.
Proof.
  induction fuel as [|fuel IH]; intros i lo hi tlo thi s [r s'] Hlo Hhi E;
    [done|].
  simpl in E.
  apply bind_inv in E as (d & s1 & _ & E).
  apply bind_inv in E as ([] & s2 & _ & E).
  assert ((lo + hi) ÷ 2 <= hi /\ 0 <= (lo + hi) ÷ 2) as [Hmid Hmid0].
  { rewrite Z.quot_div_nonneg by lia.
    pose proof (Z.div_mod (lo + hi) 2 ltac:(lia)).
    pose proof (Z.mod_pos_bound (lo + hi) 2 ltac:(lia)). lia. }
  destruct (Z.eqb_spec hi thi) as [->|_]; [lia|].
  rewrite andb_false_r in E. cbv zeta in E.
  destruct (Z.leb_spec tlo ((lo + hi) ÷ 2)) as [Hl|Hl];
    destruct (Z.ltb_spec ((lo + hi) ÷ 2) thi) as [Hr|Hr]; simpl in E; try lia.
  - apply bind_inv in E as (a & s3 & _ & E).
    apply bind_inv in E as (b & s4 & E & _).
    by apply IH in E; [|lia..].
  - by apply IH in E; [|lia..].
Qed.

(** A target that starts before the node's span is passed down the left
    spine unchanged. *)
Lemma query_rec_below fuel : forall i lo hi tlo thi s x,
  0 <= lo <= hi -> tlo < lo ->
  query_rec fuel i lo hi tlo thi s <> Ok x.
Proof.
  induction fuel as [|fuel IH]; intros i lo hi tlo thi s [r s'] Hlo Hhi E;
    [done|].
  simpl in E.
  apply bind_inv in E as (d & s1 & _ & E).
  apply bind_inv in E as ([] & s2 & _ & E).
  assert (lo <= (lo + hi) ÷ 2 <= hi) as Hmid.
  { rewrite Z.quot_div_nonneg by lia.
    pose proof (Z.div_mod (lo + hi) 2 ltac:(lia)).
    pose proof (Z.mod_pos_bound (lo + hi) 2 ltac:(lia)). lia. }
  destruct (Z.eqb_spec lo tlo) as [->|_]; [lia|].
  rewrite andb_false_l in E. cbv zeta in E.
  destruct (Z.leb_spec tlo ((lo + hi) ÷ 2)) as [Hl|Hl]; [|lia].
  destruct (Z.ltb_spec ((lo + hi) ÷ 2) thi) as [Hr|Hr]; simpl in E.
  - apply bind_inv in E as (a & s3 & E & _).
    by apply IH in E; [|lia..].
  - by apply IH in E; [|lia..].
Qed.

(** X1: [query(lo, hi)] with [lo < 0] or [hi >= size()], and so [at(i)] with
    [i] outside [[0, size()-1]], never returns a value: the recursion
    walks down past a leaf and on, to a slot beyond the vectors. *)
Theorem reads_outside_the_array_fault (s : st) :
  1 <= size s ->
  (forall lo hi, lo < 0 \/ size s <= hi -> query lo hi s = Fault) /\
  (forall i, i < 0 \/ size s <= i -> at_ i s = Fault).
Proof.
  intros Hn. unfold size in Hn.
  assert (forall lo hi, lo < 0 \/ len s <= hi -> query lo hi s = Fault) as H.
  { intros lo hi Hout. pose proof (query_never_exhausts lo hi s) as Hf.
    destruct (query lo hi s) as [x| |] eqn:E; [|done..]. exfalso.
    unfold query in E. destruct Hout as [Hlo|Hhi].
    - by apply query_rec_below in E; [|lia..].
    - by apply query_rec_above in E; [|lia..]. }
  split; [done|]. intros i Hi. by apply H.
Qed.

(** *** The size *)


(** *** The sizes a structure can be constructed with *)

(** X3: The constructors return an object exactly for a size between 1
    and [INT_MAX / 4].  Given [n <= 0], or an empty range, they do not
    ([build] writes into vectors of length zero, or [resize] is given a
    negative size); given [2^29] elements or more they do not either
    ([4*len] overflows).  For a range this is stated up to [INT_MAX]
    elements, the lengths that [len] can hold. *)
Theorem construction_supported_sizes :
  (forall n v, if decide (1 <= n /\ 4 * n <= INT_MAX)
               then exists s : st, segment_tree_fill n v = Ok s
               else segment_tree_fill n v = Fault) /\
  (forall arr : list T,
     match arr with
     | [] => segment_tree_range arr = Fault
     | _ :: _ =>
         if decide (4 * Z.of_nat (length arr) <= INT_MAX)
         then exists s : st, segment_tree_range arr = Ok s
         else Z.of_nat (length arr) <= INT_MAX ->
              segment_tree_range arr = Fault
     end).
Proof.
  split.
  - intros n v. case_decide as Hn.
    + destruct Hn as [Hn Hfit]. rewrite fill_as_range by done.
      destruct (segment_tree_range_built (replicate (Z.to_nat n) v))
        as (s & _ & E & _); [| |by exists s].
      * destruct (Z.to_nat n) eqn:En; [lia|done].
      * rewrite length_replicate. lia.
    + destruct (decide (n <= 0)); [by apply segment_tree_fill_nonpos|].
      unfold segment_tree_fill, run_ctor.
      rewrite allocate_overflow; [done|lia].
  - intros [|x arr]; [apply segment_tree_range_nil|].
    case_decide as Hfit.
    + destruct (segment_tree_range_built (x :: arr)) as (s & _ & E & _);
        [done|done|by exists s].
    + intros _. unfold segment_tree_range, run_ctor.
      rewrite allocate_overflow; [done|lia].
Qed.

(** *** Queries against the logical array *)

Lemma reach_query_result (A : list T) (s : st) (lo hi : Z) :
  join_assoc -> delta_distributes -> delta_composes ->
  reach A s -> 0 <= lo <= hi /\ hi < size s ->
  exists s', query lo hi s = Ok (array_join A lo hi, s') /\ reach A s'.
Proof.
  intros Hassoc Hdist Hcomp Hre Hr.
  pose proof (delta_composes_1 Hcomp) as Hcomp1.
  pose proof (reach_holds Hcomp1 A s Hre) as Hh.
  pose proof (reach_aggregated Hdist Hcomp A s Hre) as Hagg.
  destruct (query_holds Hcomp1 A s lo hi Hh Hr) as (r & s' & E & _).
  exists s'.
  rewrite <- (query_result Hdist Hcomp Hassoc A s lo hi r s' Hh Hagg Hr E).
  split; [done|]. by eapply reach_query.
Qed.

(** X4: In every reachable state, under the operator contracts, an in-range
    [query(lo, hi)] returns [join_values] over the elements [lo..hi] of
    the logical array. *)
Theorem query_joins_the_range (A : list T) (s : st) (lo hi : Z) :
  join_assoc -> delta_distributes -> delta_composes ->
  reach A s -> 0 <= lo <= hi /\ hi < size s ->
  exists s', query lo hi s = Ok (array_join A lo hi, s').
Proof.
  intros Hassoc Hdist Hcomp Hre Hr.
  destruct (reach_query_result A s lo hi Hassoc Hdist Hcomp Hre Hr)
    as (s' & E & _).
  by exists s'.
Qed.

(** *** A query asked again *)

Lemma update_delta_settles i d lo hi (s s' : st) :
  update_delta i d lo hi s = Ok (tt, s') -> vget (pending s') i = Some false.
Proof.
  unfold update_delta. intros E.
  apply bind_inv in E as (p & s1 & _ & E).
  apply bind_inv in E as ([] & s2 & _ & E).
  unfold set_pending in E.
  destruct (vset (pending s2) i false) as [l|] eqn:El; [|done].
  injection E as <-. simpl. by eapply vget_vset_eq.
Qed.

Lemma update_delta_quiet i d lo hi (s : st) :
  vget (pending s) i = Some false -> update_delta i d lo hi s = Ok (tt, s).
Proof.
  intros H. unfold update_delta, bind, get_pending, ret, set_pending.
  rewrite H. rewrite (vset_same _ _ _ H). by destruct s.
Qed.

(** A computation local to the slots [P] that leaves a state as it is
    does the same from every state that has those slots. *)
Lemma idle_elsewhere {A} (P : Z -> Prop) (m : M st A) (s2 s3 : st) a :
  local P m -> modifies P m -> (forall k, P k \/ ~ P k) ->
  m s2 = Ok (a, s2) -> (forall k, P k -> agree k s2 s3) ->
  m s3 = Ok (a, s3).
Proof.
  intros Hl Hm Hdec E Hag.
  pose proof (Hl s2 s3 Hag) as H. rewrite E in H.
  destruct (m s3) as [[a' s3']| |] eqn:E3; [|done..].
  destruct H as [<- Hk]. do 2 f_equal. symmetry.
  destruct (Hm _ _ _ E3) as [Hd Hf].
  apply state_ext; [done|]. intros k.
  destruct (Hdec k) as [HP|HP]; [|by apply Hf].
  pose proof (Hag k HP) as H1. pose proof (Hk k H1) as H2.
  unfold agree in *. intuition congruence.
Qed.

Lemma query_rec_again fuel : forall i lo hi tlo thi (s : st) r s',
  0 <= i ->
  query_rec fuel i lo hi tlo thi s = Ok (r, s') ->
  query_rec fuel i lo hi tlo thi s' = Ok (r, s').
Proof.
  induction fuel as [|fuel IH]; intros i lo hi tlo thi s r s' Hi E; [done|].
  destruct (query_rec_modifies _ _ _ _ _ _ _ _ _ E) as [Hd _].
  simpl in E.
  apply bind_inv in E as (d & s0 & Ed & E).
  apply bind_inv in E as ([] & s1 & Eu & E).
  pose proof (update_delta_settles _ _ _ _ _ _ Eu) as Hp1.
  assert (is_Some (vget (delta s') i)) as [d' Hd'].
  { unfold get_delta in Ed.
    destruct (vget (delta s) i) as [x|] eqn:Ex; [|done].
    apply vget_bound in Ex. apply vget_in_range.
    destruct Hd as (_ & _ & -> & _). done. }
  assert (forall j, j = 2*i + 1 \/ j = 2*i + 2 -> ~ under j i) as Hnot.
  { intros j Hj Hu%under_ge; lia. }
  assert (vget (pending s') i = Some false ->
          forall rest : M st T, rest s' = Ok (r, s') ->
          (d0 <- get_delta i ;; update_delta i d0 lo hi ;; rest) s'
          = Ok (r, s')) as Hgo.
  { intros Hp rest Hrest.
    assert (get_delta i s' = Ok (d', s')) as Eg
      by (unfold get_delta; by rewrite Hd').
    rewrite (bind_ok _ _ _ _ _ Eg).
    by rewrite (bind_ok _ _ _ _ _ (update_delta_quiet i d' lo hi s' Hp)). }
  simpl.
  destruct ((lo =? tlo) && (hi =? thi)).
  { assert (s' = s1) as ->.
    { unfold get_value in E. by destruct (vget (value s1) i); [injection E|]. }
    by apply Hgo. }
  cbv zeta in *.
  destruct ((tlo <=? (lo + hi) ÷ 2) && ((lo + hi) ÷ 2 <? thi)).
  - apply bind_inv in E as (a & s2 & El & E).
    apply bind_inv in E as (b & s3 & Er & E). injection E as <- <-.
    replace (i*2 + 1) with (2*i + 1) in * by lia.
    replace (i*2 + 2) with (2*i + 2) in * by lia.
    destruct (query_rec_modifies _ _ _ _ _ _ _ _ _ El) as [_ Hfl].
    destruct (query_rec_modifies _ _ _ _ _ _ _ _ _ Er) as [_ Hfr].
    apply Hgo.
    { destruct (Hfl i (Hnot _ (or_introl eq_refl))) as (_ & _ & H1).
      destruct (Hfr i (Hnot _ (or_intror eq_refl))) as (_ & _ & H2).
      congruence. }
    assert (0 <= 2*i + 1) as Hi1 by lia.
    assert (0 <= 2*i + 2) as Hi2 by lia.
    pose proof (IH _ _ _ _ _ _ _ _ Hi1 El) as El'.
    pose proof (IH _ _ _ _ _ _ _ _ Hi2 Er) as Er'.
    assert (query_rec fuel (2*i + 1) lo ((lo + hi) ÷ 2) tlo
              (Z.min thi ((lo + hi) ÷ 2)) s3 = Ok (a, s3)) as El3.
    { eapply (idle_elsewhere (under (2*i + 1)));
        [apply query_rec_local|apply query_rec_modifies
        |intros k; apply under_or_not; lia|exact El'|].
      intros k Hk. apply Hfr. intros Hk'.
      by eapply (under_children_disjoint i k). }
    rewrite (bind_ok _ _ _ _ _ El3), (bind_ok _ _ _ _ _ Er'). done.
  - destruct (tlo <=? (lo + hi) ÷ 2).
    + replace (i*2 + 1) with (2*i + 1) in * by lia.
      destruct (query_rec_modifies _ _ _ _ _ _ _ _ _ E) as [_ Hf].
      apply Hgo; [|by eapply IH; [|exact E]; lia].
      destruct (Hf i (Hnot _ (or_introl eq_refl))) as (_ & _ & H1).
      congruence.
    + replace (i*2 + 2) with (2*i + 2) in * by lia.
      destruct (query_rec_modifies _ _ _ _ _ _ _ _ _ E) as [_ Hf].
      apply Hgo; [|by eapply IH; [|exact E]; lia].
      destruct (Hf i (Hnot _ (or_intror eq_refl))) as (_ & _ & H1).
      congruence.
Qed.

(** X5: A query that has returned, asked again at once, returns the same
    value and leaves the object exactly as it found it: the deltas on
    its path have all been pushed.  This holds for every state and all
    arguments. *)
Theorem query_again_is_idle (s : st) (lo hi : Z) (r : T) (s' : st) :
  query lo hi s = Ok (r, s') -> query lo hi s' = Ok (r, s').
Proof.
  intros E. unfold query in *.
  destruct (query_rec_modifies _ _ _ _ _ _ _ _ _ E) as [(Hl & _ & Hd & _) _].
  unfold budget in *. rewrite Hl, Hd. by eapply query_rec_again; [|exact E].
Qed.

End Development.

(** ** The two instantiations *)

Lemma min_set_assoc : join_assoc (ops:=min_set).
Proof. intros a b c. simpl. lia. Qed.

Lemma min_set_distributes : delta_distributes (ops:=min_set).
Proof. intros a b d m1 m2 _ _. simpl. lia. Qed.

Lemma min_set_composes : delta_composes (ops:=min_set).
Proof. by intros v d1 d2 m _. Qed.

Lemma min_set_composes_at_1 : delta_composes_at_1 (ops:=min_set).
Proof. by intros v d1 d2. Qed.

Lemma sum_increment_assoc : join_assoc (ops:=sum_increment).
Proof. intros a b c. simpl. lia. Qed.

Lemma sum_increment_distributes : delta_distributes (ops:=sum_increment).
Proof. intros a b d m1 m2 _ _. simpl. lia. Qed.

Lemma sum_increment_composes : delta_composes (ops:=sum_increment).
Proof. intros v d1 d2 m _. simpl. lia. Qed.

Lemma join_copies_lumpy v m :
  join_copies (ops:=lumpy) v m = (Z.of_nat m + 1) * v.
Proof. induction m as [|m IH]; simpl in *; [lia|]. rewrite IH. lia. Qed.

Lemma lumpy_documented :
  join_assoc (ops:=lumpy) /\ documented_contract_1 (ops:=lumpy) /\
  documented_contract_2 (ops:=lumpy) /\ documented_contract_3 (ops:=lumpy).
Proof.
  split; [|split; [|split]].
  - intros a b c. simpl. lia.
  - intros d1 d2 d3. simpl. lia.
  - intros v d m. rewrite !join_copies_lumpy. cbn [join_value_with_delta lumpy].
    rewrite Z.mod_1_r. cbn [Z.eqb].
    rewrite Z.mul_comm, Z.mod_mul by lia. cbn [Z.eqb]. lia.
  - apply composes_documented. intros v d1 d2.
    cbn [join_value_with_delta join_deltas lumpy].
    rewrite !Z.mod_1_r. cbn [Z.eqb]. lia.
Qed.

Example lumpy_query_does_not_split :
  exists s0 s1 s2 s3 s4,
    segment_tree_range (ops:=lumpy) [1; 2] = Ok s0 /\
    update (ops:=lumpy) 0 1 1 s0 = Ok (tt, s1) /\
    query (ops:=lumpy) 0 1 s1 = Ok (3, s2) /\
    query (ops:=lumpy) 0 0 s2 = Ok (2, s3) /\
    query (ops:=lumpy) 1 1 s3 = Ok (3, s4).
Proof.
  do 5 eexists. do 4 (split; [vm_compute; reflexivity|]).
  vm_compute. reflexivity.
Qed.

(** ** The code as shipped: minimum queries, "set" updates *)

Section Default.
Local Existing Instance min_set.
Local Open Scope segm_scope.

(** C1: for the default instantiation, after either constructor and any
    sequence of update calls with in-range arguments, [at(i)] returns the
    logical value at [i]: the initial value with every update whose range
    contains [i] applied, in call order, by [join_value_with_delta]. *)
Theorem at_returns_logical_value
    (A : list Z) (s0 : segment_tree Z) (cs : list (update_call Z)) :
  constructed A s0 -> Forall (in_range (size s0)) cs ->
  exists s, run_calls cs s0 = Ok (tt, s) /\
    forall i v0, A !! i = Some v0 ->
      exists s', at_ (Z.of_nat i) s
                 = Ok (logical_value cs (Z.of_nat i) v0, s').
Proof.
  intros Hcon _. pose proof (constructed_holds A s0 Hcon) as Hh.
  destruct (run_calls_holds min_set_composes_at_1 cs A s0 Hh)
    as (s & A' & E & Hh' & HA').
  exists s. split; [done|]. intros i v0 Hv0.
  pose proof (HA' i v0 Hv0) as Hi.
  destruct (at_holds min_set_composes_at_1 A' s (Z.of_nat i) Hh')
    as (x & s' & E' & Hx & _).
  { apply lookup_lt_Some in Hi. destruct Hh' as (-> & _). lia. }
  rewrite Nat2Z.id, Hi in Hx. injection Hx as <-. by exists s'.
Qed.

Lemma example_tree_built : segment_tree_range [6; -2; 1; 8; 10] = Ok example_tree.
Proof. vm_compute. reflexivity. Qed.

(** The example program prints [6 -2 4 8 10], [-2], [5 5 5 1 5], [1]. *)
Example example_program :
  exists s1 s2 s3 s4 s5 s6,
    update_at 2 4 example_tree = Ok (tt, s1) /\
    (a0 <- at_ 0 ;; a1 <- at_ 1 ;; a2 <- at_ 2 ;; a3 <- at_ 3 ;; a4 <- at_ 4 ;;
     ret [a0; a1; a2; a3; a4]) s1 = Ok ([6; -2; 4; 8; 10], s2) /\
    query 0 3 s2 = Ok (-2, s3) /\
    (update 0 4 5 ;; update_at 3 2 ;; update_at 3 1) s3 = Ok (tt, s4) /\
    (a0 <- at_ 0 ;; a1 <- at_ 1 ;; a2 <- at_ 2 ;; a3 <- at_ 3 ;; a4 <- at_ 4 ;;
     ret [a0; a1; a2; a3; a4]) s4 = Ok ([5; 5; 5; 1; 5], s5) /\
    query 0 3 s5 = Ok (1, s6).
Proof.
  do 6 eexists. do 5 (split; [vm_compute; reflexivity|]).
  vm_compute. reflexivity.
Qed.

(** C2, as stated, fails: on the one-element array [[7]] the call
    [update(-1, 0, 9)] raises nothing, returns normally and overwrites
    index 0; on [[7; 8]] the call [query(2, 1)] returns normally too. *)
Lemma out_of_range_not_rejected :
  exists s s' s'' t,
    segment_tree_range [7] = Ok s /\
    update (-1) 0 9 s = Ok (tt, s') /\ s' <> s /\
    at_ 0 s' = Ok (9, s'') /\
    segment_tree_range [7; 8] = Ok t /\
    query 2 1 t = Ok (0, t).
Proof.
  do 4 eexists. split; [vm_compute; reflexivity|].
  split; [vm_compute; reflexivity|].
  split; [discriminate|]. split; [vm_compute; reflexivity|].
  split; [vm_compute; reflexivity|]. vm_compute. reflexivity.
Qed.

(** C3, as stated, fails at [n = 0]: [build(0, 0, -1, v)] recurses into
    [build(1, 0, 0, v)], which writes [value[1]] of an empty vector.  It
    fails at [n = 2^29] as well: [4*len] is [2^31], one more than the
    largest [int]. *)
Lemma fill_unsupported_sizes :
  segment_tree_fill 0 5 = Fault /\ segment_tree_fill (2^29) 5 = Fault.
Proof. split; vm_compute; reflexivity. Qed.

(** C10, as stated, fails at [n = 2^30]: [4*len] is [2^32] and does not
    fit in an [int], so the vectors do not get [4n] slots (where the
    product wraps around it is 0, the vectors stay empty and the first
    leaf that [build] writes, [value[2^30 - 1]], lies outside them). *)
Lemma allocation_beyond_int : segment_tree_fill (2^30) 0 = Fault.
Proof. vm_compute. reflexivity. Qed.

End Default.

(** ** The default operators: minimum queries, assignment updates *)

Section DefaultOperators.
Local Existing Instance min_set.
Local Open Scope segm_scope.

(** With [std::min] for [join_values], the join over a span is one of
    its elements and no larger than any of them. *)
Lemma seg_min (f : Z -> Z) (n : nat) : forall lo,
  (exists j, lo <= j <= lo + Z.of_nat n /\ seg f lo n = f j) /\
  forall j, lo <= j <= lo + Z.of_nat n -> seg f lo n <= f j.
Proof.
  induction n as [|n IH]; intros lo; simpl seg.
  - split; [exists lo; split; [lia|done]|].
    intros j Hj. by replace j with lo by lia.
  - destruct (IH (lo + 1)) as [(j0 & Hj0 & E0) Hle].
    change (join_values (f lo) (seg f (lo + 1) n))
      with (Z.min (f lo) (seg f (lo + 1) n)).
    split.
    + destruct (Z.min_spec (f lo) (seg f (lo + 1) n)) as [[_ ->]|[_ ->]].
      * exists lo. split; [lia|done].
      * exists j0. split; [lia|done].
    + intros j Hj. destruct (decide (j = lo)) as [->|Hne]; [lia|].
      specialize (Hle j ltac:(lia)). lia.
Qed.

(** X7: With the operators as shipped, an in-range [query(lo, hi)] returns
    the minimum of the logical array over [lo..hi]: one of its elements
    there, and no larger than any of them. *)
Theorem query_returns_the_minimum
    (A : list Z) (s : segment_tree Z) (lo hi : Z) :
  reach A s -> 0 <= lo <= hi /\ hi < size s ->
  exists r s', query lo hi s = Ok (r, s') /\
    (exists j, lo <= j <= hi /\ A !! Z.to_nat j = Some r) /\
    (forall j x, lo <= j <= hi -> A !! Z.to_nat j = Some x -> r <= x).
Proof.
  intros Hre Hr.
  destruct (reach_query_result A s lo hi min_set_assoc min_set_distributes
              min_set_composes Hre Hr) as (s' & E & _).
  exists (array_join A lo hi), s'. split; [done|].
  pose proof (reach_holds min_set_composes_at_1 A s Hre) as (Hlen & _).
  unfold size in Hr. unfold array_join, range_join.
  set (f := fun j => match A !! Z.to_nat j with Some x => x | None => T_init end).
  destruct (seg_min f (Z.to_nat (hi - lo)) lo) as [(j & Hj & Ej) Hle].
  split.
  - exists j. split; [lia|]. rewrite Ej. unfold f.
    destruct (lookup_lt_is_Some_2 A (Z.to_nat j) ltac:(lia)) as [x ->]. done.
  - intros j' x Hj' Hx. specialize (Hle j' ltac:(lia)).
    unfold f at 2 in Hle. by rewrite Hx in Hle.
Qed.

(** X8: With the operators as shipped, [update(lo, hi, d)] assigns: a query
    over any part of [lo..hi] then returns [d]. *)
Theorem assigned_range_reads_back
    (A : list Z) (s : segment_tree Z) (lo hi d a b : Z) :
  reach A s -> 0 <= lo <= a /\ a <= b <= hi /\ hi < size s ->
  exists s1 s2, update lo hi d s = Ok (tt, s1) /\ query a b s1 = Ok (d, s2).
Proof.
  intros Hre Hr.
  pose proof (reach_holds min_set_composes_at_1 A s Hre) as Hh.
  destruct (update_holds min_set_composes_at_1 A s lo hi d Hh)
    as (s1 & E1 & Hh1).
  pose proof (reach_update A s lo hi d s1 Hre ltac:(lia) E1) as Hre1.
  assert (size s1 = size s) as Hsz.
  { unfold size. destruct Hh as (-> & _), Hh1 as (-> & _).
    by rewrite length_apply_range. }
  destruct (reach_query_result (apply_range lo hi d A) s1 a b min_set_assoc
              min_set_distributes min_set_composes Hre1 ltac:(lia))
    as (s2 & E2 & _).
  exists s1, s2. split; [done|]. rewrite E2. do 2 f_equal.
  unfold array_join, range_join.
  set (f := fun j => match apply_range lo hi d A !! Z.to_nat j with
                     | Some x => x | None => T_init end).
  destruct (seg_min f (Z.to_nat (b - a)) a) as [(j & Hj & ->) _].
  unfold f. destruct Hh as (Hlen & _). unfold size in Hr.
  destruct (lookup_lt_is_Some_2 A (Z.to_nat j) ltac:(lia)) as [x Hx].
  rewrite (lookup_apply_range lo hi d A j x) by (done || lia).
  by rewrite decide_True by lia.
Qed.
End DefaultOperators.

(** ** Sum queries, "increment" updates *)

(** C7: with [join_values = +], [join_value_with_delta v d len = v +
    d*len] and [join_deltas = +], on the array [[1; 1; 1; 1]] the call
    [update(0, 3, 2)] makes [query(0, 3)] return 12 and [at(1)] return
    3. *)
Theorem sum_increment_scenario :
  exists s0 s1 s2 s3,
    segment_tree_range (ops:=sum_increment) [1; 1; 1; 1] = Ok s0 /\
    update (ops:=sum_increment) 0 3 2 s0 = Ok (tt, s1) /\
    query (ops:=sum_increment) 0 3 s1 = Ok (12, s2) /\
    at_ (ops:=sum_increment) 1 s2 = Ok (3, s3).
Proof.
  do 4 eexists. do 3 (split; [vm_compute; reflexivity|]).
  vm_compute. reflexivity.
Qed.

(** * The binary search tree: proofs *)

Section BinarySearchTree.
Import bst.
Context {K V : Type} {cmp : Key K}.
Implicit Types (n L R : node_t K V) (t : binary_search_tree K V).
Implicit Types (k key : K) (v : V).

Lemma all_keys_entries (P : K -> Prop) n :
  all_keys P n <-> forall k v, (k, v) ∈ entries n -> P k.
Proof.
  induction n as [|k0 v0 L IHL R IHR]; simpl.
  - split; [|done]. intros _ k v H. by apply elem_of_nil in H.
  - rewrite IHL, IHR. split.
    + intros (H0 & HL & HR) k v H.
      apply elem_of_app in H as [H|H]; [by eapply HL|].
      apply elem_of_cons in H as [H|H]; [by injection H as -> ->|by eapply HR].
    + intros H. split; [|split].
      * apply (H k0 v0). apply elem_of_app. right. by left.
      * intros k v Hk. apply (H k v). apply elem_of_app. by left.
      * intros k v Hk. apply (H k v). apply elem_of_app. right. by right.
Qed.

Lemma all_keys_insert (P : K -> Prop) n k v :
  P k -> all_keys P n -> all_keys P (insert_rec n k v).2.
Proof.
  intros Hk. induction n as [|k0 v0 L IHL R IHR]; simpl; [done|].
  intros (H0 & HL & HR).
  destruct (key_lt k k0).
  - destruct (insert_rec L k v) as [b L'] eqn:E. simpl in *. auto.
  - destruct (key_lt k0 k); [|done].
    destruct (insert_rec R k v) as [b R'] eqn:E. simpl in *. auto.
Qed.

(** [insert] keeps the search-tree order. *)
Lemma insert_rec_ordered n k v : ordered n -> ordered (insert_rec n k v).2.
Proof.
  induction n as [|k0 v0 L IHL R IHR]; simpl; [done|].
  intros (HL & HR & OL & OR).
  destruct (key_lt k k0) eqn:E1.
  - pose proof (all_keys_insert (fun x => key_lt x k0 = true) L k v E1 HL).
    destruct (insert_rec L k v) as [b L']. simpl in *. auto.
  - destruct (key_lt k0 k) eqn:E2; [|done].
    pose proof (all_keys_insert (fun x => key_lt k0 x = true) R k v E2 HR).
    destruct (insert_rec R k v) as [b R']. simpl in *. auto.
Qed.

Lemma insert_rec_rejected n k v : (insert_rec n k v).1 = false -> (insert_rec n k v).2 = n.
Proof.
  induction n as [|k0 v0 L IHL R IHR]; simpl; [done|].
  destruct (key_lt k k0).
  - destruct (insert_rec L k v) as [b L']. simpl in *. intros H. by rewrite IHL.
  - destruct (key_lt k0 k); [|done].
    destruct (insert_rec R k v) as [b R']. simpl in *. intros H. by rewrite IHR.
Qed.

Lemma insert_rec_entries_length n k v :
  length (entries (insert_rec n k v).2)
  = (length (entries n) + if (insert_rec n k v).1 then 1 else 0)%nat.
Proof.
  induction n as [|k0 v0 L IHL R IHR]; simpl; [done|].
  destruct (key_lt k k0).
  - destruct (insert_rec L k v) as [b L']. simpl in *.
    rewrite !length_app, IHL. simpl. lia.
  - destruct (key_lt k0 k); [|simpl; lia].
    destruct (insert_rec R k v) as [b R']. simpl in *.
    rewrite !length_app. simpl. rewrite IHR. lia.
Qed.

Lemma walk_rec_in_order n : walk_rec n 0 = (entries n).*2.
Proof.
  induction n as [|k0 v0 L IHL R IHR]; simpl; [done|].
  rewrite IHL, IHR, fmap_app. simpl. by rewrite app_nil_r.
Qed.

Lemma walk_rec_permutation n order : walk_rec n order ≡ₚ (entries n).*2.
Proof.
  induction n as [|k0 v0 L IHL R IHR]; simpl; [done|].
  rewrite fmap_app. simpl. rewrite IHL, IHR.
  destruct (order <? 0) eqn:E1, (order =? 0) eqn:E2, (0 <? order) eqn:E3;
    try lia; simpl; rewrite ?app_nil_r.
  - by rewrite Permutation_middle.
  - done.
  - rewrite (Permutation_app_comm (entries R).*2 [v0]). done.
Qed.

Section Laws.
Hypothesis Hlaws : key_laws.

Lemma lt_irrefl k : key_lt k k = false.
Proof. apply Hlaws. Qed.

Lemma lt_trans k1 k2 k3 :
  key_lt k1 k2 = true -> key_lt k2 k3 = true -> key_lt k1 k3 = true.
Proof. apply Hlaws. Qed.

Lemma lt_total k1 k2 : key_lt k1 k2 = false -> key_lt k2 k1 = false -> k1 = k2.
Proof. apply Hlaws. Qed.

Lemma eq_true k1 k2 : key_eq k1 k2 = true <-> k1 = k2.
Proof. apply Hlaws. Qed.

Lemma eq_false k1 k2 : key_eq k1 k2 = false <-> k1 <> k2.
Proof.
  rewrite <- eq_true. destruct (key_eq k1 k2); split; congruence.
Qed.

Lemma lt_ne k1 k2 : key_lt k1 k2 = true -> k1 <> k2.
Proof. intros H ->. by rewrite lt_irrefl in H. Qed.

Lemma lt_asym k1 k2 : key_lt k1 k2 = true -> key_lt k2 k1 = false.
Proof.
  intros H. destruct (key_lt k2 k1) eqn:E; [|done].
  pose proof (lt_irrefl k1) as Hi. by rewrite (lt_trans _ _ _ H E) in Hi.
Qed.

(** The search-tree order says that the keys, read in symmetric order,
    increase. *)
Lemma ordered_sorted n :
  ordered n <-> StronglySorted (fun a b => key_lt a b = true) (entries n).*1.
Proof.
  induction n as [|k0 v0 L IHL R IHR]; simpl.
  - split; [constructor|done].
  - rewrite fmap_app. simpl.
    rewrite IHL, IHR, !all_keys_entries, StronglySorted_app. split.
    + intros (HL & HR & SL & SR). split; [|split]; [|done|].
      * intros a b Ha Hb.
        apply list_elem_of_fmap in Ha as ([k' v] & -> & Ha). simpl.
        apply elem_of_cons in Hb as [->|Hb]; [by eapply HL|].
        apply list_elem_of_fmap in Hb as ([k'' v'] & -> & Hb). simpl.
        eapply lt_trans; [by eapply HL|by eapply HR].
      * constructor; [done|]. apply Forall_forall. intros k Hk.
        apply list_elem_of_fmap in Hk as ([k' v] & -> & Hk).
        by eapply HR.
    + intros (H & SL & S2).
      apply StronglySorted_inv in S2 as [SR HR].
      split; [|split]; [..|done].
      * intros k v Hk. apply H; [|by left].
        apply list_elem_of_fmap. by exists (k, v).
      * intros k v Hk. rewrite Forall_forall in HR. apply HR.
        apply list_elem_of_fmap. by exists (k, v).
Qed.
(** On an ordered tree [find] retrieves exactly the nodes of the tree. *)
Lemma find_rec_entries n :
  ordered n -> forall k v, find_rec n k = Some v <-> (k, v) ∈ entries n.
Proof.
  induction n as [|k0 v0 L IHL R IHR]; simpl.
  - intros _ k v. split; [done|]. intros H. by apply elem_of_nil in H.
  - intros (HL & HR & OL & OR) k v.
    rewrite all_keys_entries in HL, HR.
    rewrite elem_of_app, elem_of_cons.
    destruct (key_eq k0 k) eqn:E.
    + apply eq_true in E as ->. split.
      * intros [= ->]. right. by left.
      * intros [H|[H|H]].
        -- apply HL in H. by rewrite lt_irrefl in H.
        -- by injection H as ->.
        -- apply HR in H. by rewrite lt_irrefl in H.
    + apply eq_false in E. destruct (key_lt k k0) eqn:E1.
      * rewrite IHL by done. split; [by left|].
        intros [H|[H|H]]; [done|by injection H as -> ->|].
        apply HR in H. by rewrite (lt_asym _ _ E1) in H.
      * rewrite IHR by done. split; [by right; right|].
        intros [H|[H|H]]; [|by injection H as -> ->|done].
        apply HL in H. by rewrite H in E1.
Qed.

Lemma find_rec_missing n k :
  ordered n -> find_rec n k = None <-> forall v, (k, v) ∉ entries n.
Proof.
  intros Ho. split.
  - intros E v H. apply find_rec_entries in H; [|done]. by rewrite E in H.
  - intros H. destruct (find_rec n k) as [v|] eqn:E; [|done].
    apply find_rec_entries in E; [|done]. by apply H in E.
Qed.

(** [insert] returns [true] exactly when the key was not in the tree. *)
Lemma insert_rec_result n k v :
  (insert_rec n k v).1 = true <-> find_rec n k = None.
Proof.
  induction n as [|k0 v0 L IHL R IHR]; simpl; [done|].
  destruct (key_lt k k0) eqn:E1.
  - rewrite (proj2 (eq_false k0 k)) by (by apply not_eq_sym, lt_ne).
    destruct (insert_rec L k v) as [b L']. by simpl in *.
  - destruct (key_lt k0 k) eqn:E2.
    + rewrite (proj2 (eq_false k0 k)) by (by apply lt_ne).
      destruct (insert_rec R k v) as [b R']. by simpl in *.
    + rewrite (proj2 (eq_true k0 k)) by (by apply lt_total). by simpl.
Qed.

(** What [find] sees after [insert]. *)
Lemma insert_rec_find n k v k' :
  find_rec (insert_rec n k v).2 k'
  = if (insert_rec n k v).1 && key_eq k k' then Some v else find_rec n k'.
Proof.
  induction n as [|k0 v0 L IHL R IHR]; simpl.
  - destruct (key_eq k k'); [done|]. by destruct (key_lt k' k).
  - destruct (key_lt k k0) eqn:E1.
    + destruct (insert_rec L k v) as [b L']. simpl in *.
      destruct (key_eq k0 k') eqn:E.
      * apply eq_true in E as <-.
        rewrite (proj2 (eq_false k k0)) by (by apply lt_ne).
        by rewrite andb_false_r.
      * destruct (key_lt k' k0) eqn:E2; [done|].
        destruct (key_eq k k') eqn:E3; [|by rewrite andb_false_r].
        apply eq_true in E3 as <-. congruence.
    + destruct (key_lt k0 k) eqn:E2; [|done].
      destruct (insert_rec R k v) as [b R']. simpl in *.
      destruct (key_eq k0 k') eqn:E.
      * apply eq_true in E as <-.
        rewrite (proj2 (eq_false k k0)) by (by apply not_eq_sym, lt_ne).
        by rewrite andb_false_r.
      * destruct (key_lt k' k0) eqn:E3; [|done].
        destruct (key_eq k k') eqn:E4; [|by rewrite andb_false_r].
        apply eq_true in E4 as <-. congruence.
Qed.

Lemma erase_leftmost_node k v k' v' L' R' R :
  erase_leftmost erase_rec (node k v (node k' v' L' R') R)
  = (let '(b, L2) := erase_leftmost erase_rec (node k' v' L' R') in
     (b, node k v L2 R)).
Proof. done. Qed.

(** The call on the slot of [temp] unlinks [temp], the first node of the
    subtree in symmetric order. *)
Lemma erase_leftmost_spec L : forall k v R,
  exists n', erase_leftmost erase_rec (node k v L R) = (true, n') /\
    entries (node k v L R) = leftmost k v L :: entries n'.
Proof.
  induction L as [|k' v' L' IHL R' _]; intros k v R.
  - exists R. simpl. by rewrite lt_irrefl.
  - destruct (IHL k' v' R') as (n' & E & HE).
    exists (node k v n' R). rewrite erase_leftmost_node, E. split; [done|].
    change (entries (node k v (node k' v' L' R') R))
      with (entries (node k' v' L' R') ++ (k, v) :: entries R).
    by rewrite HE.
Qed.

(** [erase] unlinks the node of the key from the symmetric order and
    keeps every other node in place; it returns [false], and changes
    nothing, when [find] does not see the key. *)
Lemma erase_rec_spec n key :
  match erase_rec n key with
  | (true, n') =>
      exists l1 v l2, entries n = l1 ++ (key, v) :: l2 /\ entries n' = l1 ++ l2
  | (false, n') => n' = n /\ find_rec n key = None
  end.
Proof.
  induction n as [|k0 v0 L IHL R IHR]; simpl; [done|].
  destruct (key_lt key k0) eqn:E1.
  - rewrite (proj2 (eq_false k0 key)) by (by apply not_eq_sym, lt_ne).
    destruct (erase_rec L key) as [[] L'].
    + destruct IHL as (l1 & v & l2 & H1 & H2).
      exists l1, v, (l2 ++ (k0, v0) :: entries R). simpl.
      by rewrite H1, H2, <- !app_assoc.
    + by destruct IHL as [-> ->].
  - destruct (key_lt k0 key) eqn:E2.
    + rewrite (proj2 (eq_false k0 key)) by (by apply lt_ne).
      destruct (erase_rec R key) as [[] R'].
      * destruct IHR as (l1 & v & l2 & H1 & H2).
        exists (entries L ++ (k0, v0) :: l1), v, l2. simpl.
        by rewrite H1, H2, <- !app_assoc.
      * by destruct IHR as [-> ->].
    + pose proof (lt_total _ _ E1 E2) as ->.
      destruct L as [|kl vl LL LR].
      { exists [], v0, (entries R). done. }
      destruct R as [|kr vr RL RR].
      { exists (entries (node kl vl LL LR)), v0, []. by rewrite app_nil_r. }
      destruct (erase_leftmost_spec RL kr vr RR) as (R' & E & HE).
      rewrite E. destruct (leftmost kr vr RL) as [tk tv].
      exists (entries (node kl vl LL LR)), v0, (entries (node kr vr RL RR)).
      split; [done|]. rewrite HE. done.
Qed.

Lemma sorted_remove (l1 l2 : list (K * V)) e :
  StronglySorted (fun a b => key_lt a b = true) (l1 ++ e :: l2).*1 ->
  StronglySorted (fun a b => key_lt a b = true) (l1 ++ l2).*1.
Proof.
  rewrite !fmap_app, fmap_cons, !StronglySorted_app.
  intros (H & S1 & S2). apply StronglySorted_inv in S2 as [S2 _].
  split; [|done]. intros a b Ha Hb. apply H; [done|by right].
Qed.

Lemma sorted_once (l1 l2 : list (K * V)) k v :
  StronglySorted (fun a b => key_lt a b = true) (l1 ++ (k, v) :: l2).*1 ->
  forall v', (k, v') ∉ l1 ++ l2.
Proof.
  rewrite !fmap_app, fmap_cons, !StronglySorted_app.
  intros (H & S1 & S2) v' Hin. apply StronglySorted_inv in S2 as [S2 F].
  apply elem_of_app in Hin as [Hin|Hin].
  - assert (key_lt k k = true) as E; [|by rewrite lt_irrefl in E].
    apply H; [|by left]. apply list_elem_of_fmap. by exists (k, v').
  - rewrite Forall_forall in F.
    assert (key_lt k k = true) as E; [|by rewrite lt_irrefl in E].
    apply F. apply list_elem_of_fmap. by exists (k, v').
Qed.

Lemma erase_rec_ordered n key : ordered n -> ordered (erase_rec n key).2.
Proof.
  intros Ho. pose proof (erase_rec_spec n key) as H.
  destruct (erase_rec n key) as [[] n']; simpl.
  - destruct H as (l1 & v & l2 & H1 & H2).
    apply ordered_sorted. rewrite H2. apply sorted_remove with (key, v).
    rewrite <- H1. by apply ordered_sorted.
  - by destruct H as [-> _].
Qed.

(** The store through the pointer [find] returns replaces the value of
    the node of the key, in place; there is a null pointer to store
    through exactly when [find] does not see the key. *)
Lemma assign_rec_spec n key x :
  match assign_rec n key x with
  | Some n' =>
      exists l1 v l2,
        entries n = l1 ++ (key, v) :: l2 /\ entries n' = l1 ++ (key, x) :: l2
  | None => find_rec n key = None
  end.
Proof.
  induction n as [|k0 v0 L IHL R IHR]; simpl; [done|].
  destruct (key_eq k0 key) eqn:E.
  - apply eq_true in E as ->. by exists (entries L), v0, (entries R).
  - destruct (key_lt key k0).
    + destruct (assign_rec L key x) as [L'|]; [|done].
      destruct IHL as (l1 & v & l2 & H1 & H2).
      exists l1, v, (l2 ++ (k0, v0) :: entries R). simpl.
      by rewrite H1, H2, <- !app_assoc.
    + destruct (assign_rec R key x) as [R'|]; [|done].
      destruct IHR as (l1 & v & l2 & H1 & H2).
      exists (entries L ++ (k0, v0) :: l1), v, l2. simpl.
      by rewrite H1, H2, <- !app_assoc.
Qed.

(** The class invariant: the tree is ordered and [num_nodes] counts its
    nodes. *)
Lemma built_invariant t :
  built t ->
  ordered (root t) /\ num_nodes t = Z.of_nat (length (entries (root t))).
Proof.
  induction 1 as [|t key val _ [IHo IHn]|t key _ [IHo IHn]
                  |t key x t' _ [IHo IHn] E].
  - done.
  - unfold insert.
    pose proof (insert_rec_ordered (root t) key val IHo) as Ho.
    pose proof (insert_rec_entries_length (root t) key val) as Hl.
    destruct (insert_rec (root t) key val) as [[] r]; simpl in *;
      (split; [done|lia]).
  - unfold erase.
    pose proof (erase_rec_ordered (root t) key IHo) as Ho.
    pose proof (erase_rec_spec (root t) key) as Hs.
    destruct (erase_rec (root t) key) as [[] r]; simpl in *.
    + split; [done|]. destruct Hs as (l1 & v & l2 & H1 & H2).
      rewrite IHn, H1, H2, !length_app. simpl. lia.
    + destruct Hs as [-> _]. done.
  - unfold find_assign in E.
    pose proof (assign_rec_spec (root t) key x) as Hs.
    destruct (assign_rec (root t) key x) as [r|]; [|done].
    injection E as <-. simpl. destruct Hs as (l1 & v & l2 & H1 & H2).
    split.
    + apply ordered_sorted. rewrite H2.
      apply ordered_sorted in IHo. rewrite H1 in IHo.
      by rewrite fmap_app, fmap_cons in *.
    + rewrite IHn, H1, H2, !length_app. done.
Qed.
Lemma find_after_removal (n n' : node_t K V) l1 key v l2 :
  ordered n -> ordered n' ->
  entries n = l1 ++ (key, v) :: l2 -> entries n' = l1 ++ l2 ->
  find_rec n' key = None /\
  forall k, k <> key -> find_rec n' k = find_rec n k.
Proof.
  intros Ho Ho' H1 H2. split.
  - apply find_rec_missing; [done|]. rewrite H2. apply sorted_once with v.
    rewrite <- H1. by apply ordered_sorted.
  - intros k Hk. apply option_eq. intros v'.
    rewrite !find_rec_entries, H1, H2 by done.
    rewrite !elem_of_app, elem_of_cons. split; [tauto|].
    intros [H|[H|H]]; [tauto| |tauto]. by injection H as ->.
Qed.

Lemma find_after_store (n n' : node_t K V) l1 key v x l2 :
  ordered n -> ordered n' ->
  entries n = l1 ++ (key, v) :: l2 -> entries n' = l1 ++ (key, x) :: l2 ->
  find_rec n' key = Some x /\
  forall k, k <> key -> find_rec n' k = find_rec n k.
Proof.
  intros Ho Ho' H1 H2. split.
  - apply find_rec_entries; [done|]. rewrite H2, elem_of_app, elem_of_cons. tauto.
  - intros k Hk. apply option_eq. intros v'.
    rewrite !find_rec_entries, H1, H2 by done.
    rewrite !elem_of_app, !elem_of_cons.
    split; (intros [H|[H|H]]; [tauto| |tauto]); by injection H as ->.
Qed.

(** Unlinking the leaf that [insert] has just made gives back the tree
    [insert] started from. *)
Lemma insert_erase_rec n k v :
  (insert_rec n k v).1 = true -> erase_rec (insert_rec n k v).2 k = (true, n).
Proof.
  induction n as [|k0 v0 L IHL R IHR]; simpl.
  - intros _. by rewrite lt_irrefl.
  - destruct (key_lt k k0) eqn:E1.
    + destruct (insert_rec L k v) as [b L']. simpl in *. intros ->.
      by rewrite E1, IHL.
    + destruct (key_lt k0 k) eqn:E2; [|done].
      destruct (insert_rec R k v) as [b R']. simpl in *. intros ->.
      by rewrite E1, E2, IHR.
Qed.

(** *** The member functions *)

(** X9: [size()] is the number of nodes [walk] visits, in whichever order,
    and [empty()] says whether it is zero. *)
Theorem size_counts_nodes t order :
  built t ->
  size t = Z.of_nat (length (walk order t)) /\ (empty t = true <-> size t = 0).
Proof.
  intros Hb. destruct (built_invariant t Hb) as [Ho Hn].
  unfold size, walk, empty.
  rewrite (Permutation_length (walk_rec_permutation (root t) order)).
  rewrite length_fmap. split; [done|]. rewrite Hn.
  destruct (root t) as [|k v L R]; simpl; [done|].
  rewrite length_app. simpl. split; [done|lia].
Qed.

(** X10: Every tree a program can hold is in search-tree order with strict
    inequalities on both sides: no key is stored twice. *)
Theorem search_order_kept t : built t -> ordered (root t).
Proof. intros Hb. by apply built_invariant. Qed.

(** X11: [insert] of a key that [find] does not see returns [true]; [find]
    then returns the new value for that key and what it did before for
    every other key, and [size()] has grown by one. *)
Theorem insert_new_key t key val :
  built t -> find key t = None ->
  exists t', insert key val t = (true, t') /\
    find key t' = Some val /\
    (forall k, k <> key -> find k t' = find k t) /\
    size t' = size t + 1.
Proof.
  intros Hb Hf. unfold find, insert, size in *.
  pose proof (proj2 (insert_rec_result (root t) key val) Hf) as Hr.
  pose proof (insert_rec_find (root t) key val) as Hq.
  destruct (insert_rec (root t) key val) as [b r]. simpl in *. subst b.
  eexists. split; [done|]. simpl. split; [|split; [|done]].
  - rewrite Hq. by rewrite (proj2 (eq_true key key)).
  - intros k Hk. rewrite Hq.
    by rewrite (proj2 (eq_false key k)) by (by apply not_eq_sym).
Qed.

(** X12: [insert] of a key that is in the tree returns [false] and changes
    nothing: the value stored under the key stays. *)
Theorem insert_existing_key t key val v :
  built t -> find key t = Some v -> insert key val t = (false, t).
Proof.
  intros Hb Hf. unfold find, insert in *.
  pose proof (insert_rec_result (root t) key val) as Hr.
  pose proof (insert_rec_rejected (root t) key val) as Hq.
  destruct (insert_rec (root t) key val) as [[] r]; simpl in *.
  - rewrite (proj1 Hr eq_refl) in Hf. done.
  - rewrite Hq by done. by destruct t.
Qed.

(** X13: [erase] of a key that is in the tree returns [true]; afterwards
    [find] does not see the key, returns what it did before for every
    other key, and [size()] is one less. *)
Theorem erase_present_key t key v :
  built t -> find key t = Some v ->
  exists t', erase key t = (true, t') /\
    find key t' = None /\
    (forall k, k <> key -> find k t' = find k t) /\
    size t' = size t - 1.
Proof.
  intros Hb Hf. destruct (built_invariant t Hb) as [Ho _].
  unfold find, erase, size in *.
  pose proof (erase_rec_spec (root t) key) as Hs.
  pose proof (erase_rec_ordered (root t) key Ho) as Ho'.
  destruct (erase_rec (root t) key) as [[] r]; simpl in *.
  - destruct Hs as (l1 & v' & l2 & H1 & H2).
    eexists. split; [done|]. simpl.
    destruct (find_after_removal _ _ _ _ _ _ Ho Ho' H1 H2) as [Hk Hothers].
    done.
  - destruct Hs as [_ Hs]. by rewrite Hs in Hf.
Qed.

(** X14: [erase] of a key that [find] does not see returns [false] and
    changes nothing. *)
Theorem erase_missing_key t key :
  built t -> find key t = None -> erase key t = (false, t).
Proof.
  intros Hb Hf. destruct (built_invariant t Hb) as [Ho _].
  unfold find, erase in *.
  pose proof (erase_rec_spec (root t) key) as Hs.
  destruct (erase_rec (root t) key) as [[] r]; simpl in *.
  - destruct Hs as (l1 & v' & l2 & H1 & H2).
    assert (find_rec (root t) key = Some v') as E; [|by rewrite E in Hf].
    apply find_rec_entries; [done|]. rewrite H1, elem_of_app, elem_of_cons.
    tauto.
  - destruct Hs as [-> _]. by destruct t.
Qed.

(** X15: [walk(f, 0)] calls [f] on the values in increasing order of their
    keys: the keys of the visited nodes form a strictly increasing
    list that holds every key [find] sees. *)
Theorem walk_in_key_order t :
  built t ->
  exists ks,
    StronglySorted (fun a b => key_lt a b = true) ks /\
    Forall2 (fun k v => find k t = Some v) ks (walk 0 t) /\
    forall k, is_Some (find k t) -> k ∈ ks.
Proof.
  intros Hb. destruct (built_invariant t Hb) as [Ho _].
  exists (entries (root t)).*1. unfold walk, find.
  rewrite walk_rec_in_order. split; [by apply ordered_sorted|]. split.
  - apply Forall2_fmap, Forall_Forall2_diag, Forall_forall.
    intros [k v] Hkv. by apply find_rec_entries.
  - intros k [v Hv]. apply find_rec_entries in Hv; [|done].
    apply list_elem_of_fmap. by exists (k, v).
Qed.

(** X17: The store [*t.find(key) = x] changes the value [find] returns for
    [key] and nothing else; when [find] does not see the key it returns
    the null pointer, which cannot be stored through. *)
Theorem find_assign_spec t key x :
  built t ->
  match find key t with
  | Some _ =>
      exists t', find_assign key x t = Some t' /\
        find key t' = Some x /\
        (forall k, k <> key -> find k t' = find k t) /\
        size t' = size t
  | None => find_assign key x t = None
  end.
Proof.
  intros Hb. destruct (built_invariant t Hb) as [Ho _].
  pose proof (built_assign t key x) as Hb'.
  unfold find, find_assign, size in *.
  pose proof (assign_rec_spec (root t) key x) as Hs.
  destruct (assign_rec (root t) key x) as [r|].
  - destruct Hs as (l1 & v & l2 & H1 & H2).
    destruct (built_invariant _ (Hb' _ Hb eq_refl)) as [Ho' _]. simpl in Ho'.
    destruct (find_after_store _ _ _ _ _ _ _ Ho Ho' H1 H2) as [Hk Hothers].
    assert (find_rec (root t) key = Some v) as ->.
    { apply find_rec_entries; [done|]. rewrite H1, elem_of_app, elem_of_cons.
      tauto. }
    eexists. split; [done|]. done.
  - by rewrite Hs.
Qed.
(** X18: [insert] of a key that [find] does not see, followed by [erase] of
    that key, gives back the very object: the same nodes in the same
    places and the same [size()]. *)
Theorem insert_then_erase t key val :
  find key t = None ->
  exists t', insert key val t = (true, t') /\ erase key t' = (true, t).
Proof.
  intros Hf. unfold find, insert, erase in *.
  pose proof (proj2 (insert_rec_result (root t) key val) Hf) as Hr.
  pose proof (insert_erase_rec (root t) key val Hr) as He.
  destruct (insert_rec (root t) key val) as [b r]. simpl in *. subst b.
  eexists. split; [done|]. simpl. rewrite He.
  replace (num_nodes t + 1 - 1) with (num_nodes t) by lia. by destruct t.
Qed.
End Laws.

(** X16: The three orders of [walk] call [f] on the same values, each as
    often: they differ in the order of the calls only. *)
Theorem walk_orders_permute t (o1 o2 : Z) : walk o1 t ≡ₚ walk o2 t.
Proof. unfold walk. by rewrite !walk_rec_permutation. Qed.
End BinarySearchTree.

(** * The disjoint-set forest: proofs *)

Section DisjointSets.
Import dsf.
Local Open Scope segm_scope.

(** ** The monad, for any state *)

Lemma run_bind {S A B} (m : M S A) (f : A -> M S B) s a s1 :
  m s = Ok (a, s1) -> bind m f s = f a s1.
Proof. intros H. unfold bind. by rewrite H. Qed.

(** ** Following [root] *)

Lemma rep_root_is_root rt i r : rep rt i r -> vget rt r = Some r.
Proof. by induction 1. Qed.

Lemma rep_of_root rt r r' : vget rt r = Some r -> rep rt r r' -> r' = r.
Proof.
  intros Hr H. destruct H as [i Hi|i p r' Hi Hp _]; [done|].
  rewrite Hr in Hi. by injection Hi as <-.
Qed.

Lemma rep_det rt i r r' : rep rt i r -> rep rt i r' -> r = r'.
Proof.
  intros H. revert r'. induction H as [i Hi|i p r Hi Hp _ IH]; intros r' H'.
  - symmetry. by eapply rep_of_root.
  - destruct H' as [i Hi'|i p' r' Hi' Hp' H'].
    + rewrite Hi in Hi'. by injection Hi' as ->.
    + rewrite Hi in Hi'. injection Hi' as <-. by apply IH.
Qed.

Lemma rep_start rt i r : rep rt i r -> is_Some (vget rt i).
Proof. destruct 1; eauto. Qed.

(** Path compression: pointing [x] at the root of its tree moves no
    index to another tree. *)
Lemma rep_compress rt x r rt' :
  rep rt x r -> vset rt x r = Some rt' ->
  forall j r', rep rt' j r' <-> rep rt j r'.
Proof.
  intros Hx Hset j r'.
  pose proof (rep_root_is_root _ _ _ Hx) as Hr.
  destruct (decide (x = r)) as [->|Hne].
  { rewrite (vset_same _ _ _ Hr) in Hset. by injection Hset as <-. }
  assert (vget rt' x = Some r) as Hx' by (by eapply vget_vset_eq).
  assert (forall k, k <> x -> vget rt' k = vget rt k) as Hother
    by (intros; by eapply vget_vset_ne).
  split.
  - induction 1 as [i Hi|i p r0 Hi Hp _ IH].
    + destruct (decide (i = x)) as [->|Hix].
      * rewrite Hx' in Hi. by injection Hi as ->.
      * rewrite Hother in Hi by done. by constructor.
    + destruct (decide (i = x)) as [->|Hix].
      * rewrite Hx' in Hi. injection Hi as <-.
        by rewrite (rep_of_root _ _ _ Hr IH).
      * rewrite Hother in Hi by done. by eapply rep_step.
  - induction 1 as [i Hi|i p r0 Hi Hp Hrep IH].
    + destruct (decide (i = x)) as [->|Hix].
      * by rewrite (rep_of_root _ _ _ Hi Hx) in Hne.
      * constructor. by rewrite Hother.
    + destruct (decide (i = x)) as [->|Hix].
      * assert (r0 = r) as ->
          by (eapply rep_det; [|exact Hx]; by eapply rep_step).
        eapply rep_step; [exact Hx'|done|].
        constructor. rewrite Hother; [done|congruence].
      * eapply rep_step; [by rewrite Hother|done|done].
Qed.

(** Linking: pointing the root [r1] at another root [r2] moves the tree
    of [r1], and nothing else, under [r2]. *)
Lemma rep_link rt r1 r2 rt' :
  vget rt r1 = Some r1 -> vget rt r2 = Some r2 -> r1 <> r2 ->
  vset rt r1 r2 = Some rt' ->
  forall j r', rep rt' j r' <->
    (rep rt j r' /\ r' <> r1) \/ (rep rt j r1 /\ r' = r2).
Proof.
  intros H1 H2 Hne Hset j r'.
  assert (vget rt' r1 = Some r2) as H1' by (by eapply vget_vset_eq).
  assert (forall k, k <> r1 -> vget rt' k = vget rt k) as Hother
    by (intros; by eapply vget_vset_ne).
  split.
  - induction 1 as [i Hi|i p r0 Hi Hp _ IH].
    + destruct (decide (i = r1)) as [->|Hi1].
      * rewrite H1' in Hi. by injection Hi.
      * rewrite Hother in Hi by done. left. split; [by constructor|done].
    + destruct (decide (i = r1)) as [->|Hi1].
      * rewrite H1' in Hi. injection Hi as <-. right.
        destruct IH as [[IH _]|[IH _]].
        -- rewrite (rep_of_root _ _ _ H2 IH). split; [by constructor|done].
        -- by rewrite (rep_of_root _ _ _ H2 IH) in Hne.
      * rewrite Hother in Hi by done. destruct IH as [[IH ?]|[IH ?]].
        -- left. split; [by eapply rep_step|done].
        -- right. split; [by eapply rep_step|done].
  - intros [[H Hr]|[H ->]].
    + induction H as [i Hi|i p r0 Hi Hp _ IH].
      * constructor. by rewrite Hother.
      * assert (i <> r1) by congruence.
        eapply rep_step; [by rewrite Hother|done|by apply IH].
    + remember r1 as q eqn:Hq in H.
      induction H as [i Hi|i p r0 Hi Hp _ IH]; subst.
      * eapply rep_step; [exact H1'|done|].
        constructor. by rewrite Hother.
      * assert (i <> r1) by congruence.
        eapply rep_step; [by rewrite Hother|done|by apply IH].
Qed.

(** A fresh element: a new index that is its own root. *)
Lemma rep_snoc rt n :
  Z.of_nat (length rt) = n ->
  (forall i p, vget rt i = Some p -> 0 <= p < n) ->
  forall j r, rep (rt ++ [n]) j r <-> rep rt j r \/ (j = n /\ r = n).
Proof.
  intros Hlen Hin j r.
  assert (vget (rt ++ [n]) n = Some n) as Hn.
  { unfold vget. rewrite decide_True by lia.
    rewrite lookup_app_r by lia.
    by replace (Z.to_nat n - length rt)%nat with 0%nat by lia. }
  assert (forall k, k <> n -> vget (rt ++ [n]) k = vget rt k) as Hother.
  { intros k Hk. unfold vget. case_decide; [|done].
    destruct (decide (Z.to_nat k < length rt)%nat).
    - by rewrite lookup_app_l by done.
    - rewrite !lookup_ge_None_2; [done|lia|].
      rewrite length_app. simpl. lia. }
  split.
  - induction 1 as [i Hi|i p r0 Hi Hp _ IH].
    + destruct (decide (i = n)) as [->|Hne]; [by right|].
      left. constructor. by rewrite <- Hother.
    + destruct (decide (i = n)) as [->|Hne].
      { rewrite Hn in Hi. by injection Hi. }
      rewrite Hother in Hi by done. destruct IH as [IH|[-> ->]].
      * left. by eapply rep_step.
      * apply Hin in Hi. lia.
  - intros [H|[-> ->]]; [|by constructor].
    induction H as [i Hi|i p r0 Hi Hp _ IH].
    + constructor. rewrite Hother; [done|]. apply vget_bound in Hi. lia.
    + eapply rep_step; [|done|done].
      rewrite Hother; [done|]. apply vget_bound in Hi. lia.
Qed.

(** ** The map *)

Section MapLaws.
Context {K : Type} (lt : K -> K -> bool).
Hypothesis Hlt : strict_total lt.

Lemma lt_irreflexive (a : K) : lt a a = false.
Proof. apply Hlt. Qed.

Lemma lt_transitive (a b c : K) :
  lt a b = true -> lt b c = true -> lt a c = true.
Proof. apply Hlt. Qed.

Lemma lt_trichotomy (a b : K) : lt a b = false -> lt b a = false -> a = b.
Proof. apply Hlt. Qed.

Lemma lt_asymmetric (a b : K) : lt a b = true -> lt b a = false.
Proof.
  intros H. destruct (lt b a) eqn:E; [|done].
  pose proof (lt_irreflexive a) as Hi.
  by rewrite (lt_transitive _ _ _ H E) in Hi.
Qed.

Lemma lt_cases (a b : K) : a = b \/ a <> b.
Proof.
  destruct (lt a b) eqn:E1.
  - right. intros ->. by rewrite lt_irreflexive in E1.
  - destruct (lt b a) eqn:E2.
    + right. intros ->. by rewrite lt_irreflexive in E2.
    + left. by apply lt_trichotomy.
Qed.

Lemma map_find_set_eq {V} (m : list (K * V)) (x : K) v :
  map_find lt (map_set lt m x v) x = Some v.
Proof.
  induction m as [|[k' v'] m IH]; simpl.
  - by rewrite lt_irreflexive.
  - destruct (lt x k') eqn:E1; simpl.
    + by rewrite lt_irreflexive.
    + destruct (lt k' x) eqn:E2; simpl; by rewrite E1, E2.
Qed.

Lemma map_find_set_ne {V} (m : list (K * V)) (x : K) v (y : K) :
  y <> x -> map_find lt (map_set lt m x v) y = map_find lt m y.
Proof.
  intros Hne. induction m as [|[k' v'] m IH]; simpl.
  - destruct (lt y x) eqn:E1; [done|].
    destruct (lt x y) eqn:E2; [done|]. by destruct Hne; apply lt_trichotomy.
  - destruct (lt x k') eqn:E1; simpl.
    + destruct (lt y x) eqn:E2.
      * by rewrite (lt_transitive _ _ _ E2 E1).
      * destruct (lt x y) eqn:E3; [done|].
        by destruct Hne; apply lt_trichotomy.
    + destruct (lt k' x) eqn:E2; simpl.
      * destruct (lt y k'); [done|]. by destruct (lt k' y).
      * pose proof (lt_trichotomy _ _ E1 E2) as ->.
        destruct (lt y k') eqn:E3; [done|].
        destruct (lt k' y) eqn:E4; [done|].
        by destruct Hne; apply lt_trichotomy.
Qed.

Lemma keys_map_set {V} (m : list (K * V)) (x : K) v y :
  y ∈ (map_set lt m x v).*1 -> y = x \/ y ∈ m.*1.
Proof.
  induction m as [|[k' v'] m IH]; simpl.
  - intros ->%list_elem_of_singleton. by left.
  - destruct (lt x k') eqn:E1; simpl.
    + intros [->|H]%elem_of_cons; [by left|by right].
    + destruct (lt k' x) eqn:E2; simpl.
      * intros [->|H]%elem_of_cons; [right; by left|].
        destruct (IH H) as [->|H']; [by left|right; by right].
      * intros H. by right.
Qed.

Lemma map_set_sorted {V} (m : list (K * V)) (x : K) v :
  StronglySorted (fun a b => lt a b = true) m.*1 ->
  StronglySorted (fun a b => lt a b = true) (map_set lt m x v).*1.
Proof.
  induction m as [|[k' v'] m IH]; simpl.
  - intros _. repeat constructor.
  - intros [Hs Hall]%StronglySorted_inv.
    destruct (lt x k') eqn:E1; simpl.
    + constructor; [by constructor|]. constructor; [done|].
      eapply Forall_impl; [exact Hall|]. intros y Hy. simpl in Hy.
      by eapply lt_transitive.
    + destruct (lt k' x) eqn:E2; simpl.
      * constructor; [by apply IH|]. apply Forall_forall. intros y Hy.
        apply keys_map_set in Hy as [->|Hy]; [done|].
        rewrite Forall_forall in Hall. by apply Hall.
      * by constructor.
Qed.

(** In a map, [find] retrieves exactly the entries. *)
Lemma map_find_elem {V} (m : list (K * V)) (k : K) (v : V) :
  map_find lt m k = Some v -> (k, v) ∈ m.
Proof.
  induction m as [|[k' v'] m IH]; simpl; [done|].
  destruct (lt k k') eqn:E1; [done|].
  destruct (lt k' k) eqn:E2.
  - intros H. right. by apply IH.
  - intros [= ->]. rewrite (lt_trichotomy _ _ E1 E2). by left.
Qed.

Lemma map_elem_find {V} (m : list (K * V)) (k : K) (v : V) :
  StronglySorted (fun a b => lt a b = true) m.*1 ->
  (k, v) ∈ m -> map_find lt m k = Some v.
Proof.
  induction m as [|[k' v'] m IH]; simpl.
  - intros _ H. by apply elem_of_nil in H.
  - intros [Hs Hall]%StronglySorted_inv [H|H]%elem_of_cons.
    + injection H as -> ->. by rewrite lt_irreflexive.
    + rewrite Forall_forall in Hall.
      assert (lt k' k = true) as E.
      { apply Hall. apply list_elem_of_fmap. by exists (k, v). }
      rewrite (lt_asymmetric _ _ E), E. by apply IH.
Qed.

Lemma map_set_new_length {V} (m : list (K * V)) (x : K) v :
  map_find lt m x = None -> length (map_set lt m x v) = S (length m).
Proof.
  induction m as [|[k' v'] m IH]; simpl; [done|].
  destruct (lt x k'); [done|]. destruct (lt k' x); [|done].
  intros H. simpl. by rewrite IH.
Qed.

(** [m[k].push_back(x)] adds one element in all. *)
Lemma map_push_total {V} (m : list (K * list V)) (k : K) (x : V) :
  length (concat (map_set lt m k
                    (match map_find lt m k with
                     | Some l => l ++ [x]
                     | None => [x]
                     end)).*2)
  = S (length (concat m.*2)).
Proof.
  induction m as [|[k' l'] m IH]; simpl; [done|].
  destruct (lt k k') eqn:E1; simpl; [done|].
  destruct (lt k' k) eqn:E2; simpl.
  - rewrite !length_app. unfold fmap in IH. rewrite IH. lia.
  - rewrite !length_app. simpl. lia.
Qed.

Lemma sorted_keys_NoDup (l : list K) :
  StronglySorted (fun a b => lt a b = true) l -> NoDup l.
Proof.
  induction 1 as [|a l Hs IH Hall]; constructor; [|done].
  intros Ha. rewrite Forall_forall in Hall. apply Hall in Ha.
  by rewrite lt_irreflexive in Ha.
Qed.
End MapLaws.

Lemma Z_ltb_strict_total : strict_total Z.ltb.
Proof.
  repeat split.
  - intros a. apply Z.ltb_irrefl.
  - intros a b c. rewrite !Z.ltb_lt. lia.
  - intros a b. rewrite !Z.ltb_ge. lia.
Qed.

Section Laws.
Context {T : Type} {lt : Less T}.
Hypothesis Hlaws : less_laws.
Implicit Types (s : disjoint_set_forest T).

(** ** The invariant *)

Lemma wf_root_defined s i :
  wf s -> 0 <= i < num_elements s ->
  exists p k, vget (root s) i = Some p /\ vget (rank s) i = Some k /\
    0 <= p < num_elements s /\ 0 <= k.
Proof.
  intros (Hn & Hlr & Hlk & _ & _ & Hroot & Hrank & _) Hi.
  destruct (vget_in_range (root s) i ltac:(lia)) as [p Hp].
  destruct (vget_in_range (rank s) i ltac:(lia)) as [k Hk].
  exists p, k. split; [done|]. split; [done|]. split; [by eapply Hroot|].
  by eapply Hrank.
Qed.

Lemma rank_le_max (l : list Z) i k : vget l i = Some k -> k <= foldr Z.max 0 l.
Proof.
  unfold vget. case_decide; [|done]. generalize (Z.to_nat i) as n.
  induction l as [|a l IH]; intros [|n] Hn; simpl in *; try done.
  - injection Hn as ->. lia.
  - specialize (IH _ Hn). lia.
Qed.

(** Ranks grow strictly on the way to the root. *)
Lemma rep_rank_lt s i r :
  wf s -> rep (root s) i r -> i <> r ->
  forall ki kr, vget (rank s) i = Some ki -> vget (rank s) r = Some kr ->
    ki < kr.
Proof.
  intros Hwf H. induction H as [i Hi|i p r Hi Hp Hrep IH]; [done|].
  intros _ ki kr Hki Hkr.
  pose proof Hwf as (_ & _ & _ & _ & _ & Hroot & _ & Hlt).
  destruct (decide (p = r)) as [->|Hne]; [by eapply Hlt|].
  destruct (wf_root_defined s p Hwf (Hroot _ _ Hi)) as (_ & kp & _ & Hkp & _).
  specialize (Hlt _ _ _ _ Hi Hp Hki Hkp).
  specialize (IH Hne _ _ Hkp Hkr). lia.
Qed.

Lemma wf_compress s x r rt' :
  wf s -> rep (root s) x r -> vset (root s) x r = Some rt' ->
  wf (with_root s rt').
Proof.
  intros Hwf Hx Hset.
  pose proof (rep_root_is_root _ _ _ Hx) as Hr.
  pose proof Hwf as (Hn & Hlr & Hlk & Hs & Hid & Hroot & Hrank & Hlt).
  unfold wf, with_root. simpl.
  rewrite (vset_length _ _ _ _ Hset).
  split; [done|]. split; [done|]. split; [done|]. split; [done|].
  split; [done|]. split; [|split; [done|] ].
  - intros i p Hp. destruct (decide (i = x)) as [->|Hne].
    + rewrite (vget_vset_eq _ _ _ _ Hset) in Hp. injection Hp as <-. eauto.
    + rewrite (vget_vset_ne _ _ _ _ _ Hset Hne) in Hp. eauto.
  - intros i p ki kp Hp Hpi Hki Hkp. destruct (decide (i = x)) as [->|Hne].
    + rewrite (vget_vset_eq _ _ _ _ Hset) in Hp. injection Hp as <-.
      eapply (rep_rank_lt s x r); eauto.
    + rewrite (vget_vset_ne _ _ _ _ _ Hset Hne) in Hp. eauto.
Qed.

(** [find_root] returns the root of the tree of [x]; on the way it
    changes [root], but moves no index to another tree. *)
Lemma find_root_rec_spec fuel : forall s x k,
  wf s -> vget (rank s) x = Some k ->
  foldr Z.max 0 (rank s) - k < Z.of_nat fuel ->
  exists r rt',
    find_root_rec fuel x s = Ok (r, with_root s rt') /\
    rep (root s) x r /\
    (forall j r', rep rt' j r' <-> rep (root s) j r') /\
    wf (with_root s rt').
Proof.
  induction fuel as [|fuel IH]; intros s x k Hwf Hk Hfuel.
  { pose proof (rank_le_max _ _ _ Hk). lia. }
  pose proof Hwf as (Hn & Hlr & Hlk & Hs & Hid & Hroot & Hrank & Hlt).
  pose proof (vget_bound _ _ _ Hk) as Hx.
  destruct (wf_root_defined s x Hwf ltac:(lia)) as (p & k' & Hp & Hk' & Hpr & _).
  assert (with_root s (root s) = s) as Hsame by (by destruct s).
  simpl. unfold bind at 1, get_root at 1. rewrite Hp.
  destruct (Z.eqb_spec p x) as [->|Hne]; simpl.
  - exists x, (root s). rewrite Hsame.
    unfold bind, ret, get_root. rewrite Hp.
    split; [done|]. split; [by constructor|]. done.
  - destruct (wf_root_defined s p Hwf Hpr) as (_ & kp & _ & Hkp & _).
    pose proof (Hlt _ _ _ _ Hp Hne Hk Hkp) as Hkk.
    destruct (IH s p kp Hwf Hkp ltac:(lia)) as (r & rt1 & E & Hrep & Heq & Hwf1).
    assert (rep (root s) x r) as Hxr by (by eapply rep_step).
    assert (rep rt1 x r) as Hxr1 by (by apply Heq).
    pose proof Hwf1 as (_ & Hlr1 & _).
    assert (vset rt1 x r = Some (<[Z.to_nat x := r]> rt1)) as Hset.
    { apply vset_in_range. simpl in Hlr1. lia. }
    exists r, (<[Z.to_nat x := r]> rt1).
    unfold bind at 1. unfold bind at 1. rewrite E.
    unfold set_root, with_root at 1. simpl. rewrite Hset.
    unfold get_root. simpl. rewrite (vget_vset_eq _ _ _ _ Hset).
    split; [done|]. split; [done|]. split.
    + intros j r'. rewrite <- Heq. by apply rep_compress with x r.
    + by apply (wf_compress (with_root s rt1) x r).
Qed.
(** ** The member functions on the invariant *)

Lemma find_root_spec s i :
  wf s -> 0 <= i < num_elements s ->
  exists r rt',
    find_root i s = Ok (r, with_root s rt') /\
    rep (root s) i r /\
    (forall j r', rep rt' j r' <-> rep (root s) j r') /\
    wf (with_root s rt').
Proof.
  intros Hwf Hi.
  destruct (wf_root_defined s i Hwf Hi) as (_ & k & _ & Hk & _ & Hk0).
  apply (find_root_rec_spec (budget s) s i k Hwf Hk).
  unfold budget. pose proof (rank_le_max _ _ _ Hk). lia.
Qed.

Lemma id_at_made s (x : T) i :
  map_find less (id s) x = Some i -> id_at x s = Ok (i, s).
Proof. intros H. unfold id_at. by rewrite H. Qed.

Lemma same_preserved s s' :
  id s' = id s ->
  (forall j r, rep (root s') j r <-> rep (root s) j r) ->
  forall a b, same s' a b <-> same s a b.
Proof.
  intros Hid Hrep a b. unfold same. rewrite Hid.
  split; intros (i & j & r & Hi & Hj & Hri & Hrj); exists i, j, r;
    repeat split; try done; by apply Hrep.
Qed.

(** The two [find_root] calls that [is_united] and [unite] start with. *)
Lemma find_roots_spec s (x y : T) i j :
  wf s -> map_find less (id s) x = Some i -> map_find less (id s) y = Some j ->
  exists r1 r2 rt1 rt2,
    id_at x s = Ok (i, s) /\
    find_root i s = Ok (r1, with_root s rt1) /\
    id_at y (with_root s rt1) = Ok (j, with_root s rt1) /\
    find_root j (with_root s rt1) = Ok (r2, with_root s rt2) /\
    rep (root s) i r1 /\ rep (root s) j r2 /\
    (forall k r', rep rt2 k r' <-> rep (root s) k r') /\
    wf (with_root s rt2).
Proof.
  intros Hwf Hx Hy.
  pose proof Hwf as (_ & _ & _ & _ & Hid & _).
  destruct (find_root_spec s i Hwf (Hid _ _ Hx))
    as (r1 & rt1 & E1 & Hr1 & Heq1 & Hwf1).
  destruct (find_root_spec (with_root s rt1) j Hwf1 (Hid _ _ Hy))
    as (r2 & rt2 & E2 & Hr2 & Heq2 & Hwf2).
  exists r1, r2, rt1, rt2.
  split; [by apply id_at_made|]. split; [done|].
  split; [by apply id_at_made|]. split; [done|].
  split; [done|]. split; [by apply Heq1|]. split; [|done].
  intros k r'. simpl in Heq2. by rewrite Heq2.
Qed.

(** The part of [unite] that links two distinct roots. *)
Lemma link_spec s r1 r2 :
  wf s -> vget (root s) r1 = Some r1 -> vget (root s) r2 = Some r2 ->
  r1 <> r2 ->
  exists s' gone keep,
    ((fun s0 => Ok (tt, DisjointSetForest (num_elements s0) (num_sets s0 - 1)
                          (id s0) (root s0) (rank s0))) ;;
     k1 <- get_rank r1 ;;
     k2 <- get_rank r2 ;;
     if k1 <? k2 then set_root r1 r2
     else
       set_root r2 r1 ;;
       k1' <- get_rank r1 ;;
       k2' <- get_rank r2 ;;
       if k1' =? k2' then set_rank r1 (k1' + 1) else ret tt) s
    = Ok (tt, s') /\
    ((gone = r1 /\ keep = r2) \/ (gone = r2 /\ keep = r1)) /\
    (forall j r', rep (root s') j r' <->
       (rep (root s) j r' /\ r' <> gone) \/ (rep (root s) j gone /\ r' = keep)) /\
    id s' = id s /\ num_elements s' = num_elements s /\
    num_sets s' = num_sets s - 1 /\ wf s'.
Proof.
  intros Hwf H1 H2 Hne.
  pose proof Hwf as (Hn & Hlr & Hlk & Hs & Hid & Hroot & Hrank & Hlt).
  pose proof (vget_bound _ _ _ H1) as Hb1.
  pose proof (vget_bound _ _ _ H2) as Hb2.
  destruct (vget_in_range (rank s) r1 ltac:(lia)) as [k1 Hk1].
  destruct (vget_in_range (rank s) r2 ltac:(lia)) as [k2 Hk2].
  unfold bind at 1. unfold bind at 1, get_rank at 1. simpl. rewrite Hk1.
  unfold bind at 1, get_rank at 1. simpl. rewrite Hk2.
  destruct (Z.ltb_spec k1 k2) as [Hlt12|Hge].
  - (* root[r1] = r2 *)
    pose proof (vset_in_range (root s) r1 r2 Hb1) as Hset.
    unfold set_root. simpl. rewrite Hset.
    eexists _, r1, r2. split; [done|]. split; [by left|]. simpl.
    split; [by apply rep_link|]. split; [done|]. split; [done|].
    split; [done|].
    unfold wf. simpl. rewrite length_insert.
    split; [done|]. split; [done|]. split; [done|]. split; [done|].
    split; [done|]. split; [|split; [done|] ].
    + intros i p Hp. destruct (decide (i = r1)) as [->|Hi].
      * rewrite (vget_vset_eq _ _ _ _ Hset) in Hp. injection Hp as <-. lia.
      * rewrite (vget_vset_ne _ _ _ _ _ Hset Hi) in Hp. eauto.
    + intros i p ki kp Hp Hpi Hki Hkp. destruct (decide (i = r1)) as [->|Hi].
      * rewrite (vget_vset_eq _ _ _ _ Hset) in Hp. injection Hp as <-.
        congruence.
      * rewrite (vget_vset_ne _ _ _ _ _ Hset Hi) in Hp. eauto.
  - (* root[r2] = r1 *)
    pose proof (vset_in_range (root s) r2 r1 Hb2) as Hset.
    unfold bind at 1, set_root at 1. simpl. rewrite Hset.
    unfold bind at 1, get_rank at 1. simpl. rewrite Hk1.
    unfold bind at 1, get_rank at 1. simpl. rewrite Hk2.
    assert (forall rk' : list Z,
              Z.of_nat (length rk') = num_elements s ->
              (forall i k, vget rk' i = Some k -> 0 <= k) ->
              (forall i, i <> r1 -> vget rk' i = vget (rank s) i) ->
              (exists k, vget rk' r1 = Some k /\ k1 <= k /\ k2 < k) ->
              wf (DisjointSetForest (num_elements s) (num_sets s - 1) (id s)
                    (<[Z.to_nat r2 := r1]> (root s)) rk')) as Hwf'.
    { intros rk' Hlen' Hpos Hother Hr1.
      unfold wf. simpl. rewrite length_insert.
      split; [done|]. split; [done|]. split; [done|]. split; [done|].
      split; [done|]. split; [|split; [done|] ].
      - intros i p Hp. destruct (decide (i = r2)) as [->|Hi].
        + rewrite (vget_vset_eq _ _ _ _ Hset) in Hp. injection Hp as <-. lia.
        + rewrite (vget_vset_ne _ _ _ _ _ Hset Hi) in Hp. eauto.
      - intros i p ki kp Hp Hpi Hki Hkp.
        destruct Hr1 as (k & Hk & Hk1k & Hk2k).
        destruct (decide (i = r2)) as [->|Hi].
        + rewrite (vget_vset_eq _ _ _ _ Hset) in Hp. injection Hp as <-.
          rewrite Hother in Hki by done.
          rewrite Hk in Hkp. rewrite Hk2 in Hki.
          injection Hkp as <-. by injection Hki as <-.
        + rewrite (vget_vset_ne _ _ _ _ _ Hset Hi) in Hp.
          assert (i <> r1) as Hi1 by congruence.
          rewrite Hother in Hki by done.
          destruct (decide (p = r1)) as [->|Hp1].
          * pose proof (Hlt _ _ _ _ Hp Hpi Hki Hk1).
            rewrite Hk in Hkp. injection Hkp as <-. lia.
          * rewrite Hother in Hkp by done. eauto. }
    assert (forall j r', rep (<[Z.to_nat r2 := r1]> (root s)) j r' <->
              (rep (root s) j r' /\ r' <> r2) \/ (rep (root s) j r2 /\ r' = r1))
      as Hrep by (by apply rep_link).
    destruct (Z.eqb_spec k1 k2) as [Heq|Hneq].
    + pose proof (vset_in_range (rank s) r1 (k1 + 1) ltac:(lia)) as Hsetk.
      unfold set_rank. simpl. rewrite Hsetk.
      eexists _, r2, r1. split; [done|]. split; [by right|]. simpl.
      split; [done|]. split; [done|]. split; [done|]. split; [done|].
      apply Hwf'.
      * by rewrite length_insert.
      * intros i k Hk. destruct (decide (i = r1)) as [->|Hi].
        -- rewrite (vget_vset_eq _ _ _ _ Hsetk) in Hk. injection Hk as <-.
           specialize (Hrank _ _ Hk1). lia.
        -- rewrite (vget_vset_ne _ _ _ _ _ Hsetk Hi) in Hk. eauto.
      * intros i Hi. by apply (vget_vset_ne _ _ _ _ _ Hsetk).
      * exists (k1 + 1).
        split; [by apply (vget_vset_eq _ _ _ _ Hsetk)|lia].
    + eexists _, r2, r1. split; [done|]. split; [by right|]. simpl.
      split; [done|]. split; [done|]. split; [done|]. split; [done|].
      apply Hwf'; [done|done|done|].
      exists k1. split; [done|]. lia.
Qed.
Lemma wf_has_root s i :
  wf s -> 0 <= i < num_elements s -> exists r, rep (root s) i r.
Proof.
  intros Hwf Hi. destruct (find_root_spec s i Hwf Hi) as (r & _ & _ & H & _).
  by exists r.
Qed.

Lemma rep_in_range s i r :
  wf s -> rep (root s) i r -> 0 <= i < num_elements s.
Proof.
  intros (_ & Hlr & _) [p Hp]%rep_start. apply vget_bound in Hp. lia.
Qed.

(** [make_set] of a new element: a new index that is its own root. *)
Lemma make_set_new s (x : T) :
  wf s -> map_find less (id s) x = None ->
  exists s', make_set x s = Ok (tt, s') /\
    num_elements s' = num_elements s + 1 /\
    num_sets s' = num_sets s + 1 /\
    id s' = map_set less (id s) x (num_elements s) /\
    root s' = root s ++ [num_elements s] /\
    wf s'.
Proof.
  intros Hwf Hx.
  pose proof Hwf as (Hn & Hlr & Hlk & Hs & Hid & Hroot & Hrank & Hlt).
  unfold make_set. rewrite Hx. eexists. split; [done|]. simpl.
  do 4 (split; [done|]).
  assert (forall (l : list Z) (a : Z) i v,
            Z.of_nat (length l) = num_elements s ->
            vget (l ++ [a]) i = Some v ->
            (i = num_elements s /\ v = a) \/
            (i <> num_elements s /\ vget l i = Some v)) as Hsnoc.
  { intros l a i v Hl Hv. unfold vget in *.
    case_decide as Hi; [|done].
    destruct (decide (Z.to_nat i < length l)%nat) as [Hlt'|Hge].
    - rewrite lookup_app_l in Hv by done. right. split; [lia|done].
    - rewrite lookup_app_r in Hv by lia.
      destruct (Z.to_nat i - length l)%nat as [|m] eqn:E; [|done].
      injection Hv as <-. left. split; [lia|done]. }
  unfold wf. simpl. rewrite !length_app. simpl.
  split; [lia|]. split; [lia|]. split; [lia|].
  split; [by apply map_set_sorted|].
  split; [|split; [|split] ].
  - intros y i Hy. destruct (lt_cases less Hlaws y x) as [->|Hne].
    + rewrite (map_find_set_eq less Hlaws) in Hy. injection Hy as <-. lia.
    + rewrite (map_find_set_ne less Hlaws) in Hy by done.
      specialize (Hid _ _ Hy). lia.
  - intros i p Hp. apply Hsnoc in Hp; [|done].
    destruct Hp as [[-> ->]|[_ Hp]]; [lia|]. specialize (Hroot _ _ Hp). lia.
  - intros i k Hk. apply Hsnoc in Hk; [|done].
    destruct Hk as [[-> ->]|[_ Hk]]; [lia|]. eauto.
  - intros i p ki kp Hp Hpi Hki Hkp.
    apply Hsnoc in Hp; [|done]. destruct Hp as [[-> ->]|[Hi Hp]]; [done|].
    apply Hsnoc in Hki; [|done]. destruct Hki as [[-> _]|[_ Hki]]; [done|].
    pose proof (Hroot _ _ Hp).
    apply Hsnoc in Hkp; [|done]. destruct Hkp as [[-> _]|[_ Hkp]]; [lia|].
    eauto.
Qed.

(** The first loop of [get_all_sets] keeps the partition, and files
    every element under the root of its tree. *)
Lemma collect_spec : forall it done tmp s rt0,
  wf s -> id s = done ++ it ->
  (forall j r, rep (root s) j r <-> rep rt0 j r) ->
  grouped rt0 done tmp ->
  exists tmp' rt',
    collect it tmp s = Ok (tmp', with_root s rt') /\
    (forall j r, rep rt' j r <-> rep rt0 j r) /\
    wf (with_root s rt') /\
    grouped rt0 (done ++ it) tmp'.
Proof.
  induction it as [|[x i] it IH]; intros done tmp s rt0 Hwf Hid Hrep Hg.
  { exists tmp, (root s). simpl. rewrite app_nil_r.
    replace (with_root s (root s)) with s by (by destruct s). done. }
  pose proof Hwf as (_ & _ & _ & Hs & Hrange & _).
  assert (map_find less (id s) x = Some i) as Hx.
  { apply (map_elem_find less Hlaws); [done|].
    rewrite Hid, elem_of_app, elem_of_cons. tauto. }
  destruct (find_root_spec s i Hwf (Hrange _ _ Hx))
    as (r & rt1 & E & Hr & Heq & Hwf1).
  simpl. rewrite (run_bind _ _ _ _ _ E).
  assert (grouped rt0 (done ++ [(x, i)]) (tmp_push tmp r x)) as Hg1.
  { destruct Hg as (Hst & Hlists & Hall & Htotal).
    apply Hrep in Hr.
    assert (forall y, y ∈ done.*1 -> less y x = true) as Hbefore.
    { intros y Hy. rewrite Hid, fmap_app, StronglySorted_app in Hs.
      destruct Hs as (Hs & _). apply Hs; [done|]. by left. }
    unfold grouped, tmp_push. split; [|split; [|split] ]; cycle 3.
    { rewrite (map_push_total Z.ltb), length_app, Htotal. simpl. lia. }
    - by apply (map_set_sorted Z.ltb Z_ltb_strict_total).
    - intros r' l Hl. destruct (decide (r' = r)) as [->|Hne].
      + rewrite (map_find_set_eq Z.ltb Z_ltb_strict_total) in Hl.
        injection Hl as <-.
        destruct (map_find Z.ltb tmp r) as [l0|] eqn:E0.
        * destruct (Hlists _ _ E0) as (Hne0 & Hs0 & Hin0).
          split; [by destruct l0|]. split.
          -- apply StronglySorted_app. split; [|split; [done|] ].
             ++ intros a b Ha ->%list_elem_of_singleton.
                apply Hin0 in Ha as (ia & Ha & _). apply Hbefore.
                apply list_elem_of_fmap. by exists (a, ia).
             ++ repeat constructor.
          -- intros y. rewrite elem_of_app, list_elem_of_singleton, Hin0.
             split.
             ++ intros [(iy & Hy & Hry)| ->].
                ** exists iy. rewrite elem_of_app. tauto.
                ** exists i. rewrite elem_of_app, list_elem_of_singleton. tauto.
             ++ intros (iy & [Hy|Hy]%elem_of_app & Hry); [left; eauto|].
                apply list_elem_of_singleton in Hy. injection Hy as -> ->.
                by right.
        * split; [done|]. split; [repeat constructor|].
          intros y. rewrite list_elem_of_singleton. split.
          -- intros ->. exists i.
             rewrite elem_of_app, list_elem_of_singleton. tauto.
          -- intros (iy & [Hy|Hy]%elem_of_app & Hry).
             ++ destruct (Hall _ _ _ Hy Hry) as [l0 Hl0]. congruence.
             ++ apply list_elem_of_singleton in Hy. by injection Hy as -> ->.
      + rewrite (map_find_set_ne Z.ltb Z_ltb_strict_total) in Hl by done.
        destruct (Hlists _ _ Hl) as (Hne0 & Hs0 & Hin0).
        split; [done|]. split; [done|]. intros y. rewrite Hin0. split.
        * intros (iy & Hy & Hry). exists iy. rewrite elem_of_app. tauto.
        * intros (iy & [Hy|Hy]%elem_of_app & Hry); [eauto|].
          apply list_elem_of_singleton in Hy. injection Hy as -> ->.
          by destruct Hne; eapply rep_det.
    - intros y iy r' [Hy|Hy]%elem_of_app Hry.
      + destruct (decide (r' = r)) as [->|Hne].
        * rewrite (map_find_set_eq Z.ltb Z_ltb_strict_total). eauto.
        * rewrite (map_find_set_ne Z.ltb Z_ltb_strict_total) by done. eauto.
      + apply list_elem_of_singleton in Hy. injection Hy as -> ->.
        rewrite (rep_det _ _ _ _ Hry Hr).
        rewrite (map_find_set_eq Z.ltb Z_ltb_strict_total). eauto. }
  destruct (IH (done ++ [(x, i)]) (tmp_push tmp r x) (with_root s rt1) rt0)
    as (tmp' & rt' & E' & Heq' & Hwf' & Hg'); [done| | |done|].
  { simpl. by rewrite Hid, <- app_assoc. }
  { intros j r'. simpl. by rewrite Heq. }
  exists tmp', rt'. rewrite <- app_assoc in Hg'. done.
Qed.
(** ** The partition *)

Lemma same_sym s (a b : T) : same s a b -> same s b a.
Proof. intros (i & j & r & ? & ? & ? & ?). by exists j, i, r. Qed.

Lemma same_trans s (a b c : T) : same s a b -> same s b c -> same s a c.
Proof.
  intros (i & j & r & Hi & Hj & Hri & Hrj) (j' & k & r' & Hj' & Hk & Hrj' & Hrk).
  rewrite Hj in Hj'. injection Hj' as <-.
  rewrite (rep_det _ _ _ _ Hrj' Hrj) in Hrk. by exists i, k, r.
Qed.

Lemma same_refl s (a : T) : wf s -> made s a -> same s a a.
Proof.
  intros Hwf [i Hi]. pose proof Hwf as (_ & _ & _ & _ & Hid & _).
  destruct (wf_has_root s i Hwf (Hid _ _ Hi)) as [r Hr]. by exists i, i, r.
Qed.

Lemma same_made s (a b : T) : same s a b -> made s a /\ made s b.
Proof. intros (i & j & r & Hi & Hj & _). split; by eexists. Qed.

(** The partition after two distinct roots have been linked. *)
Lemma same_after_link s s' (x y : T) i j rx ry gone keep :
  map_find less (id s) x = Some i -> map_find less (id s) y = Some j ->
  rep (root s) i rx -> rep (root s) j ry -> rx <> ry ->
  (gone = rx /\ keep = ry) \/ (gone = ry /\ keep = rx) ->
  id s' = id s ->
  (forall k r', rep (root s') k r' <->
     (rep (root s) k r' /\ r' <> gone) \/ (rep (root s) k gone /\ r' = keep)) ->
  forall a b, same s' a b <->
    same s a b \/ (same s a x /\ same s y b) \/ (same s a y /\ same s x b).
Proof.
  intros Hx Hy Hrx Hry Hne Hgk Hid Hrep a b.
  assert (forall c k, map_find less (id s) c = Some k -> rep (root s) k rx ->
            same s c x /\ same s x c) as Hcx.
  { intros c k Hc Hk. split; [by exists k, i, rx|by exists i, k, rx]. }
  assert (forall c k, map_find less (id s) c = Some k -> rep (root s) k ry ->
            same s c y /\ same s y c) as Hcy.
  { intros c k Hc Hk. split; [by exists k, j, ry|by exists j, k, ry]. }
  split.
  - intros (ia & ib & r' & Ha & Hb & Hra & Hrb). rewrite Hid in Ha, Hb.
    apply Hrep in Hra, Hrb.
    destruct Hra as [[Hra ?]|[Hra ->] ], Hrb as [[Hrb ?]|[Hrb ?] ].
    + left. by exists ia, ib, r'.
    + subst r'. destruct Hgk as [[-> ->]|[-> ->] ].
      * right; right. split; [by eapply Hcy|by eapply Hcx].
      * right; left. split; [by eapply Hcx|by eapply Hcy].
    + destruct Hgk as [[-> ->]|[-> ->] ].
      * right; left. split; [by eapply Hcx|by eapply Hcy].
      * right; right. split; [by eapply Hcy|by eapply Hcx].
    + left. by exists ia, ib, gone.
  - assert (forall ia ib, map_find less (id s) a = Some ia ->
              map_find less (id s) b = Some ib ->
              rep (root s) ia gone -> rep (root s) ib keep -> same s' a b)
      as Hgone_keep.
    { intros ia ib Ha Hb Hra Hrb. exists ia, ib, keep. rewrite Hid.
      split; [done|]. split; [done|]. split; apply Hrep; [by right|left].
      split; [done|]. destruct Hgk as [[-> ->]|[-> ->] ]; congruence. }
    assert (forall ia ib, map_find less (id s) a = Some ia ->
              map_find less (id s) b = Some ib ->
              rep (root s) ia keep -> rep (root s) ib gone -> same s' a b)
      as Hkeep_gone.
    { intros ia ib Ha Hb Hra Hrb. exists ia, ib, keep. rewrite Hid.
      split; [done|]. split; [done|]. split; apply Hrep; [left|by right].
      split; [done|]. destruct Hgk as [[-> ->]|[-> ->] ]; congruence. }
    intros [(ia & ib & r & Ha & Hb & Hra & Hrb)|[[Hax Hyb]|[Hay Hxb] ] ].
    + destruct (decide (r = gone)) as [->|Hr].
      * exists ia, ib, keep. rewrite Hid. split; [done|]. split; [done|].
        split; apply Hrep; by right.
      * exists ia, ib, r. rewrite Hid. split; [done|]. split; [done|].
        split; apply Hrep; by left.
    + destruct Hax as (ia & i' & r & Ha & Hx' & Hra & Hri).
      destruct Hyb as (j' & ib & r2 & Hy' & Hb & Hrj & Hrb).
      rewrite Hx in Hx'. injection Hx' as <-.
      rewrite Hy in Hy'. injection Hy' as <-.
      rewrite (rep_det _ _ _ _ Hri Hrx) in Hra.
      rewrite (rep_det _ _ _ _ Hrj Hry) in Hrb.
      destruct Hgk as [[-> ->]|[-> ->] ]; eauto.
    + destruct Hay as (ia & j' & r & Ha & Hy' & Hra & Hrj).
      destruct Hxb as (i' & ib & r2 & Hx' & Hb & Hri & Hrb).
      rewrite Hx in Hx'. injection Hx' as <-.
      rewrite Hy in Hy'. injection Hy' as <-.
      rewrite (rep_det _ _ _ _ Hrj Hry) in Hra.
      rewrite (rep_det _ _ _ _ Hri Hrx) in Hrb.
      destruct Hgk as [[-> ->]|[-> ->] ]; eauto.
Qed.

Lemma is_united_spec s (x y : T) :
  wf s -> made s x -> made s y ->
  exists b rt',
    is_united x y s = Ok (b, with_root s rt') /\
    (b = true <-> same s x y) /\
    (forall k r', rep rt' k r' <-> rep (root s) k r') /\
    wf (with_root s rt').
Proof.
  intros Hwf [i Hx] [j Hy].
  destruct (find_roots_spec s x y i j Hwf Hx Hy)
    as (r1 & r2 & rt1 & rt2 & E1 & E2 & E3 & E4 & Hr1 & Hr2 & Heq & Hwf').
  exists (r1 =? r2), rt2. unfold is_united.
  rewrite (run_bind _ _ _ _ _ E1), (run_bind _ _ _ _ _ E2).
  rewrite (run_bind _ _ _ _ _ E3), (run_bind _ _ _ _ _ E4).
  split; [done|]. split; [|done]. rewrite Z.eqb_eq. split.
  - intros <-. by exists i, j, r1.
  - intros (i' & j' & r & Hi' & Hj' & Hri & Hrj).
    rewrite Hx in Hi'. injection Hi' as <-.
    rewrite Hy in Hj'. injection Hj' as <-.
    by rewrite (rep_det _ _ _ _ Hr1 Hri), (rep_det _ _ _ _ Hr2 Hrj).
Qed.

Lemma unite_spec s (x y : T) :
  wf s -> made s x -> made s y ->
  exists s',
    unite x y s = Ok (tt, s') /\
    id s' = id s /\ num_elements s' = num_elements s /\ wf s' /\
    (same s x y -> num_sets s' = num_sets s) /\
    (~ same s x y -> num_sets s' = num_sets s - 1) /\
    (forall a b, same s' a b <->
       same s a b \/ (same s a x /\ same s y b) \/ (same s a y /\ same s x b)) /\
    (same s x y -> forall r, rep (root s') r r <-> rep (root s) r r) /\
    (~ same s x y ->
     exists g, rep (root s) g g /\
       forall r, rep (root s') r r <-> rep (root s) r r /\ r <> g).
Proof.
  intros Hwf [i Hx] [j Hy].
  destruct (find_roots_spec s x y i j Hwf Hx Hy)
    as (r1 & r2 & rt1 & rt2 & E1 & E2 & E3 & E4 & Hr1 & Hr2 & Heq & Hwf').
  unfold unite.
  rewrite (run_bind _ _ _ _ _ E1), (run_bind _ _ _ _ _ E2).
  rewrite (run_bind _ _ _ _ _ E3), (run_bind _ _ _ _ _ E4).
  assert (same s x y <-> r1 = r2) as Hsame.
  { split.
    - intros (i' & j' & r & Hi' & Hj' & Hri & Hrj).
      rewrite Hx in Hi'. injection Hi' as <-.
      rewrite Hy in Hj'. injection Hj' as <-.
      by rewrite (rep_det _ _ _ _ Hr1 Hri), (rep_det _ _ _ _ Hr2 Hrj).
    - intros <-. by exists i, j, r1. }
  destruct (Z.eqb_spec r1 r2) as [Heq12|Hne].
  - exists (with_root s rt2). split; [done|]. split; [done|]. split; [done|].
    split; [done|]. split; [done|]. split; [by intros []; apply Hsame|].
    split; [|split; [by intros _ r; apply Heq|by intros []; apply Hsame] ].
    intros a b. rewrite (same_preserved s (with_root s rt2) eq_refl Heq).
    apply Hsame in Heq12. split; [by left|].
    intros [H|[[Ha Hb]|[Ha Hb] ] ]; [done|..].
    + eapply same_trans; [exact Ha|]. by eapply same_trans.
    + eapply same_trans; [exact Ha|].
      eapply same_trans; [apply same_sym; exact Heq12|exact Hb].
  - destruct (link_spec (with_root s rt2) r1 r2 Hwf')
      as (s' & gone & keep & E & Hgk & Hrep & Hid' & Hn' & Hsets & Hwf'');
      [by eapply rep_root_is_root, Heq|by eapply rep_root_is_root, Heq|done|].
    assert (forall k r', rep (root s') k r' <->
              (rep (root s) k r' /\ r' <> gone) \/
              (rep (root s) k gone /\ r' = keep)) as Hrep'.
    { intros k r'. rewrite Hrep. simpl. by rewrite !Heq. }
    exists s'. split; [exact E|]. split; [done|]. split; [done|].
    split; [done|]. split; [by intros ?%Hsame|]. split; [done|].
    split; [by apply (same_after_link s s' x y i j r1 r2 gone keep)|].
    split; [by intros ?%Hsame|]. intros _. exists gone.
    pose proof (rep_self _ _ (rep_root_is_root _ _ _ Hr1)) as Hroot1.
    pose proof (rep_self _ _ (rep_root_is_root _ _ _ Hr2)) as Hroot2.
    split; [by destruct Hgk as [[-> _]|[-> _] ]|].
    intros r. rewrite Hrep'. split; [|by left].
    intros [H|[H ->] ]; [done|].
    destruct Hgk as [[-> ->]|[-> ->] ].
    + by rewrite (rep_of_root _ _ _ (rep_root_is_root _ _ _ Hr2) H) in Hne.
    + by rewrite (rep_of_root _ _ _ (rep_root_is_root _ _ _ Hr1) H) in Hne.
Qed.

(** ** Every object a program can hold satisfies the invariant *)

Lemma grouped_nil rt : grouped rt [] [].
Proof.
  split; [constructor|]. split; [done|]. split; [|done].
  intros x i r H. by apply elem_of_nil in H.
Qed.

Lemma get_all_sets_spec s :
  wf s ->
  exists tmp rt',
    get_all_sets s = Ok (tmp.*2, with_root s rt') /\
    (forall j r, rep rt' j r <-> rep (root s) j r) /\
    wf (with_root s rt') /\
    grouped (root s) (id s) tmp.
Proof.
  intros Hwf.
  destruct (collect_spec (id s) [] [] s (root s) Hwf eq_refl)
    as (tmp & rt' & E & Heq & Hwf' & Hg); [done|apply grouped_nil|].
  exists tmp, rt'. unfold get_all_sets. rewrite (run_bind _ _ _ _ _ E). done.
Qed.

Lemma init_wf : wf (disjoint_set_forest_init (T:=T)).
Proof.
  assert (forall i p, vget ([] : list Z) i = Some p -> False) as Hnil.
  { intros i p. unfold vget. case_decide; [|done]. by rewrite lookup_nil. }
  unfold wf. simpl. split; [done|]. split; [done|]. split; [done|].
  split; [constructor|]. split; [done|].
  split; [by intros i p ?%Hnil|]. split; [by intros i p ?%Hnil|].
  by intros i p ki kp ?%Hnil.
Qed.

Lemma built_wf s : built s -> wf s.
Proof.
  induction 1 as [|s x s' _ IH E|s x y b s' _ IH Hx Hy E
                  |s x y s' _ IH Hx Hy E|s l s' _ IH E].
  - apply init_wf.
  - destruct (map_find less (id s) x) as [i|] eqn:Hx.
    + unfold make_set in E. rewrite Hx in E. by injection E as <-.
    + destruct (make_set_new s x IH Hx) as (s1 & E1 & _ & _ & _ & _ & Hwf).
      by assert (s' = s1) as -> by congruence.
  - destruct (is_united_spec s x y IH Hx Hy) as (b1 & rt' & E1 & _ & _ & Hwf).
    by assert (s' = with_root s rt') as -> by congruence.
  - destruct (unite_spec s x y IH Hx Hy) as (s1 & E1 & _ & _ & Hwf & _).
    by assert (s' = s1) as -> by congruence.
  - destruct (get_all_sets_spec s IH) as (tmp & rt' & E1 & _ & Hwf & _).
    by assert (s' = with_root s rt') as -> by congruence.
Qed.
(** ** What the counters count *)

Lemma roots_spec s r :
  r ∈ roots s <-> 0 <= r < num_elements s /\ rep (root s) r r.
Proof.
  unfold roots. rewrite list_elem_of_filter, elem_of_seqZ. split.
  - intros [H ?]. split; [lia|by constructor].
  - intros [? H]. split; [by eapply rep_root_is_root|lia].
Qed.

Lemma roots_length_eq s s' :
  (forall r, r ∈ roots s' <-> r ∈ roots s) ->
  length (roots s') = length (roots s).
Proof.
  intros H. apply Permutation_length, NoDup_Permutation; [| |done];
    apply NoDup_filter, NoDup_seqZ.
Qed.

Lemma roots_length_cons s s' g :
  g ∉ roots s' -> (forall r, r ∈ roots s <-> r = g \/ r ∈ roots s') ->
  length (roots s) = S (length (roots s')).
Proof.
  intros Hg H. change (S (length (roots s'))) with (length (g :: roots s')).
  apply Permutation_length, NoDup_Permutation.
  - apply NoDup_filter, NoDup_seqZ.
  - constructor; [done|]. apply NoDup_filter, NoDup_seqZ.
  - intros r. rewrite H, elem_of_cons. done.
Qed.

Lemma counted_compress s rt' :
  counted s -> (forall j r, rep rt' j r <-> rep (root s) j r) ->
  counted (with_root s rt').
Proof.
  intros (Hlen & Honto & Hsets) Heq. unfold counted. simpl.
  split; [done|]. split; [done|]. rewrite Hsets. f_equal. symmetry.
  apply roots_length_eq. intros r. rewrite !roots_spec. simpl.
  by rewrite Heq.
Qed.

Lemma built_counted s : built s -> counted s.
Proof.
  induction 1 as [|s x s' Hb IH E|s x y b s' Hb IH Hx Hy E
                  |s x y s' Hb IH Hx Hy E|s l s' Hb IH E];
    try pose proof (built_wf _ Hb) as Hwf.
  - split; [done|]. split; [|done]. simpl. intros i Hi. lia.
  - destruct (map_find less (id s) x) as [i|] eqn:Hx.
    { unfold make_set in E. rewrite Hx in E. by injection E as <-. }
    destruct (make_set_new s x Hwf Hx)
      as (s1 & E1 & Hn & Hsets & Hid & Hroot & Hwf1).
    assert (s' = s1) as -> by congruence.
    destruct IH as (Hlen & Honto & Hcount).
    pose proof Hwf as (Hn0 & Hlr & _ & _ & Hrange & Hin & _).
    pose proof (rep_snoc (root s) (num_elements s) Hlr Hin) as Hrep.
    split; [|split].
    + rewrite Hid, (map_set_new_length less) by done. lia.
    + intros i Hi. rewrite Hid.
      destruct (decide (i = num_elements s)) as [->|Hne].
      * exists x. apply (map_find_set_eq less Hlaws).
      * destruct (Honto i ltac:(lia)) as [z Hz]. exists z.
        rewrite (map_find_set_ne less Hlaws); [done|]. intros ->. congruence.
    + rewrite Hsets, Hcount.
      rewrite (roots_length_cons s1 s (num_elements s)); [lia| |].
      * rewrite roots_spec. lia.
      * intros r. rewrite !roots_spec, Hroot, Hrep, Hn. split.
        -- intros [? [H|[-> _] ] ]; [right|by left].
           split; [|done]. apply (rep_in_range s) in H; [lia|done].
        -- intros [->|[? H] ]; [split; [lia|by right]|].
           split; [lia|by left].
  - destruct (is_united_spec s x y Hwf Hx Hy) as (b1 & rt' & E1 & _ & Heq & _).
    assert (s' = with_root s rt') as -> by congruence.
    by apply counted_compress.
  - destruct (unite_spec s x y Hwf Hx Hy)
      as (s1 & E1 & Hid & Hn & _ & Hsame & Hapart & _ & Hkeep & Hdrop).
    assert (s' = s1) as -> by congruence.
    destruct IH as (Hlen & Honto & Hcount).
    split; [by rewrite Hid, Hn|]. split; [by rewrite Hid, Hn|].
    assert (same s x y \/ ~ same s x y) as [Hs|Hs].
    { destruct (is_united_spec s x y Hwf Hx Hy) as (b1 & _ & _ & Hb1 & _).
      destruct b1; [left; by apply Hb1|right].
      intros H%Hb1. done. }
    + rewrite (Hsame Hs), Hcount. f_equal. symmetry.
      apply roots_length_eq. intros r. rewrite !roots_spec, Hn.
      by rewrite (Hkeep Hs).
    + destruct (Hdrop Hs) as (g & Hg & Hr).
      rewrite (Hapart Hs), Hcount.
      rewrite (roots_length_cons s s1 g); [lia| |].
      * rewrite roots_spec, Hr. tauto.
      * intros r. rewrite !roots_spec, Hn, Hr.
        pose proof (rep_in_range s g g Hwf Hg).
        destruct (decide (r = g)) as [->|Hne]; [tauto|]. tauto.
  - destruct (get_all_sets_spec s Hwf) as (tmp & rt' & E1 & Heq & _).
    assert (s' = with_root s rt') as -> by congruence.
    by apply counted_compress.
Qed.

(** ** The member functions *)

(** X19: [make_set(x)] of a new element adds the partition [{x}] and leaves
    the others as they are; [elements()] and [sets()] grow by one.
    Called again on an element it has seen, it changes nothing. *)
Theorem make_set_adds_a_partition s (x : T) :
  built s ->
  (made s x -> make_set x s = Ok (tt, s)) /\
  (~ made s x ->
   exists s', make_set x s = Ok (tt, s') /\
     elements s' = elements s + 1 /\ sets s' = sets s + 1 /\
     forall a b, same s' a b <-> same s a b \/ (a = x /\ b = x)).
Proof.
  intros Hwf%built_wf. split.
  { intros [i Hi]. unfold make_set. by rewrite Hi. }
  intros Hx.
  assert (map_find less (id s) x = None) as Hnone.
  { destruct (map_find less (id s) x) eqn:E; [|done]. destruct Hx. by eexists. }
  destruct (make_set_new s x Hwf Hnone)
    as (s' & E & Hn & Hsets & Hid & Hroot & Hwf').
  exists s'. split; [done|]. split; [done|]. split; [done|].
  pose proof Hwf as (_ & Hlr & _ & _ & Hrange & Hin & _).
  pose proof (rep_snoc (root s) (num_elements s) Hlr Hin) as Hrep.
  assert (forall r, ~ rep (root s) (num_elements s) r) as Hfresh.
  { intros r H%(rep_in_range s); [lia|done]. }
  assert (forall j, ~ rep (root s) j (num_elements s)) as Hfresh'.
  { intros j H%rep_root_is_root%vget_bound. lia. }
  intros a b. unfold same. rewrite Hid, Hroot. split.
  - intros (i & j & r & Ha & Hb & Hra & Hrb). apply Hrep in Hra, Hrb.
    destruct (lt_cases less Hlaws a x) as [->|Hax].
    + rewrite (map_find_set_eq less Hlaws) in Ha. injection Ha as <-.
      destruct Hra as [Hra|[_ ->] ]; [by apply Hfresh in Hra|].
      destruct Hrb as [Hrb|[-> _] ]; [by apply Hfresh' in Hrb|].
      destruct (lt_cases less Hlaws b x) as [->|Hbx]; [by right|].
      rewrite (map_find_set_ne less Hlaws) in Hb by done.
      apply Hrange in Hb. lia.
    + rewrite (map_find_set_ne less Hlaws) in Ha by done.
      pose proof (Hrange _ _ Ha).
      destruct Hra as [Hra|[-> _] ]; [|lia].
      destruct (lt_cases less Hlaws b x) as [->|Hbx].
      * rewrite (map_find_set_eq less Hlaws) in Hb. injection Hb as <-.
        destruct Hrb as [Hrb|[_ ->] ]; [by apply Hfresh in Hrb|].
        by apply Hfresh' in Hra.
      * rewrite (map_find_set_ne less Hlaws) in Hb by done.
        pose proof (Hrange _ _ Hb).
        destruct Hrb as [Hrb|[-> _] ]; [|lia].
        left. by exists i, j, r.
  - intros [(i & j & r & Ha & Hb & Hra & Hrb)|[-> ->] ].
    + exists i, j, r.
      rewrite !(map_find_set_ne less Hlaws) by congruence.
      split; [done|]. split; [done|]. split; apply Hrep; by left.
    + exists (num_elements s), (num_elements s), (num_elements s).
      rewrite (map_find_set_eq less Hlaws).
      split; [done|]. split; [done|]. split; apply Hrep; by right.
Qed.

(** X20: On elements [make_set] has seen, [is_united(x, y)] returns and
    tells whether [x] and [y] are in the same partition; it leaves the
    partition, [elements()] and [sets()] as they are. *)
Theorem is_united_decides s (x y : T) :
  built s -> made s x -> made s y ->
  exists b s', is_united x y s = Ok (b, s') /\
    (b = true <-> same s x y) /\
    (forall a c, same s' a c <-> same s a c) /\
    elements s' = elements s /\ sets s' = sets s.
Proof.
  intros Hwf%built_wf Hx Hy.
  destruct (is_united_spec s x y Hwf Hx Hy) as (b & rt' & E & Hb & Heq & _).
  exists b, (with_root s rt'). split; [done|]. split; [done|].
  split; [|done]. by apply same_preserved.
Qed.

(** X21: On elements [make_set] has seen, [unite(x, y)] returns and merges
    the partitions of [x] and [y], joining what was together with [x]
    to what was together with [y] and nothing else; [sets()] drops by
    one exactly when the two were apart. *)
Theorem unite_merges s (x y : T) :
  built s -> made s x -> made s y ->
  exists s', unite x y s = Ok (tt, s') /\
    (forall a b, same s' a b <->
       same s a b \/ (same s a x /\ same s y b) \/ (same s a y /\ same s x b)) /\
    elements s' = elements s /\
    (same s x y -> sets s' = sets s) /\
    (~ same s x y -> sets s' = sets s - 1).
Proof.
  intros Hwf%built_wf Hx Hy.
  destruct (unite_spec s x y Hwf Hx Hy)
    as (s' & E & _ & Hn & _ & Hsame & Hapart & Hpart & _).
  exists s'. done.
Qed.

(** X22: An element [make_set] has not seen: [id[x]] enters it into the map
    with index 0.  On an empty forest [is_united] and [unite] then
    index an empty vector; otherwise [x] silently stands for the first
    element ever added, and is never counted by [elements()]. *)
Theorem unknown_element_is_aliased s (x : T) :
  built s -> ~ made s x ->
  (elements s = 0 ->
   forall y, is_united x y s = Fault /\ unite x y s = Fault) /\
  (1 <= elements s ->
   exists s', is_united x x s = Ok (true, s') /\
     map_find less (id s') x = Some 0 /\
     elements s' = elements s /\
     forall z, map_find less (id s) z = Some 0 -> same s' x z).
Proof.
  intros Hwf%built_wf Hx.
  assert (map_find less (id s) x = None) as Hnone.
  { destruct (map_find less (id s) x) eqn:E; [|done]. destruct Hx. by eexists. }
  set (s1 := DisjointSetForest (num_elements s) (num_sets s)
               (map_set less (id s) x 0) (root s) (rank s)).
  assert (id_at x s = Ok (0, s1)) as E0 by (unfold id_at; by rewrite Hnone).
  pose proof Hwf as (Hn & Hlr & Hlk & Hs & Hid & Hroot & Hrank & Hlt).
  split.
  - intros Hempty y. unfold elements in Hempty.
    assert (find_root 0 s1 = Fault) as Ef.
    { unfold find_root, budget. cbn [find_root_rec].
      unfold bind at 1, get_root at 1. simpl.
      destruct (root s); [done|simpl in Hlr; lia]. }
    unfold is_united, unite. rewrite !(run_bind _ _ _ _ _ E0).
    unfold bind at 1. rewrite Ef. unfold bind at 1. by rewrite Ef.
  - intros Hne. unfold elements in Hne.
    assert (wf s1) as Hwf1.
    { unfold wf, s1. simpl. split; [done|]. split; [done|]. split; [done|].
      split; [by apply map_set_sorted|]. split; [|done].
      intros y i Hy. destruct (lt_cases less Hlaws y x) as [->|Hyx].
      - rewrite (map_find_set_eq less Hlaws) in Hy. injection Hy as <-. lia.
      - rewrite (map_find_set_ne less Hlaws) in Hy by done. eauto. }
    assert (map_find less (id s1) x = Some 0) as Hx1
      by apply (map_find_set_eq less Hlaws).
    assert (made s1 x) as Hm1 by (by eexists).
    destruct (is_united_spec s1 x x Hwf1 Hm1 Hm1)
      as (b & rt' & E & Hb & Heq & Hwf').
    assert (is_united x x s = is_united x x s1) as ->.
    { unfold is_united. rewrite (run_bind _ _ _ _ _ E0).
      by rewrite (run_bind _ _ _ _ _ (id_at_made s1 x 0 Hx1)). }
    assert (b = true) as -> by (by apply Hb, same_refl).
    exists (with_root s1 rt'). split; [done|]. split; [done|].
    split; [done|]. intros z Hz.
    apply (same_preserved s1 (with_root s1 rt') eq_refl Heq).
    destruct (wf_has_root s1 0 Hwf1 ltac:(simpl; lia)) as [r Hr].
    exists 0, 0, r. split; [done|]. split; [|done].
    simpl. rewrite (map_find_set_ne less Hlaws); [done|].
    intros ->. congruence.
Qed.

(** X23: [get_all_sets()] returns the partition: every element [make_set]
    has seen is in one of the returned sets, each returned set is one
    whole partition, listed in increasing order without repetition, and
    no partition is returned twice.  The call leaves the partition,
    [elements()] and [sets()] as they are. *)
Theorem get_all_sets_is_the_partition s :
  built s ->
  exists res s', get_all_sets s = Ok (res, s') /\
    (forall x, made s x -> exists l, l ∈ res /\ x ∈ l) /\
    (forall l a, l ∈ res -> a ∈ l -> forall b, b ∈ l <-> same s a b) /\
    (forall l, l ∈ res ->
       l <> [] /\ StronglySorted (fun a b => less a b = true) l) /\
    NoDup res /\
    (forall a b, same s' a b <-> same s a b) /\
    elements s' = elements s /\ sets s' = sets s.
Proof.
  intros Hwf%built_wf.
  destruct (get_all_sets_spec s Hwf)
    as (tmp & rt' & E & Heq & Hwf' & Hst & Hlists & Hall & _).
  pose proof Hwf as (_ & _ & _ & Hs & Hrange & _).
  exists tmp.*2, (with_root s rt'). split; [done|].
  assert (forall l, l ∈ tmp.*2 ->
            exists r, map_find Z.ltb tmp r = Some l) as Hfind.
  { intros l ([r l'] & -> & Hl)%list_elem_of_fmap. exists r.
    by apply (map_elem_find Z.ltb Z_ltb_strict_total). }
  assert (forall r l a, map_find Z.ltb tmp r = Some l -> a ∈ l ->
            exists i, map_find less (id s) a = Some i /\ rep (root s) i r)
    as Hroot.
  { intros r l a Hl Ha. destruct (Hlists _ _ Hl) as (_ & _ & Hin).
    apply Hin in Ha as (i & Ha & Hr). exists i. split; [|done].
    by apply (map_elem_find less Hlaws). }
  split; [|split; [|split; [|split; [|split] ] ] ].
  - intros x [i Hi].
    destruct (wf_has_root s i Hwf (Hrange _ _ Hi)) as [r Hr].
    pose proof (map_find_elem less Hlaws _ _ _ Hi) as Hin.
    destruct (Hall _ _ _ Hin Hr) as [l Hl]. exists l. split.
    + apply list_elem_of_fmap. exists (r, l). split; [done|].
      by apply (map_find_elem Z.ltb Z_ltb_strict_total).
    + destruct (Hlists _ _ Hl) as (_ & _ & Hmem). apply Hmem. eauto.
  - intros l a [r Hl]%Hfind Ha b.
    destruct (Hroot _ _ _ Hl Ha) as (i & Hi & Hri).
    destruct (Hlists _ _ Hl) as (_ & _ & Hmem). rewrite Hmem. split.
    + intros (j & Hj & Hrj). exists i, j, r. split; [done|].
      split; [by apply (map_elem_find less Hlaws)|done].
    + intros (i' & j & r' & Hi' & Hj & Hri' & Hrj).
      rewrite Hi in Hi'. injection Hi' as <-.
      rewrite (rep_det _ _ _ _ Hri' Hri) in Hrj.
      exists j. split; [by apply (map_find_elem less Hlaws)|done].
  - intros l [r Hl]%Hfind. by destruct (Hlists _ _ Hl) as (? & ? & _).
  - apply NoDup_fmap_2_strong.
    + intros [r1 l1] [r2 l2] H1 H2. simpl. intros <-.
      apply (map_elem_find Z.ltb Z_ltb_strict_total) in H1, H2; [|done..].
      destruct (Hlists _ _ H1) as (Hne & _ & _).
      destruct l1 as [|a l1]; [done|].
      destruct (Hroot _ _ a H1 ltac:(by left)) as (i & Hi & Hr1).
      destruct (Hroot _ _ a H2 ltac:(by left)) as (i' & Hi' & Hr2).
      rewrite Hi in Hi'. injection Hi' as <-.
      by rewrite (rep_det _ _ _ _ Hr1 Hr2).
    + eapply NoDup_fmap_1 with (f := fst).
      by apply (sorted_keys_NoDup Z.ltb Z_ltb_strict_total).
  - by apply same_preserved.
  - done.
Qed.
(** X24: The counters agree with what [get_all_sets()] returns: [sets()] is
    the number of sets and [elements()] the number of elements listed
    in them. *)
Theorem counters_match_the_sets s :
  built s ->
  exists res s', get_all_sets s = Ok (res, s') /\
    sets s = Z.of_nat (length res) /\
    elements s = Z.of_nat (length (concat res)).
Proof.
  intros Hb. pose proof (built_wf s Hb) as Hwf.
  destruct (built_counted s Hb) as (Hlen & Honto & Hcount).
  destruct (get_all_sets_spec s Hwf)
    as (tmp & rt' & E & Heq & Hwf' & Hst & Hlists & Hall & Htotal).
  pose proof Hwf as (_ & _ & _ & Hs & Hrange & _).
  exists tmp.*2, (with_root s rt'). split; [done|]. split.
  - unfold sets. rewrite Hcount, length_fmap, <- (length_fmap fst).
    f_equal. apply Permutation_length, NoDup_Permutation.
    + apply NoDup_filter, NoDup_seqZ.
    + by apply (sorted_keys_NoDup Z.ltb Z_ltb_strict_total).
    + intros r. rewrite roots_spec. split.
      * intros [Hr Hroot]. destruct (Honto r Hr) as [x Hx].
        destruct (Hall x r r) as [l Hl];
          [by apply (map_find_elem less Hlaws)|done|].
        apply list_elem_of_fmap. exists (r, l). split; [done|].
        by apply (map_find_elem Z.ltb Z_ltb_strict_total).
      * intros ([r' l] & -> & Hl)%list_elem_of_fmap. simpl.
        apply (map_elem_find Z.ltb Z_ltb_strict_total) in Hl; [|done].
        destruct (Hlists _ _ Hl) as (Hne & _ & Hmem).
        destruct l as [|a l]; [done|].
        destruct (proj1 (Hmem a) ltac:(by left)) as (i & _ & Hr).
        pose proof (rep_self _ _ (rep_root_is_root _ _ _ Hr)) as Hrr.
        split; [by apply (rep_in_range s r' r')|done].
  - unfold elements. by rewrite Htotal.
Qed.
End Laws.
End DisjointSets.

(** ** The theorems at concrete inputs *)

Section Witnesses.
Local Existing Instance min_set.
Local Open Scope segm_scope.

Lemma example_reach : reach [6; -2; 1; 8; 10] example_tree.
Proof. apply reach_range. vm_compute. reflexivity. Qed.

Lemma example_updated_reach :
  reach (apply_range 1 3 5 [6; -2; 1; 8; 10]) example_updated.
Proof.
  apply (reach_update _ example_tree 1 3 5); [apply example_reach| |].
  - vm_compute. intuition discriminate.
  - vm_compute. reflexivity.
Qed.

Lemma at_returns_logical_value_witness :
  exists s,
    run_calls [UpdatePoint 2 4; UpdateRange 0 4 5; UpdatePoint 3 2;
               UpdatePoint 3 1] example_tree = Ok (tt, s) /\
    forall i v0, [6; -2; 1; 8; 10] !! i = Some v0 ->
      exists s', at_ (Z.of_nat i) s
                 = Ok (logical_value
                         [UpdatePoint 2 4; UpdateRange 0 4 5; UpdatePoint 3 2;
                          UpdatePoint 3 1] (Z.of_nat i) v0, s').
Proof.
  apply (at_returns_logical_value [6; -2; 1; 8; 10] example_tree).
  - left. vm_compute. reflexivity.
  - repeat constructor; vm_compute; intuition discriminate.
Defined.

Lemma update_unvalidated_witness :
  exists s', update 5 0 9 example_updated = Ok (tt, s') /\
    (0 < 0 \/ size example_updated <= 5 -> s' = example_updated) /\
    (delta_composes_at_1 ->
     forall i x, apply_range 1 3 5 [6; -2; 1; 8; 10] !! i = Some x ->
       exists s'', at_ (Z.of_nat i) s'
                   = Ok (if decide (5 <= Z.of_nat i <= 0)
                         then join_value_with_delta x 9 1 else x, s'')).
Proof.
  apply (update_unvalidated (apply_range 1 3 5 [6; -2; 1; 8; 10])
           example_updated 5 0 9).
  exact example_updated_reach.
Defined.

Lemma segment_tree_fill_spec_witness :
  1 <= 3 /\ 4 * 3 <= INT_MAX /\
  exists s, segment_tree_fill 3 7 = Ok s /\ size s = 3 /\
    forall i, 0 <= i < 3 -> exists s', at_ i s = Ok (7, s').
Proof.
  split; [lia|]. split; [by vm_compute|].
  apply (segment_tree_fill_spec 3 7); [lia|by vm_compute].
Defined.


Lemma query_splits_witness :
  exists r s1 r1 s2 r2 s3,
    query 0 4 example_updated = Ok (r, s1) /\
    query 0 1 s1 = Ok (r1, s2) /\
    query (1 + 1) 4 s2 = Ok (r2, s3) /\
    r = join_values r1 r2.
Proof.
  apply (query_splits (apply_range 1 3 5 [6; -2; 1; 8; 10])
           example_updated 0 1 4).
  - exact min_set_assoc.
  - exact min_set_distributes.
  - exact min_set_composes.
  - exact example_updated_reach.
  - vm_compute. intuition discriminate.
Defined.

Lemma range_update_as_point_updates_witness :
  exists s1 s2,
    update 2 4 0 example_updated = Ok (tt, s1) /\
    point_updates 2 (Z.to_nat (4 - 2 + 1)) 0 example_updated = Ok (tt, s2) /\
    forall i, 2 <= i <= 4 ->
      exists x s1' s2', at_ i s1 = Ok (x, s1') /\ at_ i s2 = Ok (x, s2').
Proof.
  apply (range_update_as_point_updates
           (apply_range 1 3 5 [6; -2; 1; 8; 10])
           example_updated 2 4 0).
  - exact min_set_composes_at_1.
  - exact example_updated_reach.
  - vm_compute. intuition discriminate.
Defined.

Lemma lazy_invariant_witness :
  exists s',
    flush example_updated = Ok (tt, s') /\
    forall i lo hi, node_of (size example_updated) i lo hi ->
      vget (pending s') i = Some false /\
      (lo = hi ->
       vget (value s') i
       = apply_range 1 3 5 [6; -2; 1; 8; 10] !! Z.to_nat lo) /\
      (lo < hi ->
         exists a b, vget (value s') (2*i + 1) = Some a /\
           vget (value s') (2*i + 2) = Some b /\
           vget (value s') i = Some (join_values a b)).
Proof.
  apply (lazy_invariant (apply_range 1 3 5 [6; -2; 1; 8; 10])
           example_updated).
  - exact min_set_distributes.
  - exact min_set_composes.
  - exact example_updated_reach.
Defined.

Lemma query_keeps_logical_array_witness :
  exists r s', query 2 3 example_updated = Ok (r, s') /\
    forall j, 0 <= j < size example_updated ->
      exists x s1 s2, at_ j example_updated = Ok (x, s1) /\
                      at_ j s' = Ok (x, s2).
Proof.
  apply (query_keeps_logical_array (apply_range 1 3 5 [6; -2; 1; 8; 10])
           example_updated 2 3).
  - exact min_set_composes_at_1.
  - exact example_updated_reach.
  - vm_compute. intuition discriminate.
Defined.

Lemma indices_stay_in_allocation_witness :
  1 <= 5 /\ 4 * 5 <= INT_MAX /\
  (Z.of_nat (length (value example_updated)) = 4 * 5 /\
   Z.of_nat (length (delta example_updated)) = 4 * 5 /\
   Z.of_nat (length (pending example_updated)) = 4 * 5) /\
  exists x s', at_ 4 example_updated = Ok (x, s').
Proof.
  split; [lia|]. split; [by vm_compute|].
  destruct (indices_stay_in_allocation 5 ltac:(lia) ltac:(by vm_compute))
    as (_ & _ & H).
  destruct (H _ example_updated example_updated_reach eq_refl)
    as (Hlen & _ & Hat & _).
  split; [exact Hlen|]. apply Hat. lia.
Defined.

End Witnesses.

(** ** The further properties at concrete inputs *)

Section MoreWitnesses.
Local Existing Instance min_set.
Local Open Scope segm_scope.

Lemma query_rec_order_witness :
  exists r s',
    query_rec_rl 7 0 0 4 1 4 example_updated = Ok (r, s') /\
    query_rec 7 0 0 4 1 4 example_updated = Ok (r, s').
Proof.
  do 2 eexists. split; [vm_compute; reflexivity|].
  apply (query_rec_order 7 0 0 4 1 4 ltac:(lia)). vm_compute. reflexivity.
Defined.

Lemma reads_outside_the_array_fault_witness :
  1 <= size example_updated /\
  (forall lo hi, lo < 0 \/ size example_updated <= hi ->
     query lo hi example_updated = Fault) /\
  (forall i, i < 0 \/ size example_updated <= i -> at_ i example_updated = Fault).
Proof.
  split; [by vm_compute|].
  apply (reads_outside_the_array_fault example_updated). by vm_compute.
Defined.

Lemma query_joins_the_range_witness :
  exists s', query 1 4 example_updated
             = Ok (array_join (apply_range 1 3 5 [6; -2; 1; 8; 10]) 1 4, s').
Proof.
  apply (query_joins_the_range (apply_range 1 3 5 [6; -2; 1; 8; 10])
           example_updated 1 4).
  - exact min_set_assoc.
  - exact min_set_distributes.
  - exact min_set_composes.
  - exact example_updated_reach.
  - vm_compute. intuition discriminate.
Defined.

Lemma query_again_is_idle_witness :
  exists r s', query 1 4 example_updated = Ok (r, s') /\
               query 1 4 s' = Ok (r, s').
Proof.
  do 2 eexists. split; [vm_compute; reflexivity|].
  apply (query_again_is_idle example_updated 1 4). vm_compute. reflexivity.
Defined.

Lemma query_returns_the_minimum_witness :
  exists r s', query 0 4 example_tree = Ok (r, s') /\
    (exists j, 0 <= j <= 4 /\ [6; -2; 1; 8; 10] !! Z.to_nat j = Some r) /\
    (forall j x, 0 <= j <= 4 ->
       [6; -2; 1; 8; 10] !! Z.to_nat j = Some x -> r <= x).
Proof.
  apply (query_returns_the_minimum [6; -2; 1; 8; 10] example_tree 0 4).
  - exact example_reach.
  - vm_compute. intuition discriminate.
Defined.

Lemma assigned_range_reads_back_witness :
  exists s1 s2, update 1 3 7 example_updated = Ok (tt, s1) /\
                query 2 3 s1 = Ok (7, s2).
Proof.
  apply (assigned_range_reads_back (apply_range 1 3 5 [6; -2; 1; 8; 10])
           example_updated 1 3 7 2 3).
  - exact example_updated_reach.
  - vm_compute. intuition discriminate.
Defined.
End MoreWitnesses.

(** ** The search tree's theorems at concrete inputs *)

Section SearchTreeWitnesses.
Import bst.
Local Existing Instance int_key.
Local Open Scope char_scope.

Lemma int_key_laws : key_laws (K:=Z).
Proof.
  unfold int_key. repeat split; simpl.
  - intros a. apply Z.ltb_irrefl.
  - intros a b c. rewrite !Z.ltb_lt. lia.
  - intros a b. rewrite !Z.ltb_ge. lia.
  - by intros ->%Z.eqb_eq.
  - intros ->. apply Z.eqb_refl.
Qed.

Lemma example_bst_built : built example_bst.
Proof.
  exact (built_insert _ 4 "x"
          (built_insert _ 5 "e"
             (built_insert _ 3 "c"
                (built_insert _ 1 "a"
                   (built_insert _ 2 "b" built_init))))).
Qed.

(** The example program prints [abcde], [baed] and [adeb]. *)
Example search_tree_program :
  exists t1 t2,
    find_assign 4 "d" example_bst = Some t1 /\
    walk 0 t1 = ["a"; "b"; "c"; "d"; "e"] /\
    erase 3 t1 = (true, t2) /\
    walk (-1) t2 = ["b"; "a"; "e"; "d"] /\
    walk 1 t2 = ["a"; "d"; "e"; "b"].
Proof.
  do 2 eexists. do 4 (split; [vm_compute; reflexivity|]).
  vm_compute. reflexivity.
Qed.

Lemma size_counts_nodes_witness :
  size example_bst = Z.of_nat (length (walk 1 example_bst)) /\
  (empty example_bst = true <-> size example_bst = 0).
Proof. exact (size_counts_nodes int_key_laws example_bst 1 example_bst_built). Defined.

Lemma search_order_kept_witness : ordered (root example_bst).
Proof. exact (search_order_kept int_key_laws example_bst example_bst_built). Defined.

Lemma insert_new_key_witness :
  exists t', insert 6 "f" example_bst = (true, t') /\
    find 6 t' = Some "f" /\
    (forall k, k <> 6 -> find k t' = find k example_bst) /\
    size t' = size example_bst + 1.
Proof.
  apply (insert_new_key int_key_laws example_bst 6 "f" example_bst_built).
  vm_compute. reflexivity.
Defined.

Lemma insert_existing_key_witness :
  insert 4 "d" example_bst = (false, example_bst).
Proof.
  apply (insert_existing_key int_key_laws example_bst 4 "d" "x"
           example_bst_built).
  vm_compute. reflexivity.
Defined.

Lemma erase_present_key_witness :
  exists t', erase 2 example_bst = (true, t') /\
    find 2 t' = None /\
    (forall k, k <> 2 -> find k t' = find k example_bst) /\
    size t' = size example_bst - 1.
Proof.
  apply (erase_present_key int_key_laws example_bst 2 "b" example_bst_built).
  vm_compute. reflexivity.
Defined.

Lemma erase_missing_key_witness :
  erase 7 example_bst = (false, example_bst).
Proof.
  apply (erase_missing_key int_key_laws example_bst 7 example_bst_built).
  vm_compute. reflexivity.
Defined.

Lemma walk_in_key_order_witness :
  exists ks,
    StronglySorted (fun a b => key_lt a b = true) ks /\
    Forall2 (fun k v => find k example_bst = Some v) ks (walk 0 example_bst) /\
    forall k, is_Some (find k example_bst) -> k ∈ ks.
Proof. exact (walk_in_key_order int_key_laws example_bst example_bst_built). Defined.

Lemma find_assign_spec_witness :
  exists t', find_assign 4 "d" example_bst = Some t' /\
    find 4 t' = Some "d" /\
    (forall k, k <> 4 -> find k t' = find k example_bst) /\
    size t' = size example_bst.
Proof.
  exact (find_assign_spec int_key_laws example_bst 4 "d" example_bst_built).
Defined.

Lemma insert_then_erase_witness :
  exists t', insert 6 "f" example_bst = (true, t') /\
             erase 6 t' = (true, example_bst).
Proof.
  apply (insert_then_erase int_key_laws example_bst 6 "f").
  vm_compute. reflexivity.
Defined.
End SearchTreeWitnesses.

(** ** The forest's theorems at concrete inputs *)

Section DisjointSetWitnesses.
Import dsf.
Local Existing Instance char_less.
Local Open Scope char_scope.
Local Open Scope segm_scope.

Lemma char_less_laws : less_laws (T:=ascii).
Proof.
  unfold less_laws, less, char_less. repeat split.
  - intros a. apply Nat.ltb_irrefl.
  - intros a b c. rewrite !Nat.ltb_lt. lia.
  - intros a b. rewrite !Nat.ltb_ge. intros H1 H2.
    rewrite <- (ascii_nat_embedding a), <- (ascii_nat_embedding b).
    f_equal. lia.
Qed.

(** One more call on the object built so far. *)
Ltac forest_make x :=
  match goal with
  | H : built ?s |- _ =>
      let r := eval vm_compute in (make_set x s) in
      lazymatch r with
      | Ok (tt, ?s') =>
          assert (built s')
            by (apply (built_make_set s x s' H); vm_compute; reflexivity);
          clear H
      end
  end.

Ltac forest_unite x y :=
  match goal with
  | H : built ?s |- _ =>
      let r := eval vm_compute in (unite x y s) in
      lazymatch r with
      | Ok (tt, ?s') =>
          assert (built s')
            by (apply (built_unite s x y s' H);
                [by eexists|by eexists|vm_compute; reflexivity]);
          clear H
      end
  end.

Lemma example_forest_built : built example_forest.
Proof.
  pose proof (built_init (T:=ascii)) as H.
  forest_make "a". forest_make "b". forest_make "c". forest_make "d".
  forest_make "e". forest_make "f". forest_make "g".
  forest_unite "a" "b". forest_unite "b" "f".
  forest_unite "d" "e". forest_unite "d" "g".
  assumption.
Qed.

(** The example program prints [7 elements in 3 set] and
    [[a, b, f], [c], [d, e, g]]. *)
Example forest_program :
  elements example_forest = 7 /\ sets example_forest = 3 /\
  exists s', get_all_sets example_forest
             = Ok ([["a"; "b"; "f"]; ["c"]; ["d"; "e"; "g"]], s').
Proof.
  split; [reflexivity|]. split; [reflexivity|].
  eexists. vm_compute. reflexivity.
Qed.

Lemma make_set_adds_a_partition_witness :
  exists s', make_set "h" example_forest = Ok (tt, s') /\
    elements s' = elements example_forest + 1 /\
    sets s' = sets example_forest + 1 /\
    forall a b, same s' a b <->
      same example_forest a b \/ (a = "h" /\ b = "h").
Proof.
  apply (make_set_adds_a_partition char_less_laws example_forest "h"
           example_forest_built).
  intros [i Hi]. vm_compute in Hi. discriminate.
Defined.

Lemma is_united_decides_witness :
  exists b s', is_united "a" "f" example_forest = Ok (b, s') /\
    (b = true <-> same example_forest "a" "f") /\
    (forall a c, same s' a c <-> same example_forest a c) /\
    elements s' = elements example_forest /\ sets s' = sets example_forest.
Proof.
  apply (is_united_decides char_less_laws example_forest "a" "f"
           example_forest_built); by eexists.
Defined.

Lemma unite_merges_witness :
  exists s', unite "c" "d" example_forest = Ok (tt, s') /\
    (forall a b, same s' a b <->
       same example_forest a b \/
       (same example_forest a "c" /\ same example_forest "d" b) \/
       (same example_forest a "d" /\ same example_forest "c" b)) /\
    elements s' = elements example_forest /\
    (same example_forest "c" "d" -> sets s' = sets example_forest) /\
    (~ same example_forest "c" "d" -> sets s' = sets example_forest - 1).
Proof.
  apply (unite_merges char_less_laws example_forest "c" "d"
           example_forest_built); by eexists.
Defined.

Lemma unknown_element_is_aliased_witness :
  exists s', is_united "z" "z" example_forest = Ok (true, s') /\
    map_find less (id s') "z" = Some 0 /\
    elements s' = elements example_forest /\
    forall z, map_find less (id example_forest) z = Some 0 -> same s' "z" z.
Proof.
  apply (unknown_element_is_aliased char_less_laws example_forest "z"
           example_forest_built).
  - intros [i Hi]. vm_compute in Hi. discriminate.
  - by vm_compute.
Defined.

Lemma get_all_sets_is_the_partition_witness :
  exists res s', get_all_sets example_forest = Ok (res, s') /\
    (forall x, made example_forest x -> exists l, l ∈ res /\ x ∈ l) /\
    (forall l a, l ∈ res -> a ∈ l ->
       forall b, b ∈ l <-> same example_forest a b) /\
    (forall l, l ∈ res ->
       l <> [] /\ StronglySorted (fun a b => less a b = true) l) /\
    NoDup res /\
    (forall a b, same s' a b <-> same example_forest a b) /\
    elements s' = elements example_forest /\ sets s' = sets example_forest.
Proof.
  exact (get_all_sets_is_the_partition char_less_laws example_forest
           example_forest_built).
Defined.

Lemma counters_match_the_sets_witness :
  exists res s', get_all_sets example_forest = Ok (res, s') /\
    sets example_forest = Z.of_nat (length res) /\
    elements example_forest = Z.of_nat (length (concat res)).
Proof.
  exact (counters_match_the_sets char_less_laws example_forest
           example_forest_built).
Defined.
End DisjointSetWitnesses.
